(** * Neutra: the client-side search module and its callers

    A shallow embedding of [js/search.js] (index builder, query evaluator,
    debounced dispatch, highlighting), of the functions of [js/app.js] that
    have behaviour of their own (start-up, cache, durations, the lists of
    the pages, the search box) and of [js/router.js].

    JavaScript objects have identity: two records with equal fields are still
    two objects, and a property assigned to one is not seen on the other.
    Every object of the model therefore carries a reference ([loc]); the only
    property the code ever assigns after creation, [score], lives in a store
    indexed by these references. *)

From Stdlib Require Import ZArith QArith Qround Ascii String Sorted DecimalString.
From Stdlib Require SpecFloat.
From stdpp Require Import gmap strings list.
From Equations Require Import Equations.

Set Default Proof Using "Type".

(** ** JavaScript strings *)

Module JsString.

(** A string is a sequence of code units; the model covers the code units
    U+0000 .. U+00FF, one [ascii] each.  On that range the functions below
    are the ones of ECMAScript. *)

Definition code (c : ascii) : N := N_of_ascii c.

(** [A-Z], and [U+00C0 .. U+00DE] except the multiplication sign. *)
Definition is_upper (c : ascii) : bool :=
  let n := code c in
  ((65 <=? n) && (n <=? 90) || (192 <=? n) && (n <=? 222) && negb (n =? 215))%N.

Definition lower_char (c : ascii) : ascii :=
  if is_upper c then ascii_of_N (code c + 32) else c.

(** [String.prototype.toLowerCase] *)
Fixpoint toLowerCase (s : string) : string :=
  match s with
  | EmptyString => EmptyString
  | String c s' => String (lower_char c) (toLowerCase s')
  end.

(** WhiteSpace and LineTerminator: TAB, LF, VT, FF, CR, SP, NBSP. *)
Definition is_space (c : ascii) : bool :=
  let n := code c in
  ((9 <=? n) && (n <=? 13) || (n =? 32) || (n =? 160))%N.

Fixpoint trimStart (s : string) : string :=
  match s with
  | EmptyString => EmptyString
  | String c s' => if is_space c then trimStart s' else s
  end.

Fixpoint trimEnd (s : string) : string :=
  match s with
  | EmptyString => EmptyString
  | String c s' =>
      match trimEnd s' with
      | EmptyString => if is_space c then EmptyString else String c EmptyString
      | r => String c r
      end
  end.

(** [String.prototype.trim] *)
Definition trim (s : string) : string := trimEnd (trimStart s).

(** [s.startsWith(q)] *)
Fixpoint startsWith (s q : string) : bool :=
  match q, s with
  | EmptyString, _ => true
  | String _ _, EmptyString => false
  | String a q', String b s' => Ascii.eqb a b && startsWith s' q'
  end.

(** [s.includes(q)] *)
Fixpoint includes (s q : string) : bool :=
  startsWith s q ||
  match s with
  | EmptyString => false
  | String _ s' => includes s' q
  end.

(** Truthiness of a string: [!q] holds exactly for the empty one. *)
Definition truthy (s : string) : bool :=
  match s with EmptyString => false | String _ _ => true end.

End JsString.

Import JsString.

(** ** Arrays *)

Module JsArray.
Section Array.
Context {A : Type}.

(** [Array.prototype.slice(start, end)] on integer arguments: a negative
    argument counts from the end of the array. *)
Definition relative (len i : Z) : Z :=
  if (i <? 0)%Z then Z.max (len + i) 0 else Z.min i len.

Definition slice (start end_ : Z) (l : list A) : list A :=
  let len := Z.of_nat (length l) in
  let k := relative len start in
  let final := relative len end_ in
  take (Z.to_nat (Z.max (final - k) 0)) (drop (Z.to_nat k) l).

(** [Array.prototype.sort(cmp)]: the sort is stable; [x] stays in front
    of [y] unless the comparator is positive on them. *)
Fixpoint insert_sorted (cmp : A -> A -> Z) (x : A) (l : list A) : list A :=
  match l with
  | [] => [x]
  | y :: l' =>
      if (cmp x y <=? 0)%Z then x :: y :: l'
      else y :: insert_sorted cmp x l'
  end.

Definition sort (cmp : A -> A -> Z) (l : list A) : list A :=
  foldr (insert_sorted cmp) [] l.

(** The comparator [(a, b) => key(b) - key(a)], and the order it sorts
    into: highest key first. *)
Definition descending_by (key : A -> Z) (a b : A) : Z := (key b - key a)%Z.

Definition descending (key : A -> Z) (l : list A) : Prop :=
  StronglySorted (fun x y => (key y <= key x)%Z) l.

End Array.
End JsArray.

Import JsArray.

(** ** The search module ([js/search.js]) *)

Module Search.

(** Object identity. *)
Definition loc := nat.

(** Catalog records (data model of the catalog file). *)
Record Track := mkTrack {
  t_ref : loc;
  t_id : string;
  t_title : string;
  t_artist : string;
  t_album : option string;
  t_duration : Z
}.

Record Album := mkAlbum {
  a_ref : loc;
  a_id : string;
  a_title : string;
  a_artist : string
}.

(** A field of the catalog object that should hold an array. *)
Inductive Field (A : Type) : Type :=
| Missing                      (* undefined, null or another falsy value *)
| NotArray                     (* a truthy value that is not an array *)
| Arr (items : list A).
Arguments Missing {A}.
Arguments NotArray {A}.
Arguments Arr {A} items.

Record Catalog := mkCatalog {
  cat_tracks : Field Track;
  cat_albums : Field Album
}.

(** [field && Array.isArray(field)], and the elements then visited. *)
Definition items {A} (f : Field A) : list A :=
  match f with
  | Arr l => l
  | Missing | NotArray => []
  end.

(** Index entries: the object literals pushed by [buildIndex]. *)
Record TrackEntry := mkTrackEntry {
  te_ref : loc;
  te_id : string;
  te_title : string;
  te_artist : string;
  te_album : string;
  te_original : Track
}.

Record AlbumEntry := mkAlbumEntry {
  ae_ref : loc;
  ae_id : string;
  ae_title : string;
  ae_artist : string;
  ae_original : Album
}.

Record Index := mkIndex {
  idx_tracks : list TrackEntry;
  idx_albums : list AlbumEntry;
  idx_artists : list string      (* a Set in insertion order, then an array *)
}.

(** The module's variable [searchIndex] and the part of the heap the module
    touches: the [score] property of every object that has one, and the
    allocator of object identities. *)
Record State := mkState {
  searchIndex : option Index;
  score_of : gmap loc Z;
  next_ref : loc
}.

Definition initial : State := mkState None ∅ 0.

Definition allocated (st : State) (l : loc) : Prop := l < next_ref st.

(** [Set.prototype.add] on a set kept in insertion order. *)
Definition set_add (x : string) (s : list string) : list string :=
  if bool_decide (x ∈ s) then s else s ++ [x].

Definition index_track (track : Track) (ref : loc) : TrackEntry :=
  {| te_ref := ref;
     te_id := t_id track;
     te_title := toLowerCase (t_title track);
     te_artist := toLowerCase (t_artist track);
     te_album := toLowerCase (default EmptyString (t_album track));
     te_original := track |}.

Definition index_album (album : Album) (ref : loc) : AlbumEntry :=
  {| ae_ref := ref;
     ae_id := a_id album;
     ae_title := toLowerCase (a_title album);
     ae_artist := toLowerCase (a_artist album);
     ae_original := album |}.

(** One iteration of [catalog.tracks.forEach]: a fresh entry is pushed and
    the artist is added to the set. *)
Definition push_track (acc : Index * loc) (track : Track) : Index * loc :=
  let '(idx, ref) := acc in
  (mkIndex (idx_tracks idx ++ [index_track track ref])
           (idx_albums idx)
           (set_add (t_artist track) (idx_artists idx)),
   S ref).

Definition push_album (acc : Index * loc) (album : Album) : Index * loc :=
  let '(idx, ref) := acc in
  (mkIndex (idx_tracks idx)
           (idx_albums idx ++ [index_album album ref])
           (set_add (a_artist album) (idx_artists idx)),
   S ref).

Definition buildIndex (catalog : Catalog) (st : State) : State :=
  let acc := (mkIndex [] [] [], next_ref st) in
  let acc := foldl push_track acc (items (cat_tracks catalog)) in
  let acc := foldl push_album acc (items (cat_albums catalog)) in
  mkState (Some (fst acc)) (score_of st) (snd acc).

Record Options := mkOptions {
  opt_limit : option Z;          (* [options.limit], an integer when given *)
  opt_delay : option Z           (* [options.delay], milliseconds *)
}.

Definition no_options : Options := mkOptions None None.

(** [x || d] on an optional integer: absent and 0 are falsy. *)
Definition or_default (x : option Z) (d : Z) : Z :=
  match x with
  | Some n => if (n =? 0)%Z then d else n
  | None => d
  end.

Record Results := mkResults {
  res_tracks : list Track;
  res_albums : list Album;
  res_artists : list string
}.

Definition no_results : Results := mkResults [] [] [].

Definition track_matches (q : string) (track : TrackEntry) : bool :=
  includes (te_title track) q
  || includes (te_artist track) q
  || includes (te_album track) q.

Definition album_matches (q : string) (album : AlbumEntry) : bool :=
  includes (ae_title album) q || includes (ae_artist album) q.

Definition track_score (q : string) (m : TrackEntry) : Z :=
  let score := 0%Z in
  let score :=
    if startsWith (te_title m) q then (score + 100)%Z
    else if includes (te_title m) q then (score + 50)%Z else score in
  let score :=
    if startsWith (te_artist m) q then (score + 80)%Z
    else if includes (te_artist m) q then (score + 40)%Z else score in
  let score :=
    if includes (te_album m) q then (score + 20)%Z else score in
  score.

Definition album_score (q : string) (m : AlbumEntry) : Z :=
  let score := 0%Z in
  let score :=
    if startsWith (ae_title m) q then (score + 100)%Z
    else if includes (ae_title m) q then (score + 50)%Z else score in
  let score :=
    if startsWith (ae_artist m) q then (score + 80)%Z
    else if includes (ae_artist m) q then (score + 40)%Z else score in
  score.

(** [matches.forEach(match => { ...; match.score = score; })] *)
Definition assign_scores {E} (ref : E -> loc) (score : E -> Z)
    (matches : list E) (scores : gmap loc Z) : gmap loc Z :=
  foldl (fun h m => <[ref m := score m]> h) scores matches.

(** [(a, b) => b.score - a.score]; a missing score makes the difference
    NaN, which [sort] reads as 0. *)
Definition by_score {E} (ref : E -> loc) (scores : gmap loc Z) (a b : E) : Z :=
  match scores !! ref b, scores !! ref a with
  | Some sb, Some sa => (sb - sa)%Z
  | _, _ => 0%Z
  end.

(** "Search tracks", "Score and sort tracks": the matching entries in rank
    order, and the scores once they are written. *)
Definition rank_tracks (q : string) (index : Index) (scores : gmap loc Z)
    : list TrackEntry * gmap loc Z :=
  let trackMatches := List.filter (track_matches q) (idx_tracks index) in
  let scores := assign_scores te_ref (track_score q) trackMatches scores in
  (sort (by_score te_ref scores) trackMatches, scores).

(** "Search albums" *)
Definition rank_albums (q : string) (index : Index) (scores : gmap loc Z)
    : list AlbumEntry * gmap loc Z :=
  let albumMatches := List.filter (album_matches q) (idx_albums index) in
  let scores := assign_scores ae_ref (album_score q) albumMatches scores in
  (sort (by_score ae_ref scores) albumMatches, scores).

(** "Search artists" *)
Definition match_artists (q : string) (index : Index) : list string :=
  slice 0 10 (List.filter (fun artist => includes (toLowerCase artist) q)
                          (idx_artists index)).

Definition search (query : string) (options : Options) (st : State)
    : Results * State :=
  match searchIndex st with
  | None => (no_results, st)
  | Some index =>
      let q := trim (toLowerCase query) in
      if negb (truthy q) then (no_results, st)
      else
        let limit := or_default (opt_limit options) 50 in
        let '(trackMatches, scores) := rank_tracks q index (score_of st) in
        let tracks := map te_original (slice 0 limit trackMatches) in
        let '(albumMatches, scores) := rank_albums q index scores in
        let albums := map ae_original (slice 0 limit albumMatches) in
        let artists := match_artists q index in
        (mkResults tracks albums artists,
         mkState (searchIndex st) scores (next_ref st))
  end.

(** [isReady] *)
Definition isReady (st : State) : bool :=
  match searchIndex st with Some _ => true | None => false end.

(** A state in which an index has been built: the state left by
    [buildIndex], and every state later searches lead to. *)
Inductive built : State -> Prop :=
| built_buildIndex catalog st : built (buildIndex catalog st)
| built_search query options st : built st -> built (snd (search query options st)).

(** A run of searches, one after the other. *)
Fixpoint searches (history : list (string * Options)) (st : State) : State :=
  match history with
  | [] => st
  | (query, options) :: history' => searches history' (snd (search query options st))
  end.

(** *** Specification vocabulary *)

(** The limit a caller asks for: [options.limit], 50 when none is given. *)
Definition requested_limit (options : Options) : Z := default 50%Z (opt_limit options).

(** The scoring rule, contribution by contribution. *)
Definition title_points (q title : string) : Z :=
  if startsWith title q then 100 else if includes title q then 50 else 0.

Definition artist_points (q artist : string) : Z :=
  if startsWith artist q then 80 else if includes artist q then 40 else 0.

Definition album_points (q album : string) : Z :=
  if includes album q then 20 else 0.

(** [text] contains [Q], letter case ignored. *)
Definition contains_ci (text Q : string) : bool :=
  includes (toLowerCase text) (toLowerCase Q).

Definition starts_with_ci (text Q : string) : bool :=
  startsWith (toLowerCase text) (toLowerCase Q).

(** The names of a list, each kept where it is first met. *)
Fixpoint first_encounters (names : list string) : list string :=
  match names with
  | [] => []
  | x :: rest => x :: List.filter (fun y => negb (String.eqb y x)) (first_encounters rest)
  end.

(** The entries [buildIndex] creates for the records [l], the first one at
    reference [n]. *)
Fixpoint entries_from {R E} (mk : R -> loc -> E) (n : loc) (l : list R) : list E :=
  match l with
  | [] => []
  | r :: l' => mk r n :: entries_from mk (S n) l'
  end.

Definition entry_refs (index : Index) : list loc :=
  map te_ref (idx_tracks index) ++ map ae_ref (idx_albums index).

(** What holds of an index once built: entries are lower-cased projections
    of their originals, and are objects of their own. *)
Record index_ok (st : State) (index : Index) : Prop := mk_index_ok {
  ok_tracks : Forall (fun e => e = index_track (te_original e) (te_ref e)) (idx_tracks index);
  ok_albums : Forall (fun e => e = index_album (ae_original e) (ae_ref e)) (idx_albums index);
  ok_distinct : NoDup (entry_refs index);
  ok_allocated : Forall (allocated st) (entry_refs index)
}.

(** The records of a catalog are objects that exist in [st]. *)
Definition catalog_allocated (st : State) (catalog : Catalog) : Prop :=
  Forall (allocated st) (map t_ref (items (cat_tracks catalog))
                         ++ map a_ref (items (cat_albums catalog))).

(** *** Scenario data *)

Definition midnight_run : Track :=
  mkTrack 0 "1" "Midnight Run" "Jane Doe" None 125.

Definition scenario_catalog : Catalog :=
  mkCatalog (Arr [midnight_run]) (Arr []).

Definition scenario_state : State :=
  buildIndex scenario_catalog (mkState None ∅ 1).

(** One track and one album on which every scoring rule fires for "a". *)
Definition top_catalog : Catalog :=
  mkCatalog (Arr [mkTrack 0 "t1" "Aa" "Ab" (Some "A") 60])
            (Arr [mkAlbum 1 "a1" "Aa" "Ab"]).

Definition top_state : State := buildIndex top_catalog (mkState None ∅ 2).

(** Fifty-one tracks that all match "a". *)
Definition crowded_catalog : Catalog :=
  mkCatalog (Arr (map (fun i => mkTrack i "t" "a" "x" None 0) (seq 0 51))) Missing.

Definition crowded_state : State := buildIndex crowded_catalog (mkState None ∅ 51).

(** Two tracks containing "moon", one of them as a title prefix. *)
Definition blue_moon : Track := mkTrack 0 "1" "Blue Moon" "The Band" None 200.
Definition moonlight : Track := mkTrack 1 "2" "Moonlight" "The Band" None 180.

Definition moon_catalog : Catalog := mkCatalog (Arr [blue_moon; moonlight]) (Arr []).

Definition moon_state : State := buildIndex moon_catalog (mkState None ∅ 2).

(** The same two titles; the artist of the second track starts with
    "moon" as well. *)
Definition moonlight_x : Track := mkTrack 0 "1" "Moonlight" "X" None 180.
Definition blue_moon_band : Track := mkTrack 1 "2" "Blue Moon" "Moon Band" None 200.

Definition moon_band_catalog : Catalog :=
  mkCatalog (Arr [moonlight_x; blue_moon_band]) (Arr []).

Definition moon_band_state : State := buildIndex moon_band_catalog (mkState None ∅ 2).

(** Two tracks of one artist and an album of another. *)
Definition duo_catalog : Catalog :=
  mkCatalog (Arr [blue_moon; moonlight]) (Arr [mkAlbum 2 "a1" "Night Songs" "Jane Doe"]).

End Search.

Import Search.

(** ** Debounced dispatch ([debouncedSearch], [cancelSearch]) *)

Module Debounce.

Definition DEBOUNCE_DELAY : Z := 200.

(** Callbacks are opaque to the module; a callback is known by its name. *)
Definition Callback := nat.

(** The closure handed to [setTimeout]: it runs [search(query, options)]
    and passes the results and the query to [callback]. *)
Record Task := mkTask {
  task_query : string;
  task_callback : Callback;
  task_options : Options
}.

(** An active timer of the event loop. *)
Record Timer := mkTimer {
  due : Z;                       (* the time, in ms, it fires at *)
  task : Task
}.

(** One execution of a callback: [callback(results, query)]. *)
Record Call := mkCall {
  call_callback : Callback;
  call_results : Results;
  call_query : string
}.

Record World := mkWorld {
  search_state : State;          (* [searchIndex] and the heap *)
  debounceTimer : option nat;    (* the module's timer handle, or null *)
  timers : gmap nat Timer;       (* the active timers, by handle *)
  next_timer : nat;              (* the next handle [setTimeout] gives out *)
  now : Z;                       (* the clock, in ms *)
  calls : list Call              (* callbacks executed so far, oldest first *)
}.

Definition new_world (st : State) : World := mkWorld st None ∅ 1 0 [].

(** [clearTimeout(handle)]: nothing happens for null or a handle of no
    active timer. *)
Definition clearTimeout (handle : option nat) (w : World) : World :=
  match handle with
  | Some h =>
      mkWorld (search_state w) (debounceTimer w) (delete h (timers w))
              (next_timer w) (now w) (calls w)
  | None => w
  end.

(** [setTimeout(task, delay)]: a negative delay counts as 0. *)
Definition setTimeout (t : Task) (delay : Z) (w : World) : nat * World :=
  let h := next_timer w in
  (h, mkWorld (search_state w) (debounceTimer w)
              (<[h := mkTimer (now w + Z.max delay 0) t]> (timers w))
              (S h) (now w) (calls w)).

Definition debouncedSearch (query : string) (callback : Callback) (options : Options)
    (w : World) : World :=
  let w := clearTimeout (debounceTimer w) w in
  let '(h, w) := setTimeout (mkTask query callback options)
                            (or_default (opt_delay options) DEBOUNCE_DELAY) w in
  mkWorld (search_state w) (Some h) (timers w) (next_timer w) (now w) (calls w).

Definition cancelSearch (w : World) : World := clearTimeout (debounceTimer w) w.

(** The event loop runs a timer: the timer leaves the list of active
    timers, the search is done on the index of that moment, and the
    callback is called. *)
Definition fire (w : World) (ht : nat * Timer) : World :=
  let '(h, t) := ht in
  let '(results, st) := search (task_query (task t)) (task_options (task t))
                               (search_state w) in
  mkWorld st (debounceTimer w) (delete h (timers w)) (next_timer w)
          (Z.max (now w) (due t))
          (calls w ++ [mkCall (task_callback (task t)) results (task_query (task t))]).

(** Timers run in the order of their times, and of their creation for
    equal times. *)
Definition earlier (a b : nat * Timer) : Z :=
  if (due (snd a) =? due (snd b))%Z then (Z.of_nat (fst a) - Z.of_nat (fst b))%Z
  else (due (snd a) - due (snd b))%Z.

Definition due_timers (target : Z) (ts : gmap nat Timer) : list (nat * Timer) :=
  sort earlier (List.filter (fun ht => (due (snd ht) <=? target)%Z) (map_to_list ts)).

(** [dt] milliseconds pass, with no call into the module. *)
Definition wait (dt : Z) (w : World) : World :=
  let target := (now w + Z.max dt 0)%Z in
  let w := foldl fire w (due_timers target (timers w)) in
  mkWorld (search_state w) (debounceTimer w) (timers w) (next_timer w) target (calls w).

Inductive Event :=
| EvSearch (t : Task)            (* [debouncedSearch(query, callback, options)] *)
| EvCancel                       (* [cancelSearch()] *)
| EvWait (dt : Z).               (* time passes *)

Definition step (w : World) (ev : Event) : World :=
  match ev with
  | EvSearch t => debouncedSearch (task_query t) (task_callback t) (task_options t) w
  | EvCancel => cancelSearch w
  | EvWait dt => wait dt w
  end.

Definition run (evs : list Event) (w : World) : World := foldl step w evs.

(** *** Specification vocabulary *)

(** The delay of a call: [options.delay], 200 ms by default. *)
Definition delay_of (t : Task) : Z :=
  Z.max (or_default (opt_delay (task_options t)) DEBOUNCE_DELAY) 0.


Definition burst (cs : list (Task * Z)) : list Event :=
  flat_map (fun c => [EvSearch (fst c); EvWait (snd c)]) cs.

(** The module has one pending slot: an active timer is the one whose
    handle [debounceTimer] holds. *)
Definition single_slot (w : World) : Prop :=
  timers w = ∅
  \/ exists h t, debounceTimer w = Some h /\ timers w = {[h := t]}.

End Debounce.

(** ** Highlighting ([highlight], [escapeHtml], [escapeRegex]) *)

Module Highlight.

(** *** The DOM and RegExp services the module calls *)

(** Serialisation of a text node, as [div.innerHTML] gives it back. *)
Definition escape_char (c : ascii) : string :=
  if Ascii.eqb c "&" then "&amp;"
  else if Ascii.eqb c "<" then "&lt;"
  else if Ascii.eqb c ">" then "&gt;"
  else if (code c =? 160)%N then "&nbsp;"
  else String c EmptyString.

(** The syntax characters of a pattern. *)
Definition is_syntax_char (c : ascii) : bool :=
  Ascii.eqb c "." || Ascii.eqb c "*" || Ascii.eqb c "+" || Ascii.eqb c "?"
  || Ascii.eqb c "^" || Ascii.eqb c "$" || Ascii.eqb c "{" || Ascii.eqb c "}"
  || Ascii.eqb c "(" || Ascii.eqb c ")" || Ascii.eqb c "|" || Ascii.eqb c "["
  || Ascii.eqb c "]" || Ascii.eqb c "\".

(** The inside of a capture group made of characters that stand for
    themselves and of escaped syntax characters, up to the closing
    parenthesis, which must end the pattern.  Anything else is outside the
    patterns modelled here. *)
Fixpoint parse_group (p : string) : option string :=
  match p with
  | EmptyString => None
  | String c p' =>
      if Ascii.eqb c "\" then
        match p' with
        | String d p'' =>
            if is_syntax_char d then String d <$> parse_group p'' else None
        | EmptyString => None
        end
      else if Ascii.eqb c ")" then
        match p' with EmptyString => Some EmptyString | _ => None end
      else if is_syntax_char c then None
      else String c <$> parse_group p'
  end.

(** [new RegExp(pattern, 'gi')] for a pattern that is one capture group of
    literal characters: the characters to match.  [None]: the pattern is
    not of this form; whether JavaScript rejects it or reads it in another
    way is outside the model. *)
Definition RegExp (pattern : string) : option string :=
  match pattern with
  | String c p => if Ascii.eqb c "(" then parse_group p else None
  | EmptyString => None
  end.

(** Canonicalisation under the [i] flag: the upper-case code point. *)
Definition canonicalize (c : ascii) : N :=
  let n := code c in
  if ((97 <=? n) && (n <=? 122) || (224 <=? n) && (n <=? 254) && negb (n =? 247))%N
  then (n - 32)%N
  else if (n =? 255)%N then 376%N
  else if (n =? 181)%N then 924%N
  else n.

(** The literal matches at the start of [text]. *)
Fixpoint matches_at (lit text : string) : bool :=
  match lit, text with
  | EmptyString, _ => true
  | String _ _, EmptyString => false
  | String a lit', String b text' =>
      (canonicalize a =? canonicalize b)%N && matches_at lit' text'
  end.

(** The replacement ['<mark>$1</mark>'] for a match. *)
Definition mark (matched : string) : string := "<mark>" +:+ matched +:+ "</mark>".

(** [text.replace(regex, '<mark>$1</mark>')] with the [g] flag: the text is
    scanned from the left; a match is replaced and the scan goes on after
    it ([skip] counts the characters of the match still to pass); an empty
    match is followed by the next character, unchanged. *)
Fixpoint replace_from (lit : string) (skip : nat) (text : string) : string :=
  match text with
  | EmptyString =>
      match lit with EmptyString => mark EmptyString | _ => EmptyString end
  | String c text' =>
      match skip with
      | S k => replace_from lit k text'
      | O =>
          if matches_at lit text then
            match lit with
            | EmptyString => mark EmptyString +:+ String c (replace_from lit 0 text')
            | String _ lit' =>
                mark (substring 0 (String.length lit) text)
                +:+ replace_from lit (String.length lit') text'
            end
          else String c (replace_from lit 0 text')
      end
  end.

Definition replace (lit : string) (text : string) : string := replace_from lit 0 text.

(** *** The module's functions *)

Fixpoint escapeHtml (text : string) : string :=
  match text with
  | EmptyString => EmptyString
  | String c text' => escape_char c +:+ escapeHtml text'
  end.

Fixpoint escapeRegex (text : string) : string :=
  match text with
  | EmptyString => EmptyString
  | String c text' =>
      if is_syntax_char c then String "\" (String c (escapeRegex text'))
      else String c (escapeRegex text')
  end.

(** [None]: the pattern is none that [RegExp] above reads. *)
Definition highlight (text query : string) : option string :=
  if negb (truthy query) then Some (escapeHtml text)
  else
    let escaped := escapeHtml text in
    let q := toLowerCase (trim query) in
    match RegExp ("(" +:+ escapeRegex q +:+ ")") with
    | Some regex => Some (replace regex escaped)
    | None => None
    end.

(** *** Specification vocabulary *)

Definition is_html_special (c : ascii) : bool :=
  Ascii.eqb c "&" || Ascii.eqb c "<" || Ascii.eqb c ">" || (code c =? 160)%N.

(** Text without any character that [escapeHtml] rewrites. *)
Fixpoint plain (text : string) : bool :=
  match text with
  | EmptyString => true
  | String c text' => negb (is_html_special c) && plain text'
  end.

Fixpoint string_drop (n : nat) (s : string) : string :=
  match n, s with
  | O, _ => s
  | S n', String _ s' => string_drop n' s'
  | S _, EmptyString => EmptyString
  end.

(** [q] occurs in [text] at position [i], the characters compared as the
    [i] flag compares them. *)
Definition occurs_at (q text : string) (i : nat) : bool :=
  matches_at q (string_drop i text).

(** [out] is [text] with the occurrences of [q] wrapped in markers: the
    first occurrence from the left, then the first one after it, and so
    on to the end. *)
Inductive Marked (q : string) : string -> string -> Prop :=
| Marked_none text :
    (forall i, occurs_at q text i = false) ->
    Marked q text text
| Marked_next text i out :
    occurs_at q text i = true ->
    (forall j, j < i -> occurs_at q text j = false) ->
    Marked q (string_drop (i + String.length q) text) out ->
    Marked q text
           (substring 0 i text +:+ "<mark>" +:+ substring i (String.length q) text
            +:+ "</mark>" +:+ out).

End Highlight.

(** ** The application module ([js/app.js]) *)

Module App.

(** *** Numbers

    A number is NaN, an infinity or a finite binary64 value, kept as the
    rational it stands for.  The two zeros are one: nothing below tells
    them apart.  Arithmetic that is not exact in binary64 rounds its result
    with [round64]. *)
Inductive JsNumber :=
| NaN
| Infinity (negative : bool)
| Fin (x : Q).

Inductive JsValue :=
| Undefined
| Number (n : JsNumber).

(** **** Rounding to binary64: to nearest, ties to even *)

(** [2^e <= n/d], for positive [n] and [d]. *)
Definition le_pow2 (e n d : Z) : bool :=
  (d * 2 ^ Z.max e 0 <=? n * 2 ^ Z.max (- e) 0)%Z.

(** The [e] with [2^e <= n/d < 2^(e+1)]. *)
Definition exponent (n d : Z) : Z :=
  let e := (Z.log2 n - Z.log2 d)%Z in
  if le_pow2 e n d then e else (e - 1)%Z.

(** The integer nearest to [n/d]; of two, the even one. *)
Definition nearest_even (n d : Z) : Z :=
  let t := (n / d)%Z in
  match (2 * (n mod d) ?= d)%Z with
  | Lt => t
  | Gt => (t + 1)%Z
  | Eq => if Z.even t then t else (t + 1)%Z
  end.

(** [m * 2^j] *)
Definition scale (m j : Z) : Q :=
  if (0 <=? j)%Z then inject_Z (m * 2 ^ j) else m # Z.to_pos (2 ^ (- j)).

(** The binary64 value nearest to [n/d > 0]: a significand of 53 bits at
    the exponent of [n/d], which is not taken below -1022 (subnormal
    values); from [2^1024] on the result is infinite. *)
Definition round_pos (n d : Z) : JsNumber :=
  let e := Z.max (exponent n d) (-1022) in
  let k := (52 - e)%Z in
  let m := nearest_even (n * 2 ^ Z.max k 0) (d * 2 ^ Z.max (- k) 0) in
  if (1023 <=? e)%Z && (2 ^ 1024 <=? m * 2 ^ (e - 52))%Z then Infinity false
  else Fin (scale m (e - 52)).

Definition negate (n : JsNumber) : JsNumber :=
  match n with
  | NaN => NaN
  | Infinity s => Infinity (negb s)
  | Fin x => Fin (- x)
  end.

Definition round64 (x : Q) : JsNumber :=
  let r := Qred x in
  match Qnum r with
  | Z0 => Fin 0
  | Zpos n => round_pos (Zpos n) (Zpos (Qden r))
  | Zneg n => negate (round_pos (Zpos n) (Zpos (Qden r)))
  end.

(** **** Operators *)

(** [!v] *)
Definition falsy (v : JsValue) : bool :=
  match v with
  | Undefined => true
  | Number NaN => true
  | Number (Infinity _) => false
  | Number (Fin x) => Qeq_bool x 0
  end.

(** [isNaN(v)], after conversion to a number. *)
Definition isNaN (v : JsValue) : bool :=
  match v with
  | Undefined => true
  | Number NaN => true
  | Number _ => false
  end.

Definition to_number (v : JsValue) : JsNumber :=
  match v with Undefined => NaN | Number n => n end.

(** Rounding towards zero. *)
Definition Qtrunc (x : Q) : Z :=
  if Qle_bool 0 x then Qfloor x else Qceiling x.

(** [a + b] *)
Definition number_add (a b : JsNumber) : JsNumber :=
  match a, b with
  | NaN, _ | _, NaN => NaN
  | Infinity s, Infinity s' => if Bool.eqb s s' then Infinity s else NaN
  | Infinity s, Fin _ | Fin _, Infinity s => Infinity s
  | Fin x, Fin y => round64 (x + y)
  end.

(** [n / d] for a positive finite divisor [d]: the quotient, rounded. *)
Definition div (n : JsNumber) (d : Q) : JsNumber :=
  match n with
  | NaN => NaN
  | Infinity s => Infinity s
  | Fin x => round64 (x / d)
  end.

(** [n % d] for a positive finite divisor [d]: the remainder of the
    division truncated towards zero; it is a binary64 value as it is, and
    is not rounded. *)
Definition rem (n : JsNumber) (d : Q) : JsNumber :=
  match n with
  | NaN | Infinity _ => NaN
  | Fin x => Fin (x - d * inject_Z (Qtrunc (x / d)))
  end.

(** The values of [Math.floor]: NaN, an infinity or an integer. *)
Inductive JsInteger :=
| INaN
| IInfinity (negative : bool)
| IFin (z : Z).

Definition Math_floor (n : JsNumber) : JsInteger :=
  match n with
  | NaN => INaN
  | Infinity s => IInfinity s
  | Fin x => IFin (Qfloor x)
  end.

Definition of_integer (n : JsInteger) : JsNumber :=
  match n with
  | INaN => NaN
  | IInfinity s => Infinity s
  | IFin z => Fin (inject_Z z)
  end.

(** [n < d] for a finite [d]. *)
Definition integer_lt (n : JsInteger) (d : Z) : bool :=
  match n with
  | INaN => false
  | IInfinity s => s
  | IFin z => (z <? d)%Z
  end.

(** [n % d] on integers, for a positive [d]. *)
Definition integer_rem (n : JsInteger) (d : Z) : JsInteger :=
  match n with
  | INaN | IInfinity _ => INaN
  | IFin z => IFin (Z.rem z d)
  end.

(** **** Number to string *)

Definition decimal (z : Z) : string := NilZero.string_of_int (Z.to_int z).

(** The integer [c] is read back as the number [z]. *)
Definition rounds_to (c z : Z) : bool :=
  match round64 (inject_Z c) with
  | Fin y => Qeq_bool y (inject_Z z)
  | _ => false
  end.

(** The multiple of [10^j] that is read back as [z], if there is one: the
    one nearest to [z] if both neighbours are, the even one of two as
    near. *)
Definition candidate (z j : Z) : option Z :=
  let p := (10 ^ j)%Z in
  let lo := (z / p * p)%Z in
  let hi := (lo + p)%Z in
  match rounds_to lo z, rounds_to hi z with
  | true, true =>
      Some match (2 * (z mod p) ?= p)%Z with
           | Lt => lo
           | Gt => hi
           | Eq => if Z.even (z / p) then lo else hi
           end
  | true, false => Some lo
  | false, true => Some hi
  | false, false => None
  end.

(** The integer with the fewest significant digits that is read back as
    [z]: multiples of [10^j] are tried from the largest [j] down. *)
Fixpoint shortest (z : Z) (j : nat) : Z :=
  match j with
  | O => z
  | S j' =>
      match candidate z (Z.of_nat j) with
      | Some c => c
      | None => shortest z j'
      end
  end.

Fixpoint strip_zeros (digits : list ascii) : list ascii :=
  match digits with
  | [] => []
  | c :: rest =>
      match strip_zeros rest with
      | [] => if Ascii.eqb c "0" then [] else [c]
      | r => c :: r
      end
  end.

(** The exponent notation of numbers from 1e21 on. *)
Definition exponential (c : Z) : string :=
  let digits := decimal c in
  let n := String.length digits in
  match strip_zeros (list_ascii_of_string digits) with
  | [] => "0"
  | [d] => String d ("e+" +:+ decimal (Z.of_nat n - 1))
  | d :: rest =>
      String d ("." +:+ string_of_list_ascii rest +:+ "e+" +:+ decimal (Z.of_nat n - 1))
  end.

(** The digits of a positive integer-valued number. *)
Definition digits_of (z : Z) : string :=
  let c := shortest z (String.length (decimal z) - 1) in
  if (c <? 10 ^ 21)%Z then decimal c else exponential c.

(** [n.toString()] and the conversion of a template literal, for a number
    that is an integer. *)
Definition toString (n : JsInteger) : string :=
  match n with
  | INaN => "NaN"
  | IInfinity false => "Infinity"
  | IInfinity true => "-Infinity"
  | IFin Z0 => "0"
  | IFin (Zpos p) => digits_of (Zpos p)
  | IFin (Zneg p) => "-" +:+ digits_of (Zpos p)
  end.

Fixpoint repeat_string (n : nat) (s : string) : string :=
  match n with
  | O => EmptyString
  | S n' => s +:+ repeat_string n' s
  end.

(** [s.padStart(targetLength, padString)] *)
Definition padStart (targetLength : nat) (padString : string) (s : string) : string :=
  let len := String.length s in
  if (targetLength <=? len)%nat then s
  else
    match padString with
    | EmptyString => s
    | _ =>
        let fillLen := (targetLength - len)%nat in
        substring 0 fillLen (repeat_string fillLen padString) +:+ s
    end.

Definition formatDuration (seconds : JsValue) : string :=
  if falsy seconds || isNaN seconds then "0:00"
  else
    let mins := Math_floor (div (to_number seconds) 60) in
    let secs := Math_floor (rem (to_number seconds) 60) in
    toString mins +:+ ":" +:+ padStart 2 "0" (toString secs).

(** *** Loading the data *)

(** [links.json]: for tracks and for albums, id to platform to URL. *)
Record Links := mkLinks {
  link_tracks : list (string * list (string * string));
  link_albums : list (string * list (string * string))
}.

(** What [fetch(url)] comes to. *)
Inductive Fetch (A : Type) : Type :=
| NetworkError                            (* [fetch] rejects *)
| Response (ok : bool) (json : option A). (* [json]: the body, if it parses *)
Arguments NetworkError {A}.
Arguments Response {A} ok json.

(** [loadJSON]: the data, or null after any failure. *)
Definition loadJSON {A} (response : Fetch A) : option A :=
  match response with
  | NetworkError => None
  | Response ok json => if negb ok then None else json
  end.

Definition CACHE_DURATION : Z := 5 * 60 * 1000.

Record CacheEntry := mkCacheEntry {
  c_catalog : Search.Catalog;
  c_links : Links;
  timestamp : Z
}.

(** The item of the session storage under [CACHE_KEY]. *)
Inductive Item :=
| NoItem
| Malformed                       (* text that [JSON.parse] rejects *)
| Entry (data : CacheEntry).

Record Storage := mkStorage {
  item : Item;
  writable : bool                 (* false: [setItem] throws (full, disabled) *)
}.

Definition getCache (time : Z) (storage : Storage) : option CacheEntry * Storage :=
  match item storage with
  | NoItem => (None, storage)
  | Malformed => (None, storage)
  | Entry data =>
      if (CACHE_DURATION <? time - timestamp data)%Z
      then (None, mkStorage NoItem (writable storage))
      else (Some data, storage)
  end.

Definition setCache (time : Z) (catalog : Search.Catalog) (links : Links)
    (storage : Storage) : Storage :=
  if writable storage
  then mkStorage (Entry (mkCacheEntry catalog links time)) (writable storage)
  else storage.

(** The module's variables, with the state of the search module and the
    session storage. *)
Record AppState := mkAppState {
  catalog : option Search.Catalog;
  links : option Links;
  isInitialized : bool;
  storage : Storage;
  search_module : Search.State
}.

(** What [init] meets: the clock and the answers to the two requests. *)
Record Env := mkEnv {
  time : Z;
  catalog_response : Fetch Search.Catalog;
  links_response : Fetch Links
}.

Definition init (env : Env) (s : AppState) : bool * AppState :=
  if isInitialized s then (true, s)
  else
    let '(cached, storage) := getCache (time env) (storage s) in
    let '(catalog, links, storage) :=
      match cached with
      | Some data => (Some (c_catalog data), Some (c_links data), storage)
      | None =>
          let catalogData := loadJSON (catalog_response env) in
          let linksData := loadJSON (links_response env) in
          let storage :=
            match catalogData, linksData with
            | Some c, Some l => setCache (time env) c l storage
            | _, _ => storage
            end in
          (catalogData, linksData, storage)
      end in
    let search_module :=
      match catalog with
      | Some c => Search.buildIndex c (search_module s)
      | None => search_module s
      end in
    (* [initGlobalSearch] and [initMobileMenu] attach listeners only *)
    (match catalog with Some _ => true | None => false end,
     mkAppState catalog links true storage search_module).

(** *** Specification vocabulary *)

Definition loaded {A} (response : Fetch A) : Prop := is_Some (loadJSON response).

(** [init] has to fetch: it has not run yet and the cache has no entry in
    date. *)
Definition must_fetch (env : Env) (s : AppState) : Prop :=
  isInitialized s = false /\ fst (getCache (time env) (storage s)) = None.

Definition cached_pair (s : AppState) : option (Search.Catalog * Links) :=
  match item (storage s) with
  | Entry data => Some (c_catalog data, c_links data)
  | _ => None
  end.

(** [x] is a binary64 value: rounding leaves it as it is. *)
Definition is_binary64 (x : Q) : bool :=
  match round64 x with
  | Fin y => Qeq_bool y x
  | _ => false
  end.

(** The reference for [round64]: IEEE 754 binary64 as the Standard Library
    specifies it. *)
Definition of_Z (z : Z) : SpecFloat.spec_float :=
  SpecFloat.binary_normalize 53 1024 z 0 false.

Definition of_spec_float (f : SpecFloat.spec_float) : JsNumber :=
  match f with
  | SpecFloat.S754_zero _ => Fin 0
  | SpecFloat.S754_infinity s => Infinity s
  | SpecFloat.S754_nan => NaN
  | SpecFloat.S754_finite s m e => Fin (scale (if s then Z.neg m else Z.pos m) e)
  end.

Definition same_number (a b : JsNumber) : bool :=
  match a, b with
  | NaN, NaN => true
  | Infinity s, Infinity s' => Bool.eqb s s'
  | Fin x, Fin y => Qeq_bool x y
  | _, _ => false
  end.

(** The quotient and the sum of two integers, in the model and in the
    reference. *)
Definition quotient_agrees (a b : Z) : bool :=
  same_number (of_spec_float (SpecFloat.SFdiv 53 1024 (of_Z a) (of_Z b)))
              (round64 (inject_Z a / inject_Z b)).

Definition sum_agrees (a b : Z) : bool :=
  same_number (of_spec_float (SpecFloat.SFadd 53 1024 (of_Z a) (of_Z b)))
              (round64 (inject_Z a + inject_Z b)).

(** The digit of a number below ten. *)
Definition digit (n : Z) : ascii := ascii_of_N (48 + Z.to_N n).

(** A number below a hundred, on two digits. *)
Definition two_digits (n : Z) : string :=
  String (digit (n / 10)) (String (digit (n mod 10)) EmptyString).

Definition fresh_state : AppState :=
  mkAppState None None false (mkStorage NoItem true) Search.initial.

End App.

(** ** What a search answers, told from the catalog alone *)

Module SearchSpec.

Definition record_matches (q : string) (t : Track) : bool :=
  includes (toLowerCase (t_title t)) q
  || includes (toLowerCase (t_artist t)) q
  || includes (toLowerCase (default EmptyString (t_album t))) q.

Definition record_score (q : string) (t : Track) : Z :=
  (title_points q (toLowerCase (t_title t))
   + artist_points q (toLowerCase (t_artist t))
   + album_points q (toLowerCase (default EmptyString (t_album t))))%Z.

Definition album_record_matches (q : string) (a : Album) : bool :=
  includes (toLowerCase (a_title a)) q || includes (toLowerCase (a_artist a)) q.

Definition album_record_score (q : string) (a : Album) : Z :=
  (title_points q (toLowerCase (a_title a))
   + artist_points q (toLowerCase (a_artist a)))%Z.

(** The matching records, best score first, equal scores in catalog order,
    cut at the limit. *)
Definition expected_tracks (q : string) (limit : Z) (catalog : Catalog) : list Track :=
  slice 0 limit
        (sort (descending_by (record_score q))
              (List.filter (record_matches q) (items (cat_tracks catalog)))).

Definition expected_albums (q : string) (limit : Z) (catalog : Catalog) : list Album :=
  slice 0 limit
        (sort (descending_by (album_record_score q))
              (List.filter (album_record_matches q) (items (cat_albums catalog)))).

(** The artist names of the catalog, tracks first, each once. *)
Definition artist_names (catalog : Catalog) : list string :=
  first_encounters (map t_artist (items (cat_tracks catalog))
                    ++ map a_artist (items (cat_albums catalog))).

Definition expected_artists (q : string) (catalog : Catalog) : list string :=
  slice 0 10 (List.filter (fun artist => includes (toLowerCase artist) q)
                          (artist_names catalog)).

End SearchSpec.

(** ** Reading marked text back *)

Module HighlightSpec.

Import Highlight.

(** The characters of a string. *)
Definition chars (s : string) : list ascii := list_ascii_of_string s.

(** [s] has no [<]. *)
Definition no_lt (s : string) : bool :=
  forallb (fun c => negb (Ascii.eqb c "<")) (chars s).

(** The text a browser shows for marked text: the markers are taken out
    ([skip] counts the characters of a marker still to pass). *)
Fixpoint unmark_from (skip : nat) (s : string) : string :=
  match s with
  | EmptyString => EmptyString
  | String c s' =>
      match skip with
      | S k => unmark_from k s'
      | O =>
          if startsWith s "<mark>" then unmark_from 5 s'
          else if startsWith s "</mark>" then unmark_from 6 s'
          else String c (unmark_from 0 s')
      end
  end.

Definition unmark (s : string) : string := unmark_from 0 s.


End HighlightSpec.

(** ** Counting requests and callbacks *)

Module DebounceSpec.

Import Debounce.

(** A call followed by a pause at least as long as its delay. *)
Definition spaced (c : Task * Z) : Prop := (delay_of (fst c) <= snd c)%Z.

(** The callbacks run when every call of [cs] gets its turn, each search
    done on the state the one before left. *)
Fixpoint executed (cs : list (Task * Z)) (st : State) : list Call :=
  match cs with
  | [] => []
  | c :: cs' =>
      let t := fst c in
      let r := search (task_query t) (task_options t) st in
      mkCall (task_callback t) (fst r) (task_query t) :: executed cs' (snd r)
  end.

(** The tasks requested by a sequence of events. *)
Fixpoint requests (evs : list Event) : list Task :=
  match evs with
  | [] => []
  | EvSearch t :: evs' => t :: requests evs'
  | _ :: evs' => requests evs'
  end.

(** The call is one [t] asks for. *)
Definition answers (t : Task) (c : Call) : Prop :=
  call_callback c = task_callback t /\ call_query c = task_query t.

(** Executed callbacks and pending timers, against the requests [ts] made. *)
Definition accounted (ts : list Task) (w : World) : Prop :=
  (length (calls w) + size (timers w) <= length ts)%nat
  /\ Forall (fun c => exists t, t ∈ ts /\ answers t c) (calls w)
  /\ (forall h tm, timers w !! h = Some tm -> task tm ∈ ts).

End DebounceSpec.

(** ** Page helpers of the application module ([js/app.js]) *)

Module Pages.

Import App.

(** [tracks]: null or undefined ([None]), or the array.  The records of
    the search module give every track a whole duration; here the field is
    read through [duration], undefined for a record that has none, so that
    such records, and durations that are not whole, can be spoken of. *)
Definition calculateTotalDuration (duration : Track -> JsValue)
    (tracks : option (list Track)) : string :=
  match tracks with
  | None | Some [] => "0 min"
  | Some tracks =>
      let total :=
        foldl (fun sum t =>
                 number_add sum (if falsy (duration t) then Fin 0
                                 else to_number (duration t)))
              (Fin 0) tracks in
      let mins := Math_floor (div total 60) in
      if integer_lt mins 60 then toString mins +:+ " min"
      else
        let hours := Math_floor (div (of_integer mins) 60) in
        let remainMins := integer_rem mins 60 in
        toString hours +:+ " hr " +:+ toString remainMins +:+ " min"
  end.

(** *** Home page lists

    The render functions put cards into a container; what is modelled is
    the records whose cards are put there, in their order ([None]: the
    function returns without rendering).  [container]: the element exists.
    [tracks], [albums]: the value of [catalog?.tracks], [catalog?.albums],
    undefined ([None]) or the array.  The fields [featured], [trending] and
    [year], which the records of the search module do not carry, are read
    through the functions of these names. *)

Definition renderFeaturedTracks (featured : Track -> bool)
    (container : bool) (tracks : option (list Track)) (limit : option Z)
    : option (list Track) :=
  let limit := default 8%Z limit in
  if negb container then None
  else
    match tracks with
    | None => None
    | Some tracks =>
        let featured := slice 0 limit (List.filter featured tracks) in
        Some (if (0 <? length featured)%nat then featured else slice 0 limit tracks)
    end.

Definition renderTrendingTracks (trending : Track -> bool)
    (container : bool) (tracks : option (list Track)) (limit : option Z)
    : option (list Track) :=
  let limit := default 10%Z limit in
  if negb container then None
  else
    match tracks with
    | None => None
    | Some tracks =>
        let trending := slice 0 limit (List.filter trending tracks) in
        Some (if (0 <? length trending)%nat then trending else slice 0 limit tracks)
    end.

Definition renderLatestAlbums (year : Album -> option Z)
    (container : bool) (albums : option (list Album)) (limit : option Z)
    : option (list Album) :=
  let limit := default 4%Z limit in
  if negb container then None
  else
    match albums with
    | None => None
    | Some albums =>
        Some (slice 0 limit
                (sort (fun a b => (or_default (year b) 0 - or_default (year a) 0)%Z)
                      albums))
    end.

(** *** Discover page: sorting and paging of the tracks *)

Definition tracksPerPage : Z := 20.

(** [localeCompare]: the comparison of the platform, which depends on the
    locale. *)
Definition getSortedTracks (localeCompare : string -> string -> Z)
    (currentSort : string) (tracks : list Track) : list Track :=
  if String.eqb currentSort "oldest" then rev tracks
  else if String.eqb currentSort "az" then
    sort (fun a b => localeCompare (t_title a) (t_title b)) tracks
  else if String.eqb currentSort "za" then
    sort (fun a b => localeCompare (t_title b) (t_title a)) tracks
  else if String.eqb currentSort "artist" then
    sort (fun a b => localeCompare (t_artist a) (t_artist b)) tracks
  else tracks.

(** The variables of [initDiscoverPage]. *)
Record Discover := mkDiscover {
  currentSort : string;
  tracksPage : Z
}.

Definition discover_start : Discover := mkDiscover "newest" 1.

(** The cards of [renderAllContent] and [renderTracksOnly]. *)
Definition rendered_tracks (localeCompare : string -> string -> Z)
    (d : Discover) (tracks : list Track) : list Track :=
  slice 0 (tracksPage d * tracksPerPage)
        (getSortedTracks localeCompare (currentSort d) tracks).

(** The "load more" button is hidden ([display: none]). *)
Definition load_more_hidden (localeCompare : string -> string -> Z)
    (d : Discover) (tracks : list Track) : bool :=
  (Z.of_nat (length (getSortedTracks localeCompare (currentSort d) tracks))
   <=? tracksPage d * tracksPerPage)%Z.

(** A click on "load more", a change of the sort order, a change of tab. *)
Definition load_more (d : Discover) : Discover :=
  mkDiscover (currentSort d) (tracksPage d + 1).

Definition sort_change (value : string) (d : Discover) : Discover :=
  mkDiscover value 1.

Definition tab_change (d : Discover) : Discover :=
  mkDiscover (currentSort d) 1.

(** *** Specification vocabulary *)

(** [shown] is the first [limit] flagged tracks when there is a flagged
    track, the first [limit] tracks when there is none. *)
Definition flagged_else_first (flag : Track -> bool) (limit : Z)
    (tracks shown : list Track) : Prop :=
  (Z.of_nat (length shown) <= limit)%Z
  /\ shown `sublist_of` tracks
  /\ (existsb flag tracks = true ->
      shown = take (Z.to_nat limit) (List.filter flag tracks)
      /\ Forall (fun t => flag t = true) shown)
  /\ (existsb flag tracks = false -> shown = take (Z.to_nat limit) tracks)
  /\ (tracks <> [] -> shown <> []).

(** [year || 0] *)
Definition year_or_0 (year : Album -> option Z) (a : Album) : Z := or_default (year a) 0.

(** A duration that is missing ([None]) or a whole number of seconds. *)
Definition whole (seconds : option Z) : JsValue :=
  match seconds with
  | None => Undefined
  | Some s => Number (Fin (inject_Z s))
  end.

(** The seconds of a list of tracks, added up; a missing duration adds
    nothing. *)
Definition total_seconds (seconds : Track -> option Z) (tracks : list Track) : Z :=
  foldr (fun t sum => (default 0%Z (seconds t) + sum)%Z) 0%Z tracks.

End Pages.

(** ** The router ([js/router.js]) *)

Module Router.

(** *** URLSearchParams: a list of name-value pairs *)

Definition Params := list (string * string).

(** [get]: the value of the first pair of that name, or null. *)
Definition get (name : string) (ps : Params) : option string :=
  snd <$> List.find (fun p => String.eqb (fst p) name) ps.

(** [delete]: every pair of that name goes. *)
Definition delete (name : string) (ps : Params) : Params :=
  List.filter (fun p => negb (String.eqb (fst p) name)) ps.

(** [set]: the first pair of that name takes the value and the others go;
    without such a pair, one is appended. *)
Fixpoint set (name value : string) (ps : Params) : Params :=
  match ps with
  | [] => [(name, value)]
  | p :: ps' =>
      if String.eqb (fst p) name then (name, value) :: delete name ps'
      else p :: set name value ps'
  end.

(** *** The location

    A URL is kept in parts; names and values are the decoded ones, the
    text of the URL is not modelled. *)
Record Location := mkLocation {
  pathname : string;
  search : Params;
  hash : string
}.

Definition with_search (url : Location) (ps : Params) : Location :=
  mkLocation (pathname url) ps (hash url).

Definition getParams (location : Location) : Params := search location.

Definition getParam (key : string) (location : Location) : option string :=
  get key (getParams location).

(** [params]: the entries of the object, values null or undefined ([None])
    or strings. *)
Definition buildUrl (base : Location) (params : list (string * option string))
    : Location :=
  foldl (fun url entry =>
           match snd entry with
           | Some value => with_search url (set (fst entry) value (search url))
           | None => url
           end)
        base params.

Definition updateParams (params : list (string * option string))
    (location : Location) : Location :=
  foldl (fun url entry =>
           match snd entry with
           | None => with_search url (delete (fst entry) (search url))
           | Some value =>
               if negb (truthy value)
               then with_search url (delete (fst entry) (search url))
               else with_search url (set (fst entry) value (search url))
           end)
        location params.

(** [s.split(sep)] for a separator of one character: the pieces, at least
    one. *)
Fixpoint split (sep : ascii) (s : string) : list string :=
  match s with
  | EmptyString => [EmptyString]
  | String c s' =>
      if Ascii.eqb c sep then EmptyString :: split sep s'
      else
        match split sep s' with
        | piece :: pieces => String c piece :: pieces
        | [] => [String c EmptyString]
        end
  end.

(** [s.replace(pattern, replacement)] for a pattern that is a string: the
    first occurrence is replaced. *)
Fixpoint replace_string (pattern replacement s : string) : string :=
  if startsWith s pattern
  then replacement +:+ Highlight.string_drop (String.length pattern) s
  else
    match s with
    | EmptyString => EmptyString
    | String c s' => String c (replace_string pattern replacement s')
    end.

Definition getCurrentPage (location : Location) : string :=
  let path := pathname location in
  let page :=
    match last (split "/" path) with
    | Some piece => if truthy piece then piece else "index.html"
    | None => "index.html"
    end in
  replace_string ".html" EmptyString page.

(** *** Specification vocabulary *)

(** The pairs of that name. *)
Definition occurrences (name : string) (ps : Params) : nat :=
  length (List.filter (fun p => String.eqb (fst p) name) ps).

(** What an entry of [updateParams] asks for. *)
Definition wanted (value : option string) : option string :=
  match value with
  | Some v => if truthy v then Some v else None
  | None => None
  end.

(** One entry of the object, as [updateParams] takes it. *)
Definition update_entry (url : Location) (entry : string * option string) : Location :=
  match snd entry with
  | None => with_search url (delete (fst entry) (search url))
  | Some value =>
      if negb (truthy value)
      then with_search url (delete (fst entry) (search url))
      else with_search url (set (fst entry) value (search url))
  end.

(** One entry of the object, as [buildUrl] takes it. *)
Definition build_entry (url : Location) (entry : string * option string) : Location :=
  match snd entry with
  | Some value => with_search url (set (fst entry) value (search url))
  | None => url
  end.

(** The character occurs in the string. *)
Fixpoint has_char (c : ascii) (s : string) : bool :=
  match s with
  | EmptyString => false
  | String a s' => Ascii.eqb a c || has_char c s'
  end.

End Router.

(** ** The search box of the header ([initGlobalSearch],
    [renderSearchDropdown] of [js/app.js])

    The page has the input and the dropdown.  The markup of the dropdown is
    kept as what it lists. *)

Module GlobalSearch.

Import Debounce.

Inductive View :=
| NoResultsFor (query : string)
| ItemsFor (tracks : list Track) (albums : list Album) (query : string).

Record Dropdown := mkDropdown {
  active : bool;                 (* the class [active] *)
  innerHTML : option View        (* [None]: the empty text *)
}.

Definition renderSearchDropdown (results : Results) (query : string)
    (container : Dropdown) : Dropdown :=
  let hasResults := (0 <? length (res_tracks results))%nat
                    || (0 <? length (res_albums results))%nat in
  if negb hasResults then mkDropdown true (Some (NoResultsFor query))
  else mkDropdown true
         (Some (ItemsFor (slice 0 5 (res_tracks results))
                         (slice 0 3 (res_albums results)) query)).

Record Page := mkPage {
  world : World;                 (* the search module and the event loop *)
  value : string;                (* the text of the input *)
  dropdown : Dropdown
}.

(** The callback the input handler hands to [debouncedSearch]:
    [(results, q) => renderSearchDropdown(results, q, dropdown)]. *)
Definition render : Callback := 0%nat.

Definition dropdown_options : Options := mkOptions (Some 8%Z) None.

(** The handler of the input event, the text of the input being [text]. *)
Definition on_input (text : string) (p : Page) : Page :=
  let query := trim text in
  if (String.length query <? 2)%nat
  then mkPage (world p) text (mkDropdown false None)
  else mkPage (debouncedSearch query render dropdown_options (world p)) text (dropdown p).

(** A callback the event loop has run acts on the dropdown. *)
Definition deliver (d : Dropdown) (c : Call) : Dropdown :=
  if Nat.eqb (call_callback c) render
  then renderSearchDropdown (call_results c) (call_query c) d
  else d.

(** [dt] milliseconds pass: the callbacks run in that time act in turn. *)
Definition pass (dt : Z) (p : Page) : Page :=
  let w := wait dt (world p) in
  mkPage w (value p)
         (foldl deliver (dropdown p) (drop (length (calls (world p))) (calls w))).

(** The user types: each text is followed by a pause. *)
Definition typing (cs : list (string * Z)) (p : Page) : Page :=
  foldl (fun p c => pass (snd c) (on_input (fst c) p)) p cs.

(** *** Specification vocabulary *)

(** A text that is searched for, followed by a pause shorter than the
    delay. *)
Definition keystroke (c : string * Z) : Prop :=
  (2 <= String.length (trim (fst c)))%nat /\ (0 <= snd c < DEBOUNCE_DELAY)%Z.

End GlobalSearch.

Import Search.

(** * Verification *)

(** ** Strings *)

Section StringFacts.

Lemma startsWith_nil s : startsWith s EmptyString = true.
Proof. destruct s; reflexivity. Qed.

Lemma includes_unfold s q :
  includes s q =
  startsWith s q || match s with EmptyString => false | String _ s' => includes s' q end.
Proof. destruct s; reflexivity. Qed.

Lemma startsWith_includes s q : startsWith s q = true -> includes s q = true.
Proof. intros H. rewrite includes_unfold, H. reflexivity. Qed.

Lemma includes_nil s : includes s EmptyString = true.
Proof. apply startsWith_includes, startsWith_nil. Qed.

Lemma truthy_true s : truthy s = true <-> s <> EmptyString.
Proof. destruct s; simpl; split; congruence. Qed.

Lemma is_space_lower_char c : is_space (lower_char c) = is_space c.
Proof. destruct c as [[] [] [] [] [] [] [] []]; reflexivity. Qed.

Lemma toLowerCase_trimStart s : toLowerCase (trimStart s) = trimStart (toLowerCase s).
Proof.
  induction s as [|c s IH]; simpl; [reflexivity|].
  rewrite is_space_lower_char. destruct (is_space c); [exact IH | reflexivity].
Qed.

Lemma toLowerCase_trimEnd s : toLowerCase (trimEnd s) = trimEnd (toLowerCase s).
Proof.
  induction s as [|c s IH]; simpl; [reflexivity|].
  rewrite <- IH, is_space_lower_char.
  destruct (trimEnd s); simpl; [destruct (is_space c)|]; reflexivity.
Qed.

(** Trimming and lower-casing commute: white space has no case. *)
Lemma toLowerCase_trim s : toLowerCase (trim s) = trim (toLowerCase s).
Proof. unfold trim. rewrite toLowerCase_trimEnd, toLowerCase_trimStart. reflexivity. Qed.

Lemma toLowerCase_idem s : toLowerCase (toLowerCase s) = toLowerCase s.
Proof.
  induction s as [|c s IH]; simpl; [reflexivity|]. rewrite IH. f_equal.
  destruct c as [[] [] [] [] [] [] [] []]; reflexivity.
Qed.

End StringFacts.

(** ** Arrays: [slice] and [sort] *)

Section ArrayFacts.
Context {A : Type}.
Implicit Types l : list A.

Lemma slice_0_nonneg (n : Z) l : (0 <= n)%Z -> slice 0 n l = take (Z.to_nat n) l.
Proof.
  intros Hn. unfold slice, relative. cbv zeta.
  change (0 <? 0)%Z with false. cbv iota.
  destruct (n <? 0)%Z eqn:E; [apply Z.ltb_lt in E; lia|].
  replace (Z.to_nat (Z.min 0 (Z.of_nat (length l)))) with 0%nat by lia.
  rewrite drop_0.
  destruct (Z.le_gt_cases n (Z.of_nat (length l))) as [Hle | Hgt].
  - f_equal. lia.
  - rewrite !take_ge by lia. reflexivity.
Qed.

Lemma slice_0_neg (n : Z) l :
  (n < 0)%Z -> slice 0 n l = take (length l - Z.to_nat (- n)) l.
Proof.
  intros Hn. unfold slice, relative. cbv zeta.
  change (0 <? 0)%Z with false. cbv iota.
  destruct (n <? 0)%Z eqn:E; [|apply Z.ltb_ge in E; lia].
  replace (Z.to_nat (Z.min 0 (Z.of_nat (length l)))) with 0%nat by lia.
  rewrite drop_0. f_equal. lia.
Qed.

Lemma length_slice_0 (n : Z) l :
  (0 <= n)%Z -> (Z.of_nat (length (slice 0 n l)) <= n)%Z.
Proof. intros Hn. rewrite slice_0_nonneg, length_take by done. lia. Qed.

Lemma slice_0_all (n : Z) l :
  (Z.of_nat (length l) <= n)%Z -> slice 0 n l = l.
Proof. intros Hn. rewrite slice_0_nonneg by lia. apply take_ge. lia. Qed.

Lemma slice_0_lookup (n : Z) l (i : nat) :
  (Z.of_nat i < n)%Z -> slice 0 n l !! i = l !! i.
Proof. intros Hn. rewrite slice_0_nonneg by lia. apply lookup_take_lt. lia. Qed.

Lemma slice_sublist (start end_ : Z) l : slice start end_ l `sublist_of` l.
Proof.
  unfold slice. etransitivity; [apply sublist_take | apply sublist_drop].
Qed.

Lemma insert_sorted_perm cmp x l : insert_sorted cmp x l ≡ₚ x :: l.
Proof.
  induction l as [|y l IH]; simpl; [done|].
  destruct (cmp x y <=? 0)%Z; [done|]. rewrite IH. apply Permutation_swap.
Qed.

Lemma sort_cons cmp x l : sort cmp (x :: l) = insert_sorted cmp x (sort cmp l).
Proof. reflexivity. Qed.

Lemma sort_perm cmp l : sort cmp l ≡ₚ l.
Proof.
  induction l as [|x l IH]; [done|].
  rewrite sort_cons, insert_sorted_perm, IH. done.
Qed.

Lemma length_sort cmp l : length (sort cmp l) = length l.
Proof. apply Permutation_length, sort_perm. Qed.

Lemma elem_of_sort cmp l x : x ∈ sort cmp l <-> x ∈ l.
Proof. rewrite (sort_perm cmp l). done. Qed.

(** The comparator is only ever applied to elements of the array. *)
Lemma insert_sorted_ext cmp cmp' x l :
  (forall y, y ∈ l -> cmp x y = cmp' x y) ->
  insert_sorted cmp x l = insert_sorted cmp' x l.
Proof.
  induction l as [|y l IH]; intros H; simpl; [done|].
  rewrite (H y) by left. rewrite IH; [done|]. intros z Hz. apply H. by right.
Qed.

Lemma sort_ext cmp cmp' l :
  (forall x y, x ∈ l -> y ∈ l -> cmp x y = cmp' x y) ->
  sort cmp l = sort cmp' l.
Proof.
  induction l as [|x l IH]; intros H; [done|].
  rewrite !sort_cons, IH by (intros; apply H; by right).
  apply insert_sorted_ext. intros y Hy. apply H; [left|].
  right. by apply (elem_of_sort cmp' l y).
Qed.

(** Sorting by a numeric key, highest first. *)
Section ByKey.
Variable key : A -> Z.

Lemma insert_sorted_descending x l :
  descending key l -> descending key (insert_sorted (descending_by key) x l).
Proof.
  unfold descending. induction 1 as [|y l Hl IH Hy]; simpl.
  - repeat constructor.
  - destruct (descending_by key x y <=? 0)%Z eqn:E; unfold descending_by in E.
    + apply Z.leb_le in E. constructor; [by constructor|].
      constructor; [lia|]. eapply Forall_impl; [exact Hy|]. simpl. intros. lia.
    + apply Z.leb_gt in E. constructor; [exact IH|].
      rewrite (insert_sorted_perm (descending_by key) x l). constructor; [lia | exact Hy].
Qed.

Lemma sort_descending l : descending key (sort (descending_by key) l).
Proof.
  induction l as [|x l IH]; [constructor|].
  rewrite sort_cons. by apply insert_sorted_descending.
Qed.

(** In a descending array a strictly larger key comes strictly first. *)
Lemma descending_lookup l (i j : nat) x y :
  descending key l -> l !! i = Some x -> l !! j = Some y ->
  (key y < key x)%Z -> (i < j)%nat.
Proof.
  intros Hl Hi Hj Hlt. destruct (decide (i < j)%nat) as [|Hge]; [done|].
  exfalso. assert (j = i \/ j < i)%nat as [->|Hji] by lia.
  - rewrite Hi in Hj. injection Hj as ->. lia.
  - clear Hge. revert i j Hi Hj Hji. induction Hl as [|z l Hl IH Hz]; intros i j Hi Hj Hji.
    + by rewrite lookup_nil in Hi.
    + destruct i as [|i]; [lia|]. destruct j as [|j]; simpl in *.
      * injection Hj as ->. rewrite Forall_forall in Hz.
        specialize (Hz x). apply list_elem_of_lookup_2 in Hi.
        specialize (Hz Hi). lia.
      * eapply IH; eauto. lia.
Qed.

(** Stability: equal keys keep the order they had. *)
Lemma insert_sorted_filter (P : A -> bool) x l :
  descending key l ->
  (forall y, y ∈ l -> P x = true -> P y = true -> (key y <= key x)%Z) ->
  List.filter P (insert_sorted (descending_by key) x l) = List.filter P (x :: l).
Proof.
  induction 1 as [|y l Hl IH Hy]; intros HP; [done|]. simpl.
  destruct (descending_by key x y <=? 0)%Z eqn:E; [done|].
  unfold descending_by in E. apply Z.leb_gt in E.
  simpl. rewrite IH by (intros; apply HP; [by right|done..]). simpl.
  destruct (P x) eqn:Px, (P y) eqn:Py; try done.
  specialize (HP y ltac:(left) eq_refl Py). lia.
Qed.

Lemma sort_stable (k : Z) l :
  List.filter (fun x => (key x =? k)%Z) (sort (descending_by key) l)
  = List.filter (fun x => (key x =? k)%Z) l.
Proof.
  induction l as [|x l IH]; [done|].
  rewrite sort_cons, insert_sorted_filter.
  - simpl. by rewrite IH.
  - apply sort_descending.
  - intros y _ Hx Hy. apply Z.eqb_eq in Hx, Hy. lia.
Qed.

End ByKey.
End ArrayFacts.

(** ** The index builder *)

Section BuildIndex.

Lemma foldl_push_track index n ts :
  foldl push_track (index, n) ts =
  (mkIndex (idx_tracks index ++ entries_from index_track n ts)
           (idx_albums index)
           (foldl (fun s x => set_add x s) (idx_artists index) (map t_artist ts)),
   n + length ts).
Proof.
  revert index n. induction ts as [|t ts IH]; intros [tr al ar] n; simpl.
  - rewrite app_nil_r. f_equal. lia.
  - rewrite IH. simpl. rewrite <- app_assoc. simpl. f_equal. lia.
Qed.

Lemma foldl_push_album index n als :
  foldl push_album (index, n) als =
  (mkIndex (idx_tracks index)
           (idx_albums index ++ entries_from index_album n als)
           (foldl (fun s x => set_add x s) (idx_artists index) (map a_artist als)),
   n + length als).
Proof.
  revert index n. induction als as [|a als IH]; intros [tr al ar] n; simpl.
  - rewrite app_nil_r. f_equal. lia.
  - rewrite IH. simpl. rewrite <- app_assoc. simpl. f_equal. lia.
Qed.

(** [buildIndex] in closed form. *)
Lemma buildIndex_eq catalog st :
  let ts := items (cat_tracks catalog) in
  let als := items (cat_albums catalog) in
  buildIndex catalog st =
  mkState
    (Some (mkIndex
             (entries_from index_track (next_ref st) ts)
             (entries_from index_album (next_ref st + length ts) als)
             (foldl (fun s x => set_add x s) [] (map t_artist ts ++ map a_artist als))))
    (score_of st)
    (next_ref st + length ts + length als).
Proof.
  intros ts als. unfold buildIndex. fold ts als.
  rewrite foldl_push_track. cbn [idx_tracks idx_albums idx_artists app].
  rewrite foldl_push_album. cbn [fst snd idx_tracks idx_albums idx_artists app].
  rewrite foldl_app. reflexivity.
Qed.

Lemma length_entries_from {R E} (mk : R -> loc -> E) n l :
  length (entries_from mk n l) = length l.
Proof. revert n. induction l; intros; simpl; [done | by rewrite IHl]. Qed.

Lemma track_entries_refs n ts :
  map te_ref (entries_from index_track n ts) = seq n (length ts).
Proof. revert n. induction ts; intros; simpl; [done | by rewrite IHts]. Qed.

Lemma album_entries_refs n als :
  map ae_ref (entries_from index_album n als) = seq n (length als).
Proof. revert n. induction als; intros; simpl; [done | by rewrite IHals]. Qed.

Lemma track_entries_originals n ts :
  map te_original (entries_from index_track n ts) = ts.
Proof. revert n. induction ts; intros; simpl; [done | by rewrite IHts]. Qed.

Lemma album_entries_originals n als :
  map ae_original (entries_from index_album n als) = als.
Proof. revert n. induction als; intros; simpl; [done | by rewrite IHals]. Qed.

Lemma track_entries_ok n ts :
  Forall (fun e => e = index_track (te_original e) (te_ref e))
         (entries_from index_track n ts).
Proof. revert n. induction ts; intros; simpl; constructor; auto. Qed.

Lemma album_entries_ok n als :
  Forall (fun e => e = index_album (ae_original e) (ae_ref e))
         (entries_from index_album n als).
Proof. revert n. induction als; intros; simpl; constructor; auto. Qed.

(** The artist set, against the list of first encounters. *)
Lemma filter_filter {A} (P Q : A -> bool) (l : list A) :
  List.filter P (List.filter Q l) = List.filter (fun x => Q x && P x) l.
Proof.
  induction l as [|x l IH]; simpl; [done|].
  destruct (Q x); simpl; [destruct (P x)|]; by rewrite IH.
Qed.

Lemma set_add_first_encounters s names :
  foldl (fun s x => set_add x s) s names =
  s ++ List.filter (fun y => negb (bool_decide (y ∈ s))) (first_encounters names).
Proof.
  revert s. induction names as [|x names IH]; intros s; simpl.
  - by rewrite app_nil_r.
  - rewrite IH. unfold set_add. rewrite filter_filter.
    destruct (bool_decide_reflect (x ∈ s)) as [Hin | Hout]; simpl.
    + f_equal. apply List.filter_ext. intros y.
      destruct (String.eqb_spec y x) as [->|]; simpl; [|done].
      by rewrite bool_decide_eq_true_2.
    + rewrite <- app_assoc. simpl. do 2 f_equal. apply List.filter_ext. intros y.
      destruct (String.eqb_spec y x) as [->|Hne]; simpl.
      * rewrite bool_decide_eq_true_2; [done|]. rewrite elem_of_app, list_elem_of_singleton. auto.
      * destruct (bool_decide_reflect (y ∈ s)) as [H1|H1].
        -- rewrite bool_decide_eq_true_2; [done|]. rewrite elem_of_app. auto.
        -- rewrite bool_decide_eq_false_2; [done|].
           rewrite elem_of_app, list_elem_of_singleton. tauto.
Qed.

Lemma elem_of_List_filter {A} (f : A -> bool) (l : list A) x :
  x ∈ List.filter f l <-> x ∈ l /\ f x = true.
Proof. rewrite !list_elem_of_In. apply List.filter_In. Qed.

Lemma elem_of_first_encounters x names : x ∈ first_encounters names <-> x ∈ names.
Proof.
  induction names as [|y names IH]; simpl; [done|].
  rewrite !elem_of_cons, elem_of_List_filter, IH.
  destruct (String.eqb_spec x y); simpl; split; intros; intuition congruence.
Qed.

Lemma NoDup_first_encounters names : NoDup (first_encounters names).
Proof.
  induction names as [|y names IH]; simpl; constructor.
  - rewrite elem_of_List_filter, String.eqb_refl. simpl. intros [_ ?]; done.
  - apply NoDup_ListNoDup, List.NoDup_filter, NoDup_ListNoDup, IH.
Qed.

Lemma buildIndex_ok catalog st :
  exists index, searchIndex (buildIndex catalog st) = Some index
                /\ index_ok (buildIndex catalog st) index.
Proof.
  rewrite buildIndex_eq. eexists; split; [reflexivity|].
  set (ts := items (cat_tracks catalog)). set (als := items (cat_albums catalog)).
  split; cbn [idx_tracks idx_albums entry_refs].
  - apply track_entries_ok.
  - apply album_entries_ok.
  - unfold entry_refs; cbn [idx_tracks idx_albums].
    rewrite track_entries_refs, album_entries_refs, <- seq_app. apply NoDup_seq.
  - unfold entry_refs; cbn [idx_tracks idx_albums].
    rewrite track_entries_refs, album_entries_refs, <- seq_app.
    apply Forall_forall. intros l Hl. apply elem_of_seq in Hl.
    unfold allocated. simpl. lia.
Qed.

End BuildIndex.

(** ** The query evaluator *)

Section SearchFacts.

Lemma assign_scores_cons {E} (ref : E -> loc) score m ms h :
  assign_scores ref score (m :: ms) h
  = assign_scores ref score ms (<[ref m := score m]> h).
Proof. reflexivity. Qed.

(** Scores are written on the matches and nowhere else. *)
Lemma assign_scores_other {E} (ref : E -> loc) score ms (h : gmap loc Z) l :
  l ∉ map ref ms -> assign_scores ref score ms h !! l = h !! l.
Proof.
  revert h. induction ms as [|m ms IH]; intros h Hl; [done|].
  rewrite assign_scores_cons, IH.
  - apply lookup_insert_ne. intros Heq. apply Hl. rewrite <- Heq. simpl. left.
  - intros ?. apply Hl. simpl. by right.
Qed.

Lemma assign_scores_lookup {E} (ref : E -> loc) score ms (h : gmap loc Z) m :
  NoDup (map ref ms) -> m ∈ ms ->
  assign_scores ref score ms h !! ref m = Some (score m).
Proof.
  revert h. induction ms as [|x ms IH]; intros h Hnd Hm; [by apply elem_of_nil in Hm|].
  simpl in Hnd. apply NoDup_cons in Hnd as [Hx Hnd].
  rewrite assign_scores_cons. apply elem_of_cons in Hm as [->|Hm].
  - rewrite assign_scores_other by done. apply lookup_insert_eq.
  - by apply IH.
Qed.

Lemma NoDup_map_filter {E} (ref : E -> loc) (P : E -> bool) l :
  NoDup (map ref l) -> NoDup (map ref (List.filter P l)).
Proof.
  induction l as [|x l IH]; simpl; [done|]. intros [Hx Hnd]%NoDup_cons.
  destruct (P x); simpl; [|by apply IH]. apply NoDup_cons. split; [|by apply IH].
  intros Hin. apply Hx. apply list_elem_of_fmap in Hin as (y & -> & Hy).
  apply elem_of_List_filter in Hy as [Hy _]. apply list_elem_of_fmap. eauto.
Qed.

(** Once the scores are written the comparator is the score difference. *)
Lemma sort_by_score {E} (ref : E -> loc) (score : E -> Z) ms (h : gmap loc Z) :
  NoDup (map ref ms) ->
  sort (by_score ref (assign_scores ref score ms h)) ms
  = sort (descending_by score) ms.
Proof.
  intros Hnd. apply sort_ext. intros a b Ha Hb. unfold by_score, descending_by.
  by rewrite !assign_scores_lookup.
Qed.

Lemma search_unfold st index query options :
  searchIndex st = Some index ->
  trim (toLowerCase query) <> EmptyString ->
  let q := trim (toLowerCase query) in
  let limit := or_default (opt_limit options) 50 in
  search query options st =
  (mkResults
     (map te_original (slice 0 limit (fst (rank_tracks q index (score_of st)))))
     (map ae_original
          (slice 0 limit
                 (fst (rank_albums q index (snd (rank_tracks q index (score_of st)))))))
     (match_artists q index),
   mkState (Some index)
           (snd (rank_albums q index (snd (rank_tracks q index (score_of st)))))
           (next_ref st)).
Proof.
  intros Hidx Hq q limit. unfold search. rewrite Hidx. fold q.
  apply truthy_true in Hq. fold q in Hq. rewrite Hq. simpl negb. cbv iota.
  destruct (rank_tracks q index (score_of st)) as [tm s1]. cbn [fst snd].
  destruct (rank_albums q index s1) as [am s2]. reflexivity.
Qed.

Lemma search_index query options st :
  searchIndex (snd (search query options st)) = searchIndex st.
Proof.
  unfold search. destruct (searchIndex st) as [index|] eqn:E; [|done].
  destruct (negb _); [done|].
  destruct (rank_tracks _ _ _), (rank_albums _ _ _). reflexivity.
Qed.

Lemma search_next_ref query options st :
  next_ref (snd (search query options st)) = next_ref st.
Proof.
  unfold search. destruct (searchIndex st) as [index|] eqn:E; [|done].
  destruct (negb _); [done|].
  destruct (rank_tracks _ _ _), (rank_albums _ _ _). reflexivity.
Qed.

Lemma index_ok_next st st' index :
  next_ref st' = next_ref st -> index_ok st index -> index_ok st' index.
Proof.
  intros Hn [H1 H2 H3 H4]. split; try done.
  unfold allocated in *. by rewrite Hn.
Qed.

Lemma built_index_ok st :
  built st -> exists index, searchIndex st = Some index /\ index_ok st index.
Proof.
  induction 1 as [catalog st | query options st _ (index & Hidx & Hok)].
  - apply buildIndex_ok.
  - exists index. rewrite search_index. split; [done|].
    eapply index_ok_next; [apply search_next_ref | done].
Qed.

Lemma built_searches history st : built st -> built (searches history st).
Proof.
  revert st. induction history as [|[q o] history IH]; intros st Hst; simpl; [done|].
  apply IH. by constructor.
Qed.

(** Writes stay inside the index. *)
Lemma search_keeps_other_scores query options st index l :
  searchIndex st = Some index ->
  l ∉ entry_refs index ->
  score_of (snd (search query options st)) !! l = score_of st !! l.
Proof.
  intros Hidx Hl. unfold search. rewrite Hidx.
  destruct (negb _); [done|]. unfold rank_tracks, rank_albums. cbn [snd score_of].
  unfold entry_refs in Hl. rewrite elem_of_app in Hl.
  rewrite !assign_scores_other; [done| |].
  - intros Hin. apply Hl. left. apply list_elem_of_fmap in Hin as (y & -> & Hy).
    apply elem_of_List_filter in Hy as [Hy _]. apply list_elem_of_fmap. eauto.
  - intros Hin. apply Hl. right. apply list_elem_of_fmap in Hin as (y & -> & Hy).
    apply elem_of_List_filter in Hy as [Hy _]. apply list_elem_of_fmap. eauto.
Qed.

Lemma index_ok_tracks_nodup st index : index_ok st index -> NoDup (map te_ref (idx_tracks index)).
Proof. intros [_ _ H _]. by apply NoDup_app in H as (? & _ & _). Qed.

Lemma index_ok_albums_nodup st index : index_ok st index -> NoDup (map ae_ref (idx_albums index)).
Proof. intros [_ _ H _]. by apply NoDup_app in H as (_ & _ & ?). Qed.

(** The rank order of the tracks does not depend on the scores left by
    earlier searches. *)
Lemma rank_tracks_sorted st index q h :
  index_ok st index ->
  fst (rank_tracks q index h)
  = sort (descending_by (track_score q))
         (List.filter (track_matches q) (idx_tracks index)).
Proof.
  intros Hok. unfold rank_tracks. cbn [fst].
  apply sort_by_score, NoDup_map_filter. by eapply index_ok_tracks_nodup.
Qed.

Lemma rank_albums_sorted st index q h :
  index_ok st index ->
  fst (rank_albums q index h)
  = sort (descending_by (album_score q))
         (List.filter (album_matches q) (idx_albums index)).
Proof.
  intros Hok. unfold rank_albums. cbn [fst].
  apply sort_by_score, NoDup_map_filter. by eapply index_ok_albums_nodup.
Qed.

Lemma elem_of_rank_tracks st index q h m :
  index_ok st index ->
  m ∈ fst (rank_tracks q index h) <-> m ∈ idx_tracks index /\ track_matches q m = true.
Proof.
  intros Hok. unfold rank_tracks. cbn [fst].
  by rewrite elem_of_sort, elem_of_List_filter.
Qed.

Lemma track_score_points q m :
  track_score q m
  = (title_points q (te_title m) + artist_points q (te_artist m)
     + album_points q (te_album m))%Z.
Proof.
  unfold track_score, title_points, artist_points, album_points.
  repeat match goal with |- context [if ?b then _ else _] => destruct b end; lia.
Qed.

Lemma album_score_points q m :
  album_score q m = (title_points q (ae_title m) + artist_points q (ae_artist m))%Z.
Proof.
  unfold album_score, title_points, artist_points.
  repeat match goal with |- context [if ?b then _ else _] => destruct b end; lia.
Qed.

End SearchFacts.

(** ** Scenarios of the specification *)

Example search_mid :
  res_tracks (fst (search "mid" no_options scenario_state)) = [midnight_run]
  /\ score_of (snd (search "mid" no_options scenario_state)) !! 1 = Some 100%Z.
Proof. split; reflexivity. Qed.

Example search_doe :
  res_tracks (fst (search "doe" no_options scenario_state)) = [midnight_run]
  /\ score_of (snd (search "doe" no_options scenario_state)) !! 1 = Some 40%Z.
Proof. split; reflexivity. Qed.

Example search_zzz : res_tracks (fst (search "zzz" no_options scenario_state)) = [].
Proof. reflexivity. Qed.

(** ** Scoring *)

Lemma track_points_le q title artist album :
  (title_points q title + artist_points q artist + album_points q album <= 200)%Z.
Proof.
  unfold title_points, artist_points, album_points.
  repeat match goal with |- context [if ?b then _ else _] => destruct b end; lia.
Qed.

Lemma album_points_le q title artist :
  (title_points q title + artist_points q artist <= 180)%Z.
Proof.
  unfold title_points, artist_points.
  repeat match goal with |- context [if ?b then _ else _] => destruct b end; lia.
Qed.

Lemma album_score_survives st index q h m :
  index_ok st index -> m ∈ idx_tracks index ->
  snd (rank_albums q index h) !! te_ref m = h !! te_ref m.
Proof.
  intros [_ _ Hnd _] Hm. unfold rank_albums. cbn [snd].
  apply assign_scores_other. intros Hin.
  apply list_elem_of_fmap in Hin as (a & Hra & Ha).
  apply elem_of_List_filter in Ha as [Ha _].
  apply NoDup_app in Hnd as (_ & Hdis & _). apply (Hdis (te_ref m)).
  - apply list_elem_of_fmap. eauto.
  - rewrite Hra. apply list_elem_of_fmap. eauto.
Qed.

(** C1, the counterexample: the track of [top_catalog] scores 200 on "a",
    above the 170 the claim gives as the maximum. *)
Lemma track_score_above_170 :
  ~ (forall st index query m s,
        built st -> searchIndex st = Some index -> m ∈ idx_tracks index ->
        score_of (snd (search query no_options st)) !! te_ref m = Some s ->
        (s <= 170)%Z).
Proof.
  intros H.
  assert (Hidx : exists index, searchIndex top_state = Some index) by (eexists; reflexivity).
  destruct Hidx as [index Hidx].
  pose proof (H top_state index "a" (index_track (mkTrack 0 "t1" "Aa" "Ab" (Some "A") 60) 2)
                200%Z (built_buildIndex _ _) Hidx) as H200.
  injection Hidx as <-.
  specialize (H200 ltac:(left) eq_refl). lia.
Qed.

(** C1 (amended): after [search] on a built index with a non-empty trimmed
    query [q], every matching track entry carries the score: 100 if the
    lower-cased title starts with [q], else 50 if it contains [q]; plus 80 if
    the lower-cased artist starts with [q], else 40 if it contains [q]; plus
    20 if the lower-cased album contains [q]; every matching album entry the
    same without the album part.  Under these weights a track scores at most
    200 and an album at most 180, and both maxima are reached. *)
Theorem search_scores st index query options :
  built st -> searchIndex st = Some index ->
  trim (toLowerCase query) <> EmptyString ->
  let q := trim (toLowerCase query) in
  let st' := snd (search query options st) in
  (forall m, m ∈ idx_tracks index -> track_matches q m = true ->
     let T := te_original m in
     exists score,
       score_of st' !! te_ref m = Some score
       /\ score = (title_points q (toLowerCase (t_title T))
                   + artist_points q (toLowerCase (t_artist T))
                   + album_points q (toLowerCase (default EmptyString (t_album T))))%Z
       /\ (score <= 200)%Z)
  /\ (forall m, m ∈ idx_albums index -> album_matches q m = true ->
        let A := ae_original m in
        exists score,
          score_of st' !! ae_ref m = Some score
          /\ score = (title_points q (toLowerCase (a_title A))
                      + artist_points q (toLowerCase (a_artist A)))%Z
          /\ (score <= 180)%Z)
  /\ (exists t a,
        searchIndex top_state = Some (mkIndex [t] [a] ["Ab"])
        /\ score_of (snd (search "a" no_options top_state)) !! te_ref t = Some 200%Z
        /\ score_of (snd (search "a" no_options top_state)) !! ae_ref a = Some 180%Z).
Proof.
  intros Hb Hidx Hq q st'.
  destruct (built_index_ok st Hb) as (index' & Hidx' & Hok).
  assert (index' = index) as -> by congruence.
  assert (Hst' : score_of st' = snd (rank_albums q index (snd (rank_tracks q index (score_of st))))).
  { unfold st'. rewrite (search_unfold st index query options Hidx Hq). reflexivity. }
  split; [|split].
  - intros m Hm Hmatch T. eexists. split; [|split; [reflexivity | apply track_points_le]].
    rewrite Hst', (album_score_survives st) by done.
    unfold rank_tracks. cbn [snd]. rewrite assign_scores_lookup.
    + rewrite track_score_points. pose proof (ok_tracks _ _ Hok) as Hproj.
      rewrite Forall_forall in Hproj. specialize (Hproj m Hm).
      unfold T. rewrite Hproj at 1 2 3. reflexivity.
    + apply NoDup_map_filter. by eapply index_ok_tracks_nodup.
    + by apply elem_of_List_filter.
  - intros m Hm Hmatch A. eexists. split; [|split; [reflexivity | apply album_points_le]].
    rewrite Hst'. unfold rank_albums. cbn [snd]. rewrite assign_scores_lookup.
    + rewrite album_score_points. pose proof (ok_albums _ _ Hok) as Hproj.
      rewrite Forall_forall in Hproj. specialize (Hproj m Hm).
      unfold A. rewrite Hproj at 1 2. reflexivity.
    + apply NoDup_map_filter. by eapply index_ok_albums_nodup.
    + by apply elem_of_List_filter.
  - do 2 eexists. split; [reflexivity|]. split; reflexivity.
Qed.

Lemma search_scores_witness :
  exists score,
    score_of (snd (search "doe" no_options scenario_state)) !! 1 = Some score
    /\ score = 40%Z.
Proof.
  destruct (search_scores scenario_state
              (mkIndex [index_track midnight_run 1] [] ["Jane Doe"])
              "doe" no_options (built_buildIndex _ _) eq_refl)
    as (Ht & _ & _).
  - vm_compute. discriminate.
  - destruct (Ht (index_track midnight_run 1)) as (score & Hs & Hv & _).
    + left.
    + reflexivity.
    + exists score. split; [exact Hs|]. rewrite Hv. reflexivity.
Defined.

(** ** Empty results *)

(** C2: without an index, or when the query is empty once lower-cased and
    trimmed, [search] returns three empty sequences (and, being a total
    function that leaves the state as it was, does not fail); in particular
    [buildIndex] followed by a search for the empty string returns them for
    every catalog. *)
Theorem search_nothing_to_search (query : string) (options : Options) (st : State)
    (catalog : Catalog) :
  searchIndex st = None \/ trim (toLowerCase query) = EmptyString ->
  search query options st = (mkResults [] [] [], st)
  /\ fst (search EmptyString options (buildIndex catalog st)) = mkResults [] [] [].
Proof.
  intros H. split.
  - unfold search. destruct (searchIndex st) as [index|]; [|reflexivity].
    destruct H as [H|H]; [discriminate|]. rewrite H. reflexivity.
  - unfold search. destruct (searchIndex _); reflexivity.
Qed.

Lemma search_nothing_to_search_witness :
  search "   " no_options scenario_state = (mkResults [] [] [], scenario_state)
  /\ fst (search EmptyString no_options (buildIndex scenario_catalog scenario_state))
     = mkResults [] [] [].
Proof.
  apply (search_nothing_to_search "   " no_options scenario_state scenario_catalog).
  right. reflexivity.
Defined.

(** ** Result lengths *)

Lemma search_tracks_length st query options :
  (0 <= or_default (opt_limit options) 50)%Z ->
  (Z.of_nat (length (res_tracks (fst (search query options st))))
   <= or_default (opt_limit options) 50)%Z
  /\ (Z.of_nat (length (res_albums (fst (search query options st))))
      <= or_default (opt_limit options) 50)%Z.
Proof.
  intros Hl. unfold search. destruct (searchIndex st) as [index|]; [|simpl; lia].
  destruct (negb _); [simpl; lia|].
  destruct (rank_tracks _ _ _) as [tm s1], (rank_albums _ _ _) as [am s2].
  cbn [fst res_tracks res_albums]. rewrite !length_map.
  split; by apply length_slice_0.
Qed.

Lemma search_artists_length st query options :
  length (res_artists (fst (search query options st))) <= 10.
Proof.
  unfold search. destruct (searchIndex st) as [index|]; [|simpl; lia].
  destruct (negb _); [simpl; lia|].
  destruct (rank_tracks _ _ _) as [tm s1], (rank_albums _ _ _) as [am s2].
  cbn [fst res_artists]. unfold match_artists.
  pose proof (length_slice_0 10 (List.filter (fun artist => includes (toLowerCase artist)
    (trim (toLowerCase query))) (idx_artists index)) ltac:(lia)). lia.
Qed.

(** C3, the counterexample: asked for at most 0 tracks, [search] falls back
    to the default of 50 and returns one. *)
Lemma search_limit_zero_ignored :
  let options := mkOptions (Some 0%Z) None in
  built scenario_state
  /\ requested_limit options = 0%Z
  /\ ~ (Z.of_nat (length (res_tracks (fst (search "mid" options scenario_state))))
        <= requested_limit options)%Z.
Proof.
  split; [apply built_buildIndex|]. split; [reflexivity|].
  vm_compute. intros H. apply H. reflexivity.
Qed.

(** A negative limit does not bound the result either: it drops that many
    matches from the end. *)
Lemma search_limit_negative :
  let options := mkOptions (Some (-1)%Z) None in
  length (res_tracks (fst (search "a" options crowded_state))) = 50.
Proof. vm_compute. reflexivity. Qed.

(** C3 (amended): the tracks and the albums returned are each at most [n]
    when a positive limit [n] is requested, and at most 50 when no limit or
    the limit 0 is requested; the artists returned are at most 10. *)
Theorem search_result_lengths (st : State) (query : string) (options : Options) :
  let res := fst (search query options st) in
  (forall n, opt_limit options = Some n -> (0 < n)%Z ->
     (Z.of_nat (length (res_tracks res)) <= n)%Z
     /\ (Z.of_nat (length (res_albums res)) <= n)%Z)
  /\ (opt_limit options = None \/ opt_limit options = Some 0%Z ->
      length (res_tracks res) <= 50 /\ length (res_albums res) <= 50)
  /\ length (res_artists res) <= 10.
Proof.
  intros res. split; [|split].
  - intros n Hn Hpos.
    assert (Hd : or_default (opt_limit options) 50 = n).
    { rewrite Hn. simpl. destruct (Z.eqb_spec n 0); [lia | done]. }
    rewrite <- Hd. apply search_tracks_length. lia.
  - intros H.
    assert (Hd : or_default (opt_limit options) 50 = 50%Z) by (destruct H as [-> | ->]; done).
    destruct (search_tracks_length st query options) as [H1 H2]; [lia|].
    rewrite Hd in H1, H2. fold res in H1, H2. lia.
  - apply search_artists_length.
Qed.

Lemma search_result_lengths_witness :
  (Z.of_nat (length (res_tracks (fst (search "a" (mkOptions (Some 8%Z) None) crowded_state))))
   <= 8)%Z.
Proof.
  pose proof (search_result_lengths crowded_state "a" (mkOptions (Some 8%Z) None)) as [H _].
  destruct (H 8%Z eq_refl eq_refl) as [Ht _]. exact Ht.
Defined.

(** ** The index *)

Lemma entries_from_tracks_Forall2 n ts :
  Forall2 (fun e t =>
             te_id e = t_id t
             /\ te_title e = toLowerCase (t_title t)
             /\ te_artist e = toLowerCase (t_artist t)
             /\ te_album e = toLowerCase (default EmptyString (t_album t))
             /\ te_original e = t)
          (entries_from index_track n ts) ts.
Proof. revert n. induction ts; intros; simpl; constructor; auto. Qed.

Lemma entries_from_albums_Forall2 n als :
  Forall2 (fun e a =>
             ae_id e = a_id a
             /\ ae_title e = toLowerCase (a_title a)
             /\ ae_artist e = toLowerCase (a_artist a)
             /\ ae_original e = a)
          (entries_from index_album n als) als.
Proof. revert n. induction als; intros; simpl; constructor; auto. Qed.

(** C5: for every catalog [buildIndex] leaves an index whose track and album
    entries are, in catalog order, the lower-cased projections of the
    records of the [tracks] and [albums] arrays (none for a field that is
    missing or not an array), each with a reference to its record, and whose
    artists are the artist names of the tracks then the albums, each kept
    once, where it is first met. *)
Theorem buildIndex_index (catalog : Catalog) (st : State) :
  let tracks := match cat_tracks catalog with Arr records => records | _ => [] end in
  let albums := match cat_albums catalog with Arr records => records | _ => [] end in
  exists index,
    searchIndex (buildIndex catalog st) = Some index
    /\ Forall2 (fun e t =>
                  te_id e = t_id t
                  /\ te_title e = toLowerCase (t_title t)
                  /\ te_artist e = toLowerCase (t_artist t)
                  /\ te_album e = toLowerCase (default EmptyString (t_album t))
                  /\ te_original e = t)
               (idx_tracks index) tracks
    /\ Forall2 (fun e a =>
                  ae_id e = a_id a
                  /\ ae_title e = toLowerCase (a_title a)
                  /\ ae_artist e = toLowerCase (a_artist a)
                  /\ ae_original e = a)
               (idx_albums index) albums
    /\ (cat_tracks catalog = Missing \/ cat_tracks catalog = NotArray ->
        idx_tracks index = [])
    /\ (cat_albums catalog = Missing \/ cat_albums catalog = NotArray ->
        idx_albums index = [])
    /\ idx_artists index
       = first_encounters (map t_artist tracks ++ map a_artist albums)
    /\ NoDup (idx_artists index)
    /\ (forall name, name ∈ idx_artists index <->
          (exists t, t ∈ tracks /\ t_artist t = name)
          \/ (exists a, a ∈ albums /\ a_artist a = name)).
Proof.
  intros tracks albums.
  assert (Ht : items (cat_tracks catalog) = tracks) by reflexivity.
  assert (Ha : items (cat_albums catalog) = albums) by reflexivity.
  rewrite buildIndex_eq, Ht, Ha. eexists. split; [reflexivity|].
  cbn [idx_tracks idx_albums idx_artists].
  assert (Har : foldl (fun s x => set_add x s) []
                  (map t_artist tracks ++ map a_artist albums)
                = first_encounters (map t_artist tracks ++ map a_artist albums)).
  { rewrite set_add_first_encounters. simpl.
    induction (first_encounters _) as [|x l IH]; simpl; [done|]. by rewrite IH. }
  rewrite Har.
  split; [apply entries_from_tracks_Forall2|].
  split; [apply entries_from_albums_Forall2|].
  split; [intros [H | H]; unfold tracks; rewrite H; reflexivity|].
  split; [intros [H | H]; unfold albums; rewrite H; reflexivity|].
  split; [reflexivity|].
  split; [apply NoDup_first_encounters|].
  intros name. rewrite elem_of_first_encounters, elem_of_app, !list_elem_of_fmap.
  split; (intros [(x & H1 & H2) | (x & H1 & H2)]; [left | right]; exists x; auto).
Qed.

Lemma buildIndex_index_witness :
  exists index,
    searchIndex (buildIndex duo_catalog initial) = Some index
    /\ map te_title (idx_tracks index) = ["blue moon"; "moonlight"]
    /\ map te_original (idx_tracks index) = [blue_moon; moonlight]
    /\ map ae_title (idx_albums index) = ["night songs"]
    /\ idx_artists index = ["The Band"; "Jane Doe"].
Proof.
  destruct (buildIndex_index duo_catalog initial)
    as (index & Hidx & Ht & Ha & _ & _ & Hart & _).
  exists index. split; [exact Hidx|]. cbn in Ht, Ha.
  apply Forall2_cons_inv_r in Ht as (e1 & l1 & (_ & Ht1 & _ & _ & Ho1) & Ht & ->).
  apply Forall2_cons_inv_r in Ht as (e2 & l2 & (_ & Ht2 & _ & _ & Ho2) & Ht & ->).
  apply Forall2_nil_inv_r in Ht as ->.
  apply Forall2_cons_inv_r in Ha as (a1 & k1 & (_ & Ha1 & _) & Ha & ->).
  apply Forall2_nil_inv_r in Ha as ->.
  cbn [map]. rewrite Ht1, Ht2, Ho1, Ho2, Ha1. repeat split. exact Hart.
Defined.

(** ** What [search] writes, and where *)

Section Frame.

Lemma searches_index history st :
  searchIndex (searches history st) = searchIndex st.
Proof.
  revert st. induction history as [|[q o] history IH]; intros st; simpl; [done|].
  by rewrite IH, search_index.
Qed.

Lemma searches_scores_other history st index l :
  searchIndex st = Some index -> l ∉ entry_refs index ->
  score_of (searches history st) !! l = score_of st !! l.
Proof.
  revert st. induction history as [|[q o] history IH]; intros st Hidx Hl; simpl; [done|].
  assert (Hidx' : searchIndex (snd (search q o st)) = Some index)
    by (by rewrite search_index).
  rewrite (IH _ Hidx' Hl). by apply (search_keeps_other_scores _ _ _ index).
Qed.

Lemma buildIndex_entry_refs catalog st index :
  searchIndex (buildIndex catalog st) = Some index ->
  entry_refs index
  = seq (next_ref st)
        (length (items (cat_tracks catalog)) + length (items (cat_albums catalog))).
Proof.
  rewrite buildIndex_eq. cbn [searchIndex]. intros [= <-].
  unfold entry_refs. cbn [idx_tracks idx_albums].
  by rewrite track_entries_refs, album_entries_refs, <- seq_app.
Qed.

Lemma buildIndex_originals catalog st index :
  searchIndex (buildIndex catalog st) = Some index ->
  map te_original (idx_tracks index) = items (cat_tracks catalog)
  /\ map ae_original (idx_albums index) = items (cat_albums catalog).
Proof.
  rewrite buildIndex_eq. cbn [searchIndex]. intros [= <-]. cbn [idx_tracks idx_albums].
  by rewrite track_entries_originals, album_entries_originals.
Qed.

Lemma buildIndex_scores catalog st : score_of (buildIndex catalog st) = score_of st.
Proof. reflexivity. Qed.

(** Every record returned is the original of a matching entry. *)
Lemma search_tracks_from_index st index query options t :
  searchIndex st = Some index ->
  t ∈ res_tracks (fst (search query options st)) ->
  exists m, m ∈ idx_tracks index
            /\ track_matches (trim (toLowerCase query)) m = true
            /\ te_original m = t.
Proof.
  intros Hidx. unfold search. rewrite Hidx.
  destruct (negb _); [by intros ?%elem_of_nil|].
  unfold rank_tracks, rank_albums. cbn [fst res_tracks].
  intros (m & -> & Hm)%list_elem_of_fmap.
  eapply elem_of_sublist in Hm; [|apply slice_sublist].
  apply elem_of_sort, elem_of_List_filter in Hm as [Hm Hmatch]. eauto.
Qed.

Lemma search_albums_from_index st index query options a :
  searchIndex st = Some index ->
  a ∈ res_albums (fst (search query options st)) ->
  exists m, m ∈ idx_albums index
            /\ album_matches (trim (toLowerCase query)) m = true
            /\ ae_original m = a.
Proof.
  intros Hidx. unfold search. rewrite Hidx.
  destruct (negb _); [by intros ?%elem_of_nil|].
  unfold rank_tracks, rank_albums. cbn [fst res_albums].
  intros (m & -> & Hm)%list_elem_of_fmap.
  eapply elem_of_sublist in Hm; [|apply slice_sublist].
  apply elem_of_sort, elem_of_List_filter in Hm as [Hm Hmatch]. eauto.
Qed.

End Frame.

(** C10: whatever searches came before, [search] on a built index assigns
    [score] only to entries of the index, which are objects of their own;
    the catalog records keep the [score] property (or the absence of one)
    they had before the index was built, and the sequences returned consist
    of those records: each is the original of a matching index entry. *)
Theorem search_leaves_records (catalog : Catalog) (st0 : State)
    (history : list (string * Options)) (query : string) (options : Options) :
  catalog_allocated st0 catalog ->
  let st := searches history (buildIndex catalog st0) in
  let res := fst (search query options st) in
  let st' := snd (search query options st) in
  exists index,
    searchIndex st = Some index
    /\ map te_original (idx_tracks index) = items (cat_tracks catalog)
    /\ map ae_original (idx_albums index) = items (cat_albums catalog)
    (* the only objects written are entries of the index *)
    /\ (forall l, score_of st' !! l <> score_of st !! l -> l ∈ entry_refs index)
    (* and no entry is a catalog record *)
    /\ (forall t, t ∈ items (cat_tracks catalog) -> t_ref t ∉ entry_refs index)
    /\ (forall a, a ∈ items (cat_albums catalog) -> a_ref a ∉ entry_refs index)
    (* so the records are as they were *)
    /\ (forall t, t ∈ items (cat_tracks catalog) ->
          score_of st' !! t_ref t = score_of st0 !! t_ref t)
    /\ (forall a, a ∈ items (cat_albums catalog) ->
          score_of st' !! a_ref a = score_of st0 !! a_ref a)
    (* and what is returned are these records *)
    /\ (forall t, t ∈ res_tracks res ->
          t ∈ items (cat_tracks catalog)
          /\ (exists m, m ∈ idx_tracks index /\ te_original m = t)
          /\ score_of st' !! t_ref t = score_of st0 !! t_ref t)
    /\ (forall a, a ∈ res_albums res ->
          a ∈ items (cat_albums catalog)
          /\ (exists m, m ∈ idx_albums index /\ ae_original m = a)
          /\ score_of st' !! a_ref a = score_of st0 !! a_ref a).
Proof.
  intros Halloc st res st'.
  destruct (buildIndex_ok catalog st0) as (index & Hidx0 & _).
  assert (Hidx : searchIndex st = Some index) by (unfold st; by rewrite searches_index).
  pose proof (buildIndex_originals _ _ _ Hidx0) as [Hot Hoa].
  pose proof (buildIndex_entry_refs _ _ _ Hidx0) as Hrefs.
  assert (Hold : forall l, allocated st0 l -> l ∉ entry_refs index).
  { intros l Hl. rewrite Hrefs, elem_of_seq. unfold allocated in Hl. lia. }
  assert (Hkeep : forall l, l ∉ entry_refs index -> score_of st' !! l = score_of st0 !! l).
  { intros l Hl. unfold st'. rewrite (search_keeps_other_scores _ _ _ index) by done.
    unfold st. rewrite (searches_scores_other _ _ index) by done. reflexivity. }
  unfold catalog_allocated in Halloc. rewrite Forall_app, !Forall_forall in Halloc.
  destruct Halloc as [Hat Haa].
  assert (Ht : forall t, t ∈ items (cat_tracks catalog) -> t_ref t ∉ entry_refs index).
  { intros t Hin. apply Hold, Hat, list_elem_of_fmap. eauto. }
  assert (Ha : forall a, a ∈ items (cat_albums catalog) -> a_ref a ∉ entry_refs index).
  { intros a Hin. apply Hold, Haa, list_elem_of_fmap. eauto. }
  exists index. repeat split; auto.
  - intros l Hl. destruct (decide (l ∈ entry_refs index)) as [|Hout]; [done|].
    exfalso. apply Hl. unfold st'. by apply (search_keeps_other_scores _ _ _ index).
  - destruct (search_tracks_from_index st index query options t Hidx H) as (m & Hm & _ & <-).
    rewrite <- Hot. apply list_elem_of_fmap. eauto.
  - destruct (search_tracks_from_index st index query options t Hidx H) as (m & Hm & _ & <-).
    eauto.
  - destruct (search_tracks_from_index st index query options t Hidx H) as (m & Hm & _ & <-).
    apply Hkeep, Ht. rewrite <- Hot. apply list_elem_of_fmap. eauto.
  - destruct (search_albums_from_index st index query options a Hidx H) as (m & Hm & _ & <-).
    rewrite <- Hoa. apply list_elem_of_fmap. eauto.
  - destruct (search_albums_from_index st index query options a Hidx H) as (m & Hm & _ & <-).
    eauto.
  - destruct (search_albums_from_index st index query options a Hidx H) as (m & Hm & _ & <-).
    apply Hkeep, Ha. rewrite <- Hoa. apply list_elem_of_fmap. eauto.
Qed.

Lemma search_leaves_records_witness :
  score_of (snd (search "a" no_options
                   (searches [("b", no_options)] (buildIndex top_catalog (mkState None ∅ 2)))))
    !! 0 = None.
Proof.
  destruct (search_leaves_records top_catalog (mkState None ∅ 2) [("b", no_options)]
              "a" no_options) as (index & _ & _ & _ & _ & _ & _ & Hrec & _).
  - unfold catalog_allocated, allocated. simpl. repeat constructor.
  - exact (Hrec (mkTrack 0 "t1" "Aa" "Ab" (Some "A") 60) ltac:(left)).
Defined.

(** ** Finding and ranking title matches *)

Section Ranking.

Lemma toLowerCase_nil s : toLowerCase s = EmptyString <-> s = EmptyString.
Proof. destruct s; simpl; split; congruence. Qed.

(** [slice(0, n)] keeps a prefix, whatever [n] is. *)
Lemma slice_0_prefix {A} (n : Z) (l : list A) :
  exists k, slice 0 n l = take k l /\ ((0 <= n)%Z -> k = Z.to_nat n).
Proof.
  destruct (Z.lt_ge_cases n 0) as [Hn | Hn].
  - eexists. split; [by apply slice_0_neg | lia].
  - eexists. split; [by apply slice_0_nonneg | done].
Qed.

Lemma track_matches_title q m :
  includes (te_title m) q = true -> track_matches q m = true.
Proof. unfold track_matches. intros ->. reflexivity. Qed.

Lemma search_tracks_prefix st index query options :
  searchIndex st = Some index -> trim (toLowerCase query) <> EmptyString ->
  exists k,
    res_tracks (fst (search query options st))
    = map te_original (take k (fst (rank_tracks (trim (toLowerCase query)) index (score_of st))))
    /\ ((0 <= or_default (opt_limit options) 50)%Z ->
        k = Z.to_nat (or_default (opt_limit options) 50)).
Proof.
  intros Hidx Hq. rewrite (search_unfold st index query options Hidx Hq).
  cbn [fst res_tracks].
  destruct (slice_0_prefix (or_default (opt_limit options) 50)
              (fst (rank_tracks (trim (toLowerCase query)) index (score_of st))))
    as (k & -> & Hk).
  eauto.
Qed.

End Ranking.

(** C4, the counterexample: fifty-one tracks are titled "a"; [search("a")]
    returns the first fifty, and the last one, although its title contains
    the query, is not among them. *)
Lemma search_misses_beyond_limit :
  exists index m,
    built crowded_state
    /\ searchIndex crowded_state = Some index
    /\ m ∈ idx_tracks index
    /\ contains_ci (t_title (te_original m)) "a" = true
    /\ te_original m ∉ res_tracks (fst (search "a" no_options crowded_state)).
Proof.
  eexists. exists (index_track (mkTrack 50 "t" "a" "x" None 0) 101).
  split; [apply built_buildIndex|]. split; [reflexivity|]. split; [|split].
  - apply list_elem_of_lookup. exists 50. reflexivity.
  - reflexivity.
  - intros Hin.
    assert (Hall : Forall (fun t => t_ref t <> 50)
                          (res_tracks (fst (search "a" no_options crowded_state)))).
    { apply Forall_forall. intros t Ht.
      assert (Hb : forallb (fun t => negb (t_ref t =? 50))
                           (res_tracks (fst (search "a" no_options crowded_state))) = true)
        by (vm_compute; reflexivity).
      rewrite forallb_forall in Hb. apply list_elem_of_In in Ht.
      specialize (Hb t Ht). apply negb_true_iff, Nat.eqb_neq in Hb. exact Hb. }
    rewrite Forall_forall in Hall. by apply (Hall _ Hin).
Qed.

(** The scenario of two tracks without the proviso on artist and album: the
    title of the first track starts with "moon", the title of the second
    only contains it, but its artist starts with "moon" too; with 50 + 80
    points against 100 the second track comes first. *)
Lemma search_prefix_ranked_second :
  res_tracks (fst (search "moon" no_options moon_band_state))
  = [blue_moon_band; moonlight_x]
  /\ starts_with_ci (t_title moonlight_x) "moon" = true
  /\ contains_ci (t_title blue_moon_band) "moon" = true
  /\ starts_with_ci (t_title blue_moon_band) "moon" = false.
Proof. vm_compute. done. Qed.

(** C4 (amended): on a built index, for a query whose trimmed form [Q] is not
    empty, [search] returns the originals of a prefix of the ranked matches
    (the first [limit] of them).  Every indexed track whose lower-cased
    title contains the lower-cased [Q] is among the ranked matches, and is
    returned whenever the matches are no more than the limit in force (50
    by default).  Of two indexed tracks that get the same points for artist
    and for album, one whose lower-cased title starts with the lower-cased
    [Q] is ranked strictly before one whose title only contains it, and is
    returned before it whenever the latter is returned.  In the scenario of
    an index of two such tracks, in either order, and a limit of 2 or more,
    the result is the title-prefix track and then the other one. *)
Theorem search_title_matches (st : State) (index : Index) (query : string)
    (options : Options) :
  built st -> searchIndex st = Some index -> trim query <> EmptyString ->
  let Q := trim query in
  let q := toLowerCase Q in
  let res := fst (search query options st) in
  let ranked := fst (rank_tracks q index (score_of st)) in
  let limit := or_default (opt_limit options) 50 in
  let same_artist_and_album_points m1 m2 :=
    artist_points q (toLowerCase (t_artist (te_original m1)))
    = artist_points q (toLowerCase (t_artist (te_original m2)))
    /\ album_points q (toLowerCase (default EmptyString (t_album (te_original m1))))
       = album_points q (toLowerCase (default EmptyString (t_album (te_original m2)))) in
  (exists k, res_tracks res = map te_original (take k ranked)
             /\ ((0 <= limit)%Z -> k = Z.to_nat limit))
  /\ (forall m, m ∈ idx_tracks index ->
        includes (toLowerCase (t_title (te_original m))) q = true ->
        m ∈ ranked
        /\ ((Z.of_nat (length ranked) <= limit)%Z -> te_original m ∈ res_tracks res))
  /\ (forall m1 m2, m1 ∈ idx_tracks index -> m2 ∈ idx_tracks index ->
        startsWith (toLowerCase (t_title (te_original m1))) q = true ->
        includes (toLowerCase (t_title (te_original m2))) q = true ->
        startsWith (toLowerCase (t_title (te_original m2))) q = false ->
        same_artist_and_album_points m1 m2 ->
        exists i j,
          i < j /\ ranked !! i = Some m1 /\ ranked !! j = Some m2
          /\ (j < length (res_tracks res) ->
              res_tracks res !! i = Some (te_original m1)
              /\ res_tracks res !! j = Some (te_original m2)))
  /\ (forall m1 m2,
        idx_tracks index = [m1; m2] \/ idx_tracks index = [m2; m1] ->
        startsWith (toLowerCase (t_title (te_original m1))) q = true ->
        includes (toLowerCase (t_title (te_original m2))) q = true ->
        startsWith (toLowerCase (t_title (te_original m2))) q = false ->
        same_artist_and_album_points m1 m2 ->
        (2 <= limit)%Z ->
        res_tracks res = [te_original m1; te_original m2]).
Proof.
  intros Hb Hidx HQ Q q res ranked limit same_points.
  destruct (built_index_ok st Hb) as (index' & Hidx' & Hok).
  assert (index' = index) as -> by congruence.
  assert (Hq : q = trim (toLowerCase query)) by apply toLowerCase_trim.
  assert (Hne : trim (toLowerCase query) <> EmptyString).
  { rewrite <- Hq. unfold q. by rewrite toLowerCase_nil. }
  destruct (search_tracks_prefix st index query options Hidx Hne) as (k & Hres & Hk).
  rewrite <- Hq in Hres. fold ranked res in Hres. fold limit in Hk.
  pose proof (ok_tracks _ _ Hok) as Hproj. rewrite Forall_forall in Hproj.
  assert (Htitle : forall m, m ∈ idx_tracks index ->
                     te_title m = toLowerCase (t_title (te_original m))).
  { intros m Hm. by rewrite (Hproj m Hm) at 1. }
  assert (Hin : forall m, m ∈ idx_tracks index ->
                  contains_ci (t_title (te_original m)) Q = true -> m ∈ ranked).
  { intros m Hm Hc. apply (elem_of_rank_tracks st); [done|]. split; [done|].
    apply track_matches_title. by rewrite Htitle. }
  assert (Hrank : forall m1 m2, m1 ∈ idx_tracks index -> m2 ∈ idx_tracks index ->
            starts_with_ci (t_title (te_original m1)) Q = true ->
            contains_ci (t_title (te_original m2)) Q = true ->
            starts_with_ci (t_title (te_original m2)) Q = false ->
            same_points m1 m2 ->
            exists i j, i < j /\ ranked !! i = Some m1 /\ ranked !! j = Some m2).
  { intros m1 m2 Hm1 Hm2 Hs1 Hc2 Hs2 [Hart Halb].
    assert (Hc1 : contains_ci (t_title (te_original m1)) Q = true)
      by (by apply startsWith_includes).
    destruct (proj1 (list_elem_of_lookup _ _) (Hin m1 Hm1 Hc1)) as [i Hi].
    destruct (proj1 (list_elem_of_lookup _ _) (Hin m2 Hm2 Hc2)) as [j Hj].
    assert (Hlt : (track_score q m2 < track_score q m1)%Z).
    { rewrite !track_score_points.
      rewrite (Hproj m1 Hm1), (Hproj m2 Hm2). cbn [index_track te_title te_artist te_album].
      rewrite Hart, Halb. unfold title_points.
      unfold starts_with_ci, contains_ci in *. fold q in Hs1, Hs2, Hc2.
      rewrite Hs1, Hs2, Hc2. lia. }
    assert (Hij : i < j).
    { eapply (descending_lookup (track_score q)); [|exact Hi|exact Hj|exact Hlt].
      unfold ranked. rewrite (rank_tracks_sorted st) by done. apply sort_descending. }
    eauto. }
  split; [eauto|]. split; [|split].
  - intros m Hm Hc. split; [by apply Hin|]. intros Hlen.
    rewrite Hres, Hk by lia. rewrite take_ge by lia.
    apply list_elem_of_fmap. exists m. split; [done | by apply Hin].
  - intros m1 m2 Hm1 Hm2 Hs1 Hc2 Hs2 Hsame.
    destruct (Hrank m1 m2 Hm1 Hm2 Hs1 Hc2 Hs2 Hsame) as (i & j & Hij & Hi & Hj).
    exists i, j. split; [done|]. split; [done|]. split; [done|].
    intros Hjlen. rewrite Hres, length_map, length_take in Hjlen.
    rewrite Hres, !list_lookup_fmap, !lookup_take_lt by lia.
    by rewrite Hi, Hj.
  - intros m1 m2 Htwo Hs1 Hc2 Hs2 Hsame Hlim.
    assert (Hm : m1 ∈ idx_tracks index /\ m2 ∈ idx_tracks index
                 /\ length (idx_tracks index) = 2).
    { destruct Htwo as [-> | ->]; (split; [|split]; [set_solver | set_solver | done]). }
    destruct Hm as (Hm1 & Hm2 & Hlen).
    destruct (Hrank m1 m2 Hm1 Hm2 Hs1 Hc2 Hs2 Hsame) as (i & j & Hij & Hi & Hj).
    assert (Hrl : length ranked <= 2).
    { unfold ranked. rewrite (rank_tracks_sorted st) by done.
      rewrite length_sort, <- Hlen. apply List.filter_length_le. }
    pose proof (lookup_lt_Some _ _ _ Hj) as Hjl.
    assert (j = 1) as -> by lia. assert (i = 0) as -> by lia.
    assert (Hranked : ranked = [m1; m2]).
    { destruct ranked as [|a [|b [|c r]]]; simpl in *; try lia. congruence. }
    rewrite Hres, Hranked, Hk by lia. rewrite take_ge by (simpl; lia). reflexivity.
Qed.

Lemma search_title_matches_witness :
  res_tracks (fst (search " Moon " no_options moon_state)) = [moonlight; blue_moon].
Proof.
  destruct (search_title_matches moon_state
              (mkIndex [index_track blue_moon 2; index_track moonlight 3] [] ["The Band"])
              " Moon " no_options (built_buildIndex _ _) eq_refl)
    as (_ & _ & _ & Htwo).
  - vm_compute. discriminate.
  - apply (Htwo (index_track moonlight 3) (index_track blue_moon 2)).
    + right. reflexivity.
    + reflexivity.
    + reflexivity.
    + reflexivity.
    + split; reflexivity.
    + vm_compute. discriminate.
Defined.

(** ** Debounced dispatch *)

Import Debounce.

Section DebounceFacts.

Lemma due_timers_empty target : due_timers target ∅ = [].
Proof. unfold due_timers. rewrite map_to_list_empty. reflexivity. Qed.

Lemma due_timers_singleton target h t :
  due_timers target {[h := t]}
  = if (due t <=? target)%Z then [(h, t)] else [].
Proof.
  unfold due_timers. rewrite map_to_list_singleton. simpl.
  destruct (due t <=? target)%Z; reflexivity.
Qed.

(** A call leaves exactly one timer pending: its own. *)
Lemma debouncedSearch_pending w t :
  single_slot w ->
  debouncedSearch (task_query t) (task_callback t) (task_options t) w
  = mkWorld (search_state w) (Some (next_timer w))
            {[next_timer w := mkTimer (now w + delay_of t) t]}
            (S (next_timer w)) (now w) (calls w).
Proof.
  intros Hs. unfold debouncedSearch, setTimeout, delay_of.
  assert (Hcl : timers (clearTimeout (debounceTimer w) w) = ∅).
  { destruct Hs as [He | (h & t' & Hh & Ht)].
    - unfold clearTimeout. destruct (debounceTimer w); simpl; [|done].
      rewrite He. apply delete_empty.
    - rewrite Hh. simpl. rewrite Ht. apply delete_singleton_eq. }
  assert (Hrest : forall w', w' = clearTimeout (debounceTimer w) w ->
            search_state w' = search_state w /\ next_timer w' = next_timer w
            /\ now w' = now w /\ calls w' = calls w).
  { intros w' ->. unfold clearTimeout. destruct (debounceTimer w); auto. }
  destruct (Hrest _ eq_refl) as (H1 & H2 & H3 & H4).
  cbn [search_state timers next_timer now calls].
  rewrite Hcl, H1, H2, H3, H4. destruct t as [q cb o]. reflexivity.
Qed.

Lemma debouncedSearch_single_slot w t :
  single_slot w ->
  single_slot (debouncedSearch (task_query t) (task_callback t) (task_options t) w).
Proof. intros Hs. rewrite debouncedSearch_pending by done. right. eauto. Qed.

(** [cancelSearch] leaves nothing pending. *)
Lemma cancelSearch_timers w : single_slot w -> timers (cancelSearch w) = ∅.
Proof.
  intros [He | (h & t' & Hh & Ht)]; unfold cancelSearch, clearTimeout.
  - destruct (debounceTimer w); simpl; [|done]. rewrite He. apply delete_empty.
  - rewrite Hh. simpl. rewrite Ht. apply delete_singleton_eq.
Qed.

Lemma cancelSearch_rest w :
  calls (cancelSearch w) = calls w /\ search_state (cancelSearch w) = search_state w.
Proof. unfold cancelSearch, clearTimeout. destruct (debounceTimer w); auto. Qed.

(** Time passing with nothing pending runs nothing. *)
Lemma wait_idle dt w :
  timers w = ∅ ->
  wait dt w = mkWorld (search_state w) (debounceTimer w) ∅ (next_timer w)
                      (now w + Z.max dt 0) (calls w).
Proof.
  intros He. unfold wait. rewrite He, due_timers_empty. simpl. by rewrite He.
Qed.

(** Time passing short of the pending timer runs nothing either. *)
Lemma wait_early dt w h t :
  timers w = {[h := t]} -> (now w + Z.max dt 0 < due t)%Z ->
  wait dt w = mkWorld (search_state w) (debounceTimer w) {[h := t]} (next_timer w)
                      (now w + Z.max dt 0) (calls w).
Proof.
  intros Ht Hlt. unfold wait. rewrite Ht, due_timers_singleton.
  destruct (Z.leb_spec (due t) (now w + Z.max dt 0)); [lia|]. simpl. by rewrite Ht.
Qed.

(** Time passing up to the pending timer runs it, once. *)
Lemma wait_fires dt w h t :
  timers w = {[h := t]} -> (due t <= now w + Z.max dt 0)%Z ->
  wait dt w
  = mkWorld (snd (search (task_query (task t)) (task_options (task t)) (search_state w)))
            (debounceTimer w) ∅ (next_timer w) (now w + Z.max dt 0)
            (calls w ++ [mkCall (task_callback (task t))
                                (fst (search (task_query (task t)) (task_options (task t))
                                             (search_state w)))
                                (task_query (task t))]).
Proof.
  intros Ht Hle. unfold wait. rewrite Ht, due_timers_singleton.
  destruct (Z.leb_spec (due t) (now w + Z.max dt 0)); [|lia]. simpl.
  destruct (search _ _ _) as [results st]. simpl.
  rewrite Ht, delete_singleton_eq. reflexivity.
Qed.

Lemma wait_single_slot dt w : single_slot w -> single_slot (wait dt w).
Proof.
  intros [He | (h & t & Hh & Ht)].
  - rewrite wait_idle by done. by left.
  - destruct (Z.le_gt_cases (due t) (now w + Z.max dt 0)).
    + rewrite (wait_fires dt w h t) by done. by left.
    + rewrite (wait_early dt w h t) by done. right. eauto.
Qed.

Lemma step_single_slot w ev : single_slot w -> single_slot (step w ev).
Proof.
  intros Hs. destruct ev as [t | | dt]; simpl.
  - by apply debouncedSearch_single_slot.
  - left. by apply cancelSearch_timers.
  - by apply wait_single_slot.
Qed.

Lemma run_single_slot evs w : single_slot w -> single_slot (run evs w).
Proof.
  revert w. induction evs as [|ev evs IH]; intros w Hs; simpl; [done|].
  apply IH. by apply step_single_slot.
Qed.

(** Every world the module can be in has the single slot. *)
Lemma reachable_single_slot st evs : single_slot (run evs (new_world st)).
Proof. apply run_single_slot. by left. Qed.




End DebounceFacts.


(** ** Numbers: rounding to binary64 *)

Import App.

Section Binary64Facts.

Local Open Scope Z_scope.

Lemma pow2_pos k : 0 <= k -> 0 < 2 ^ k.
Proof. intros. apply Z.pow_pos_nonneg; lia. Qed.

Lemma pow2_add a b : 0 <= a -> 0 <= b -> 2 ^ (a + b) = 2 ^ a * 2 ^ b.
Proof. intros. apply Z.pow_add_r; lia. Qed.

Lemma pow2_le a b : 0 <= a <= b -> 2 ^ a <= 2 ^ b.
Proof. intros. apply Z.pow_le_mono_r; lia. Qed.

Lemma pow2_lt a b : 0 <= a < b -> 2 ^ a < 2 ^ b.
Proof. intros. apply Z.pow_lt_mono_r; lia. Qed.

(** [le_pow2 e n d] says 2^e <= n/d; with both sides shifted by [B]. *)
Lemma le_pow2_shift B e n d :
  0 <= B -> - B <= e ->
  le_pow2 e n d = true <-> d * 2 ^ (B + e) <= n * 2 ^ B.
Proof.
  intros HB He. unfold le_pow2. rewrite Z.leb_le.
  destruct (Z.le_gt_cases 0 e) as [H0 | H0].
  - rewrite (Z.max_l e 0), (Z.max_r (- e) 0) by lia.
    rewrite pow2_add by lia. change (2 ^ 0) with 1.
    pose proof (pow2_pos B HB). nia.
  - rewrite (Z.max_r e 0), (Z.max_l (- e) 0) by lia.
    replace B with ((B + e) + - e) at 2 by lia.
    rewrite (pow2_add (B + e) (- e)) by lia. change (2 ^ 0) with 1.
    pose proof (pow2_pos (B + e) ltac:(lia)). nia.
Qed.

Lemma exponent_spec n d :
  0 < n -> 0 < d ->
  le_pow2 (exponent n d) n d = true /\ le_pow2 (exponent n d + 1) n d = false.
Proof.
  intros Hn Hd.
  pose proof (Z.log2_spec n Hn) as [Hn1 Hn2].
  pose proof (Z.log2_spec d Hd) as [Hd1 Hd2].
  pose proof (Z.log2_nonneg n) as Ha. pose proof (Z.log2_nonneg d) as Hb.
  set (a := Z.log2 n) in *. set (b := Z.log2 d) in *.
  unfold exponent. fold a b.
  set (B := a + b + 2).
  destruct (le_pow2 (a - b) n d) eqn:E.
  - split; [exact E|].
    destruct (le_pow2 (a - b + 1) n d) eqn:E'; [|reflexivity]. exfalso.
    apply (le_pow2_shift B) in E'; [|lia|lia].
    replace (B + (a - b + 1)) with ((a + 1) + (a + 2)) in E' by lia.
    rewrite pow2_add in E' by lia.
    replace B with (b + (a + 2)) in E' at 1 by lia.
    rewrite (pow2_add b) in E' by lia.
    pose proof (pow2_pos (a + 2) ltac:(lia)).
    replace (Z.succ a) with (a + 1) in Hn2 by lia.
    assert (H1 : d * 2 ^ (a + 1) <= n * 2 ^ b).
    { apply (Z.mul_le_mono_pos_r _ _ (2 ^ (a + 2))); [done|]. lia. }
    pose proof (pow2_pos b Hb). pose proof (pow2_pos (a + 1) ltac:(lia)).
    assert (n * 2 ^ b < 2 ^ (a + 1) * 2 ^ b) by (apply Z.mul_lt_mono_pos_r; lia).
    assert (2 ^ (a + 1) * 2 ^ b <= 2 ^ (a + 1) * d) by (apply Z.mul_le_mono_nonneg_l; lia).
    lia.
  - replace (a - b - 1 + 1) with (a - b) by lia. split; [|exact E].
    apply (le_pow2_shift B); [lia|lia|].
    replace (B + (a - b - 1)) with (a + (a + 1)) by lia.
    rewrite pow2_add by lia.
    replace B with ((b + 1) + (a + 1)) by lia.
    rewrite (pow2_add (b + 1)) by lia.
    pose proof (pow2_pos (a + 1) ltac:(lia)).
    replace (Z.succ b) with (b + 1) in Hd2 by lia.
    pose proof (pow2_pos a Ha).
    assert (d * 2 ^ a <= 2 ^ (b + 1) * 2 ^ a) by (apply Z.mul_le_mono_nonneg_r; lia).
    assert (2 ^ (b + 1) * 2 ^ a <= 2 ^ (b + 1) * n).
    { apply Z.mul_le_mono_nonneg_l; [|lia]. pose proof (pow2_pos (b + 1) ltac:(lia)). lia. }
    assert (d * 2 ^ a <= n * 2 ^ (b + 1)) by lia.
    rewrite !Z.mul_assoc. apply Z.mul_le_mono_nonneg_r; lia.
Qed.

Lemma nearest_even_ge n d L : 0 < d -> L * d <= n -> L <= nearest_even n d.
Proof.
  intros Hd HL. unfold nearest_even.
  assert (L <= n / d) by (apply Z.div_le_lower_bound; lia).
  destruct (2 * (n mod d) ?= d); [destruct (Z.even (n / d))|..]; lia.
Qed.

Lemma nearest_even_lt n d U : 0 < d -> 2 * n < (2 * U - 1) * d -> nearest_even n d < U.
Proof.
  intros Hd HU. unfold nearest_even.
  pose proof (Z.div_mod n d ltac:(lia)) as Hdm.
  pose proof (Z.mod_pos_bound n d Hd) as Hr.
  destruct (Z.compare_spec (2 * (n mod d)) d); [destruct (Z.even (n / d))|..]; nia.
Qed.

Lemma nearest_even_exact n : nearest_even n 1 = n.
Proof. unfold nearest_even. rewrite Z.mod_1_r, Z.div_1_r. reflexivity. Qed.

Lemma Qfloor_scale m k : 0 <= k -> Qfloor (scale m (- k)) = m / 2 ^ k.
Proof.
  intros Hk. unfold scale. destruct (Z.leb_spec 0 (- k)).
  - assert (k = 0) as -> by lia. change (- 0) with 0. change (2 ^ 0) with 1.
    rewrite Qfloor_Z, Z.div_1_r. lia.
  - unfold Qfloor. rewrite Z.opp_involutive, Z2Pos.id by (apply pow2_pos; lia). reflexivity.
Qed.

(** The exponent of a value below 2^53 is at most 52. *)
Lemma exponent_below N D B :
  0 < N -> 0 < D -> 0 <= B -> N < 2 ^ B * D -> exponent N D < B.
Proof.
  intros HN HD HB Hlt.
  destruct (exponent_spec N D HN HD) as [Hlo _].
  destruct (Z.lt_ge_cases (exponent N D) B) as [|Hge]; [done|]. exfalso.
  set (e := exponent N D) in *.
  apply (le_pow2_shift 0) in Hlo; [|lia|lia].
  change (2 ^ 0) with 1 in Hlo. rewrite Z.add_0_l, Z.mul_1_r in Hlo.
  pose proof (pow2_le B e ltac:(lia)).
  assert (D * 2 ^ B <= D * 2 ^ e) by (apply Z.mul_le_mono_nonneg_l; lia).
  lia.
Qed.

Lemma round_pos_unfold N D :
  0 < N -> 0 < D -> exponent N D <= 52 ->
  let k := 52 - Z.max (exponent N D) (-1022) in
  0 <= k /\ round_pos N D = Fin (scale (nearest_even (N * 2 ^ k) D) (- k)).
Proof.
  intros HN HD He k. assert (Hk : 0 <= k) by (unfold k; lia). split; [done|].
  unfold round_pos. cbv zeta. fold k.
  rewrite (Z.max_l k 0), (Z.max_r (- k) 0) by lia. change (2 ^ 0) with 1.
  rewrite Z.mul_1_r.
  destruct (Z.leb_spec 1023 (Z.max (exponent N D) (-1022))); [lia|]. cbn [andb].
  do 2 f_equal. unfold k. lia.
Qed.

(** The binary64 nearest to [M/P], for [M] below 2^53, has the floor of
    [M/P]. *)
Lemma round_pos_floor N D M P :
  0 < N -> 0 < D -> 0 < P -> M < 2 ^ 53 -> N * P = M * D ->
  exists y, round_pos N D = Fin y /\ Qfloor y = M / P.
Proof.
  intros HN HD HP HM Heq.
  assert (HM0 : 0 < M) by nia.
  assert (He : exponent N D <= 52).
  { assert (exponent N D < 53); [|lia]. apply exponent_below; try lia.
    assert (N * P < 2 ^ 53 * D * P); [|nia].
    rewrite Heq. assert (M * D < 2 ^ 53 * D) by nia. nia. }
  destruct (round_pos_unfold N D HN HD He) as [Hk ->].
  set (e := exponent N D) in *. set (k := 52 - Z.max e (-1022)) in *.
  eexists. split; [reflexivity|]. rewrite Qfloor_scale by done.
  set (n := M / P).
  pose proof (Z.div_mod M P ltac:(lia)) as Hdm.
  pose proof (Z.mod_pos_bound M P HP) as Hr. fold n in Hdm.
  assert (Hn0 : 0 <= n) by (apply Z.div_pos; lia).
  pose proof (pow2_pos k Hk) as Hpk.
  set (m := nearest_even (N * 2 ^ k) D).
  assert (Hlo : n * 2 ^ k <= m).
  { apply nearest_even_ge; [done|].
    assert (n * D <= N); [|nia].
    assert (n * D * P <= N * P); [|nia]. rewrite Heq. nia. }
  assert (Hhi : m < (n + 1) * 2 ^ k).
  { apply nearest_even_lt; [done|].
    destruct (exponent_spec N D HN HD) as [Hlo' Hhi']. fold e in Hlo', Hhi'.
    destruct (Z.le_gt_cases (-1022) e) as [Hnorm | Hsub].
    - (* normal: P < 2^(k+1) *)
      assert (Hke : k = 52 - e) by (unfold k; lia).
      assert (HP2 : P < 2 ^ (k + 1)).
      { apply (le_pow2_shift 1022) in Hlo'; [|lia|lia].
        assert (H1 : D * 2 ^ (1022 + e) * P <= M * D * 2 ^ 1022) by (rewrite <- Heq; nia).
        assert (H2 : P * 2 ^ (1022 + e) <= M * 2 ^ 1022) by nia.
        assert (H3 : M * 2 ^ 1022 < 2 ^ 53 * 2 ^ 1022).
        { apply Z.mul_lt_mono_pos_r; [by apply pow2_pos|lia]. }
        assert (H4 : 2 ^ 53 * 2 ^ 1022 = 2 ^ (k + 1) * 2 ^ (1022 + e)).
        { rewrite <- !pow2_add by lia. f_equal. lia. }
        pose proof (pow2_pos (1022 + e) ltac:(lia)). nia. }
      (* (n+1) D - N >= D / P *)
      assert (HW : D <= ((n + 1) * D - N) * P) by (rewrite Z.mul_sub_distr_r, Heq; nia).
      rewrite pow2_add in HP2 by lia. change (2 ^ 1) with 2 in HP2.
      assert (D * P < ((n + 1) * D - N) * P * (2 ^ k * 2)) by nia.
      assert (D < ((n + 1) * D - N) * (2 ^ k * 2)) by nia.
      nia.
    - (* subnormal: the value is below 2^-1022 *)
      assert (Hk' : k = 1074) by (unfold k; lia).
      assert (HND : N * 2 ^ 1022 < D).
      { destruct (Z.lt_ge_cases (N * 2 ^ 1022) D) as [|Hge]; [done|]. exfalso.
        assert (le_pow2 (e + 1) N D = true); [|congruence].
        apply (le_pow2_shift (- (e + 1))); [lia|lia|].
        replace (- (e + 1) + (e + 1)) with 0 by lia. change (2 ^ 0) with 1.
        pose proof (pow2_le 1022 (- (e + 1)) ltac:(lia)). nia. }
      rewrite Hk'. replace 1074 with (52 + 1022) by lia. rewrite pow2_add by lia.
      pose proof (pow2_pos 1022 ltac:(lia)). pose proof (pow2_pos 52 ltac:(lia)).
      nia. }
  symmetry. apply (Z.div_unique_pos m (2 ^ k) n (m - n * 2 ^ k)); lia.
Qed.

Lemma round64_comp (x y : Q) : (x == y)%Q -> round64 x = round64 y.
Proof. intros H. unfold round64. by rewrite (Qred_complete x y H). Qed.

Lemma Qred_inject_Z c : Qred (inject_Z c) = inject_Z c.
Proof.
  unfold Qred, inject_Z. cbn [Qnum Qden].
  pose proof (Z.ggcd_gcd c 1) as Hg. pose proof (Z.ggcd_correct_divisors c 1) as Hd.
  destruct (Z.ggcd c 1) as [g [q1 q2]]. cbn [fst snd] in *.
  rewrite Z.gcd_1_r in Hg. subst g. destruct Hd as [H1 H2].
  assert (q2 = 1) as -> by lia. assert (q1 = c) as -> by lia. reflexivity.
Qed.

(** Rounding keeps the floor of [M/P] when [M] is below 2^53. *)
Lemma round64_floor (q : Q) (M : Z) (P : positive) :
  (q == M # P)%Q -> 0 <= M < 2 ^ 53 ->
  exists y, round64 q = Fin y /\ Qfloor y = Qfloor q.
Proof.
  intros Hq [HM0 HM].
  assert (Hfl : Qfloor q = M / Z.pos P) by (by rewrite Hq).
  assert (Hred : (Qred q == M # P)%Q) by (by rewrite Qred_correct).
  unfold round64. cbv zeta. destruct (Qred q) as [N D]. unfold Qeq in Hred.
  cbn [Qnum Qden] in *.
  destruct N as [|N|N].
  - exists 0%Q. split; [reflexivity|]. rewrite Hfl.
    assert (M = 0) as -> by nia. reflexivity.
  - rewrite Hfl. apply round_pos_floor; lia.
  - lia.
Qed.

Lemma exponent_integer c : 0 < c -> exponent c 1 = Z.log2 c.
Proof.
  intros Hc. unfold exponent. change (Z.log2 1) with 0. rewrite Z.sub_0_r.
  pose proof (Z.log2_spec c Hc) as [H1 _]. pose proof (Z.log2_nonneg c).
  unfold le_pow2. rewrite (Z.max_l _ 0), (Z.max_r (- _) 0) by lia.
  change (2 ^ 0) with 1. destruct (Z.leb_spec (1 * 2 ^ Z.log2 c) (c * 1)); [done | lia].
Qed.

Lemma scale_exact c k : 0 <= k -> (scale (c * 2 ^ k) (- k) == inject_Z c)%Q.
Proof.
  intros Hk. unfold scale. pose proof (pow2_pos k Hk).
  destruct (Z.leb_spec 0 (- k)).
  - assert (k = 0) as -> by lia. change (- 0) with 0. change (2 ^ 0) with 1.
    rewrite !Z.mul_1_r. reflexivity.
  - unfold Qeq, inject_Z. cbn [Qnum Qden]. rewrite Z.opp_involutive, Z2Pos.id by lia. lia.
Qed.

(** An integer below 2^53 is a binary64 value. *)
Lemma round64_integer c :
  0 <= c < 2 ^ 53 -> exists y, round64 (inject_Z c) = Fin y /\ (y == inject_Z c)%Q.
Proof.
  intros [Hc0 Hc]. unfold round64. cbv zeta. rewrite Qred_inject_Z. cbn [inject_Z Qnum Qden].
  destruct c as [|c|c]; [by exists 0%Q | | lia].
  assert (He : exponent (Z.pos c) 1 <= 52).
  { rewrite exponent_integer by lia.
    assert (Z.log2 (Z.pos c) < 53); [|lia]. apply Z.log2_lt_pow2; lia. }
  destruct (round_pos_unfold (Z.pos c) 1 ltac:(lia) ltac:(lia) He) as [Hk ->].
  eexists. split; [reflexivity|]. rewrite nearest_even_exact. by apply scale_exact.
Qed.

(** An integer from 2^53 on is rounded to a value from 2^53 on. *)
Lemma round64_large c :
  2 ^ 53 <= c ->
  match round64 (inject_Z c) with
  | Fin y => (inject_Z (2 ^ 53) <= y)%Q
  | Infinity s => s = false
  | NaN => False
  end.
Proof.
  intros Hc. unfold round64. cbv zeta. rewrite Qred_inject_Z. cbn [inject_Z Qnum Qden].
  destruct c as [|c|c]; [lia | | lia].
  unfold round_pos. cbv zeta. rewrite exponent_integer by lia.
  set (e := Z.log2 (Z.pos c)).
  assert (He : 53 <= e) by (apply Z.log2_le_pow2; lia).
  rewrite (Z.max_l e (-1022)) by lia.
  rewrite (Z.max_r (52 - e) 0), (Z.max_l (- (52 - e)) 0) by lia.
  change (2 ^ 0) with 1. rewrite Z.mul_1_r, Z.mul_1_l.
  destruct (_ && _); [reflexivity|].
  unfold scale. destruct (Z.leb_spec 0 (e - 52)); [|lia].
  rewrite <- Zle_Qle. replace (- (52 - e)) with (e - 52) by lia.
  pose proof (pow2_pos (e - 52) ltac:(lia)) as Hp.
  assert (2 ^ 52 <= nearest_even (Z.pos c) (2 ^ (e - 52))).
  { apply nearest_even_ge; [done|]. rewrite <- pow2_add by lia.
    replace (52 + (e - 52)) with e by lia. apply Z.log2_spec. lia. }
  pose proof (pow2_le 1 (e - 52) ltac:(lia)). change (2 ^ 1) with 2 in *.
  change (2 ^ 53) with (2 ^ 52 * 2). nia.
Qed.

(** A binary64 value below 2^53 is [m / 2^k] with [m] below 2^53. *)
Lemma binary64_dyadic (x : Q) :
  is_binary64 x = true -> (0 < x)%Q -> (x < inject_Z (2 ^ 53))%Q ->
  exists m k, 0 < m < 2 ^ 53 /\ (x == m # k)%Q.
Proof.
  intros Hb Hx0 Hx. unfold is_binary64, round64 in Hb. cbv zeta in Hb.
  pose proof (Qred_correct x) as Hred.
  destruct (Qred x) as [N D]. cbn [Qnum Qden] in Hb.
  assert (HN : 0 < N).
  { rewrite <- Hred in Hx0. unfold Qlt in Hx0. cbn in Hx0. lia. }
  assert (HND : N < 2 ^ 53 * Z.pos D).
  { rewrite <- Hred in Hx. unfold Qlt, inject_Z in Hx. cbn [Qnum Qden] in Hx. lia. }
  destruct N as [|N|N]; [lia | | lia].
  assert (He : exponent (Z.pos N) (Z.pos D) <= 52).
  { assert (exponent (Z.pos N) (Z.pos D) < 53); [|lia]. apply exponent_below; lia. }
  destruct (round_pos_unfold _ _ HN (Pos2Z.is_pos D) He) as [Hk Hr]. rewrite Hr in Hb.
  apply Qeq_bool_iff in Hb.
  set (e := exponent (Z.pos N) (Z.pos D)) in *.
  set (k := 52 - Z.max e (-1022)) in *.
  set (m := nearest_even (Z.pos N * 2 ^ k) (Z.pos D)) in *.
  pose proof (pow2_pos k Hk) as Hpk.
  assert (Hs : (scale m (- k) == m # Z.to_pos (2 ^ k))%Q).
  { unfold scale. destruct (Z.leb_spec 0 (- k)); [|by rewrite Z.opp_involutive].
    assert (k = 0) as Hk0 by lia. rewrite Hk0. change (- 0) with 0.
    change (2 ^ 0) with 1. rewrite Z.mul_1_r. reflexivity. }
  rewrite Hs in Hb. exists m, (Z.to_pos (2 ^ k)). split; [|by rewrite Hb].
  rewrite <- Hred in Hb. unfold Qeq in Hb. cbn [Qnum Qden] in Hb.
  rewrite Z2Pos.id in Hb by lia.
  split; [nia|].
  (* m * D = N * 2^k and N/D < 2^(e+1) *)
  destruct (exponent_spec _ _ HN (Pos2Z.is_pos D)) as [_ Hup]. fold e in Hup.
  destruct (Z.lt_ge_cases m (2 ^ 53)) as [|Hge]; [done|]. exfalso.
  assert (H1 : 2 ^ 53 * Z.pos D <= Z.pos N * 2 ^ k) by nia.
  destruct (Z.le_gt_cases (-1022) e) as [Hnorm | Hsub].
  - assert (le_pow2 (e + 1) (Z.pos N) (Z.pos D) = true); [|congruence].
    apply (le_pow2_shift 1022); [lia|lia|].
    assert (Hke : k = 52 - e) by (unfold k; lia).
    assert (H2 : 2 ^ 53 * Z.pos D * 2 ^ (1022 + e) <= Z.pos N * 2 ^ k * 2 ^ (1022 + e)).
    { apply Z.mul_le_mono_nonneg_r; [|done]. pose proof (pow2_pos (1022 + e) ltac:(lia)). lia. }
    rewrite <- !Z.mul_assoc, <- pow2_add in H2 by lia.
    replace (k + (1022 + e)) with (52 + 1022) in H2 by lia.
    rewrite (pow2_add 52 1022) in H2 by lia.
    replace (1022 + (e + 1)) with ((1022 + e) + 1) by lia. rewrite pow2_add by lia.
    change (2 ^ 1) with 2. change (2 ^ 53) with (2 ^ 52 * 2) in H2.
    pose proof (pow2_pos 52 ltac:(lia)). pose proof (pow2_pos 1022 ltac:(lia)).
    pose proof (pow2_pos (1022 + e) ltac:(lia)). nia.
  - (* subnormal: the value is below 2^-1022, so m is below 2^52 *)
    assert (Hk' : k = 1074) by (unfold k; lia).
    assert (le_pow2 (e + 1) (Z.pos N) (Z.pos D) = true); [|congruence].
    apply (le_pow2_shift (- (e + 1))); [lia|lia|].
    replace (- (e + 1) + (e + 1)) with 0 by lia. change (2 ^ 0) with 1.
    rewrite Hk' in H1. replace 1074 with (53 + 1021) in H1 by lia.
    rewrite pow2_add in H1 by lia.
    pose proof (pow2_le 1021 (- (e + 1)) ltac:(lia)).
    pose proof (pow2_pos 1021 ltac:(lia)). pose proof (pow2_pos 53 ltac:(lia)). nia.
Qed.

Lemma rounds_to_safe c z :
  0 <= c -> 0 < z < 2 ^ 53 -> rounds_to c z = true -> c = z.
Proof.
  intros Hc Hz Hr. unfold rounds_to in Hr.
  destruct (Z.lt_ge_cases c (2 ^ 53)) as [Hlt | Hge].
  - destruct (round64_integer c ltac:(lia)) as (y & Hy & Heq). rewrite Hy in Hr.
    apply Qeq_bool_iff in Hr. rewrite Heq in Hr. by apply inject_Z_injective.
  - pose proof (round64_large c Hge) as Hl.
    destruct (round64 (inject_Z c)) as [| s | y]; [done | done |].
    apply Qeq_bool_iff in Hr. rewrite Hr in Hl. rewrite <- Zle_Qle in Hl. lia.
Qed.

Lemma candidate_rounds z j c :
  0 <= z -> 0 <= j -> candidate z j = Some c -> 0 <= c /\ rounds_to c z = true.
Proof.
  intros Hz Hj. unfold candidate. cbv zeta.
  pose proof (Z.pow_pos_nonneg 10 j ltac:(lia) Hj) as Hp.
  assert (Hlo : 0 <= z / 10 ^ j * 10 ^ j).
  { apply Z.mul_nonneg_nonneg; [apply Z.div_pos|]; lia. }
  destruct (rounds_to (z / 10 ^ j * 10 ^ j) z) eqn:E1,
           (rounds_to (z / 10 ^ j * 10 ^ j + 10 ^ j) z) eqn:E2; intros [= <-].
  - destruct (_ ?= _); [destruct (Z.even _)|..]; (split; [lia | done]).
  - split; [lia | done].
  - split; [lia | done].
Qed.

Lemma shortest_safe z j : 0 < z < 2 ^ 53 -> shortest z j = z.
Proof.
  intros Hz. induction j as [|j IH]; [done|]. cbn [shortest].
  destruct (candidate z (Z.of_nat (S j))) as [c|] eqn:E; [|done].
  apply candidate_rounds in E as [Hc Hr]; [|lia|lia]. by apply rounds_to_safe.
Qed.

Lemma digits_of_safe z : 0 < z < 2 ^ 53 -> digits_of z = decimal z.
Proof.
  intros Hz. unfold digits_of. cbv zeta. rewrite shortest_safe by done.
  destruct (Z.ltb_spec z (10 ^ 21)); [done|]. 
  assert (2 ^ 53 < 10 ^ 21) by reflexivity. lia.
Qed.

Lemma toString_safe z : 0 <= z < 2 ^ 53 -> toString (IFin z) = decimal z.
Proof.
  intros Hz. destruct z as [|p|p]; [vm_compute; reflexivity | | lia].
  cbn [toString]. apply digits_of_safe. lia.
Qed.

End Binary64Facts.

(** The rounding of the model and the division and addition of the
    Standard Library's IEEE 754 specification give the same numbers: on the
    quotients by 60 and by 3600 of the integers up to 3000 and of integers
    near 2^56, on quotients that are subnormal, and on sums beyond 2^53. *)
Example round64_agrees_with_reference :
  forallb (fun a => quotient_agrees (Z.of_nat a) 60
                    && quotient_agrees (Z.of_nat a) 3600) (seq 1 3000)
  && forallb (fun a => quotient_agrees (67585110104551000 + 8 * Z.of_nat a) 60) (seq 1 500)
  && forallb (fun a => quotient_agrees (Z.of_nat a) (2 ^ 1023 - 2 ^ 1000)) (seq 1 50)
  && forallb (fun a => sum_agrees (2 ^ 53 + 2 * Z.of_nat a) (Z.of_nat a)) (seq 1 500)
  = true.
Proof. vm_compute. reflexivity. Qed.

(** ** The application module *)

Section DurationFacts.

Lemma Qfloor_div_60 (x : Q) : Qfloor (x / 60) = (Qfloor x / 60)%Z.
Proof.
  destruct x as [n d]. unfold Qdiv, Qmult, Qinv, Qfloor. simpl.
  rewrite Z.mul_1_r, Pos2Z.inj_mul, Z.div_div by lia. reflexivity.
Qed.

Lemma Qfloor_add_Z (x : Q) (k : Z) : Qfloor (x + inject_Z k) = (Qfloor x + k)%Z.
Proof.
  destruct x as [n d]. unfold Qplus, inject_Z, Qfloor. simpl.
  rewrite Z.mul_1_r, Pos.mul_1_r, Z.div_add by lia. reflexivity.
Qed.

Lemma Qtrunc_nonneg (x : Q) : (0 <= x)%Q -> App.Qtrunc x = Qfloor x.
Proof. unfold App.Qtrunc. intros H. apply Qle_bool_iff in H. by rewrite H. Qed.

(** The whole seconds that remain once the minutes are taken out. *)
Lemma Qfloor_rem_60 (x : Q) :
  (0 <= x)%Q ->
  Qfloor (x - 60 * inject_Z (App.Qtrunc (x / 60))) = (Qfloor x mod 60)%Z.
Proof.
  intros Hx. rewrite Qtrunc_nonneg.
  - rewrite Qfloor_div_60.
    assert (Heq : (x - 60 * inject_Z (Qfloor x / 60)
                   == x + inject_Z (- (60 * (Qfloor x / 60))))%Q).
    { rewrite inject_Z_opp, inject_Z_mult. unfold Qminus. reflexivity. }
    rewrite Heq, Qfloor_add_Z. rewrite (Z.mod_eq (Qfloor x) 60) by lia. lia.
  - apply Qle_shift_div_l; [reflexivity|]. by rewrite Qmult_0_l.
Qed.

Lemma padStart_two_digits (n : Z) :
  (0 <= n < 60)%Z -> padStart 2 "0" (decimal n) = two_digits n.
Proof.
  intros Hn. rewrite <- (Z2Nat.id n) by lia.
  assert (Hk : (Z.to_nat n < 60)%nat) by lia. revert Hk.
  generalize (Z.to_nat n). intros k Hk.
  do 60 (destruct k as [|k]; [reflexivity|]). lia.
Qed.

End DurationFacts.

(** C9, the counterexample: 67585110104551736 is a binary64 value; the
    quotient by 60, 1126418501742528.93..., is not, and is rounded to
    1126418501742529 before [Math.floor] sees it: [formatDuration] shows one
    minute more than floor(seconds/60). *)
Lemma formatDuration_rounds_quotient :
  let seconds := 67585110104551736%Q in
  is_binary64 seconds = true
  /\ (0 < seconds)%Q
  /\ Qfloor (seconds / 60) = 1126418501742528%Z
  /\ formatDuration (Number (Fin seconds)) = "1126418501742529:56"
  /\ formatDuration (Number (Fin seconds))
     <> decimal (Qfloor (seconds / 60)) +:+ ":"
        +:+ two_digits (Qfloor seconds - 60 * Qfloor (seconds / 60)).
Proof.
  cbv zeta. split; [vm_compute; reflexivity|]. split; [reflexivity|].
  split; [vm_compute; reflexivity|]. split; [vm_compute; reflexivity|].
  vm_compute. discriminate.
Qed.

(** C9 (amended): [formatDuration] gives "0:00" for 0 seconds, "2:05" for 125
    seconds and "0:00" for undefined and for NaN; for every positive number
    of seconds below 2^53 (a binary64 value, whole or not) it gives
    floor(seconds/60), a colon, and the whole seconds that remain, which
    are fewer than 60, on two digits. *)
Theorem formatDuration_spec :
  formatDuration (Number (Fin 0)) = "0:00"
  /\ formatDuration (Number (Fin 125)) = "2:05"
  /\ formatDuration Undefined = "0:00"
  /\ formatDuration (Number NaN) = "0:00"
  /\ forall x : Q,
       is_binary64 x = true -> (0 < x)%Q -> (x < inject_Z (2 ^ 53))%Q ->
       let mins := Qfloor (x / 60) in
       let secs := (Qfloor x - 60 * mins)%Z in
       (0 <= mins)%Z /\ (0 <= secs < 60)%Z
       /\ formatDuration (Number (Fin x)) = decimal mins +:+ ":" +:+ two_digits secs.
Proof.
  split; [reflexivity|]. split; [vm_compute; reflexivity|].
  split; [reflexivity|]. split; [reflexivity|].
  intros x Hb Hx Hlt mins secs.
  assert (Hfx : (0 <= Qfloor x)%Z).
  { change 0%Z with (Qfloor 0). apply Qfloor_resp_le. by apply Qlt_le_weak. }
  assert (Hfx' : (Qfloor x < 2 ^ 53)%Z).
  { destruct (Z.lt_ge_cases (Qfloor x) (2 ^ 53)) as [|Hge]; [done|]. exfalso.
    rewrite Zle_Qle in Hge. pose proof (Qfloor_le x) as Hle.
    apply (Qlt_irrefl x). eapply Qlt_le_trans; [exact Hlt|].
    eapply Qle_trans; [exact Hge | exact Hle]. }
  assert (Hmins : mins = (Qfloor x / 60)%Z) by apply Qfloor_div_60.
  assert (Hsecs : secs = (Qfloor x mod 60)%Z).
  { unfold secs. rewrite Hmins, (Z.mod_eq (Qfloor x) 60) by lia. reflexivity. }
  assert (Hm0 : (0 <= mins)%Z) by (rewrite Hmins; apply Z.div_pos; lia).
  assert (Hm1 : (mins < 2 ^ 53)%Z).
  { rewrite Hmins. apply Z.div_lt_upper_bound; lia. }
  assert (Hs : (0 <= secs < 60)%Z) by (rewrite Hsecs; apply Z.mod_pos_bound; lia).
  split; [done|]. split; [done|].
  unfold formatDuration.
  assert (Hf : falsy (Number (Fin x)) = false).
  { simpl. destruct (Qeq_bool x 0) eqn:E; [|done].
    apply Qeq_bool_iff in E. rewrite E in Hx. by apply Qlt_irrefl in Hx. }
  rewrite Hf. cbn [isNaN orb to_number div rem].
  destruct (binary64_dyadic x Hb Hx Hlt) as (m & k & Hm & Hxm).
  assert (Hq : (x / 60 == m # (k * 60))%Q).
  { rewrite Hxm. unfold Qeq, Qdiv, Qmult, Qinv. cbn [Qnum Qden]. lia. }
  destruct (round64_floor (x / 60) m (k * 60) Hq ltac:(lia)) as (y & -> & Hy).
  cbn [Math_floor]. rewrite Hy. fold mins.
  rewrite Qfloor_rem_60 by (by apply Qlt_le_weak). rewrite <- Hsecs.
  rewrite !toString_safe by lia.
  by rewrite padStart_two_digits.
Qed.

Lemma formatDuration_spec_witness :
  formatDuration (Number (Fin (7451 # 2))) = "62:05".
Proof.
  destruct formatDuration_spec as (_ & _ & _ & _ & H).
  destruct (H (7451 # 2)%Q) as (_ & _ & ->);
    [vm_compute; reflexivity | reflexivity | reflexivity | reflexivity].
Defined.

(** ** Start-up *)

(** C7, the counterexample: the catalog loads and the links do not; [init]
    reports success all the same. *)
Lemma init_succeeds_without_links :
  let env := mkEnv 0 (Response true (Some scenario_catalog)) NetworkError in
  must_fetch env fresh_state
  /\ fst (init env fresh_state) = true
  /\ ~ (loaded (catalog_response env) /\ loaded (links_response env)).
Proof.
  split; [split; reflexivity|]. split; [reflexivity|].
  intros [_ [l Hl]]. discriminate Hl.
Qed.

(** C7 (amended): when [init] has to fetch, it reports success if and only
    if the catalog loaded, whether or not the links did; the catalog/links
    pair is in the cache afterwards only if both loaded (and then, storage
    permitting, it is the pair that was loaded); whatever loaded is assigned
    to the module's state, the module is marked initialised, and the index
    is built from the catalog when there is one. *)
Theorem init_outcome (env : Env) (s : AppState) :
  must_fetch env s ->
  let ok := fst (init env s) in
  let s' := snd (init env s) in
  (ok = true <-> loaded (catalog_response env))
  /\ (forall c l, cached_pair s' = Some (c, l) ->
        loadJSON (catalog_response env) = Some c
        /\ loadJSON (links_response env) = Some l)
  /\ (forall c l, loadJSON (catalog_response env) = Some c ->
        loadJSON (links_response env) = Some l ->
        writable (storage s) = true ->
        item (storage s') = Entry (mkCacheEntry c l (time env)))
  /\ catalog s' = loadJSON (catalog_response env)
  /\ links s' = loadJSON (links_response env)
  /\ isInitialized s' = true
  /\ search_module s'
     = match loadJSON (catalog_response env) with
       | Some c => buildIndex c (search_module s)
       | None => search_module s
       end.
Proof.
  intros [Hinit Hmiss] ok s'. unfold ok, s', init, cached_pair. rewrite Hinit.
  destruct (getCache (time env) (storage s)) as [cached st1] eqn:Hg.
  simpl in Hmiss. subst cached.
  assert (Hst1 : item st1 <> NoItem -> item st1 = Malformed).
  { unfold getCache in Hg. destruct (item (storage s)) eqn:Hi.
    - injection Hg as <-. by rewrite Hi.
    - injection Hg as <-. by rewrite Hi.
    - destruct (CACHE_DURATION <? _)%Z; [|discriminate]. injection Hg as <-. done. }
  assert (Hw : writable st1 = writable (storage s)).
  { unfold getCache in Hg. destruct (item (storage s)); try by injection Hg as <-.
    destruct (CACHE_DURATION <? _)%Z; [|discriminate]. by injection Hg as <-. }
  assert (Hno : forall d, item st1 <> Entry d).
  { intros d Hd. rewrite Hd in Hst1.
    assert (Entry d <> NoItem) as Hne by discriminate. specialize (Hst1 Hne). discriminate. }
  destruct (loadJSON (catalog_response env)) as [c|] eqn:Hc,
           (loadJSON (links_response env)) as [l|] eqn:Hl; cbn [fst snd];
    (split; [unfold loaded; rewrite ?Hc; split; intros H; try done;
             try (by destruct H); try (by eexists)|]);
    cbn [catalog links isInitialized storage search_module].
  - unfold setCache. rewrite Hw. destruct (writable (storage s)); cbn [item].
    + split; [intros c' l' [= <- <-]; done|]. split; [intros c' l' [= <-] [= <-] _; done|]. done.
    + split; [intros c' l' H; destruct (item st1) eqn:E; try discriminate; by destruct (Hno data)|].
      split; [intros; discriminate|]. done.
  - split; [intros c' l' H; destruct (item st1) eqn:E; try discriminate; by destruct (Hno data)|].
    split; [intros; discriminate|]. done.
  - split; [intros c' l' H; destruct (item st1) eqn:E; try discriminate; by destruct (Hno data)|].
    split; [intros; discriminate|]. done.
  - split; [intros c' l' H; destruct (item st1) eqn:E; try discriminate; by destruct (Hno data)|].
    split; [intros; discriminate|]. done.
Qed.

Lemma init_outcome_witness :
  fst (init (mkEnv 0 (Response true (Some scenario_catalog)) NetworkError) fresh_state) = true
  <-> loaded (Response true (Some scenario_catalog)).
Proof.
  destruct (init_outcome (mkEnv 0 (Response true (Some scenario_catalog)) NetworkError)
              fresh_state) as (H & _).
  - split; reflexivity.
  - exact H.
Defined.

(** ** Highlighting *)

Import Highlight.

#[local] Arguments String.append !_ _ / : simpl nomatch.

Section HighlightFacts.

Lemma append_assoc (a b c : string) : (a +:+ b) +:+ c = a +:+ (b +:+ c).
Proof. induction a as [|x a IH]; simpl; [done | by rewrite IH]. Qed.

Lemma length_append (a b : string) :
  String.length (a +:+ b) = String.length a + String.length b.
Proof. induction a as [|x a IH]; simpl; [done | by rewrite IH]. Qed.

(** *** [escapeHtml] *)

Lemma escape_char_plain c : is_html_special c = false -> escape_char c = String c EmptyString.
Proof.
  unfold is_html_special, escape_char. intros H.
  repeat (apply orb_false_iff in H as [H ?]). by rewrite H, H0, H1, H2.
Qed.

Lemma escape_char_special c :
  is_html_special c = true ->
  exists rest, escape_char c = String "&" rest /\ 3 <= String.length rest.
Proof.
  unfold is_html_special, escape_char. intros H.
  destruct (Ascii.eqb c "&"); [eexists; split; [reflexivity | simpl; lia]|].
  destruct (Ascii.eqb c "<"); [eexists; split; [reflexivity | simpl; lia]|].
  destruct (Ascii.eqb c ">"); [eexists; split; [reflexivity | simpl; lia]|].
  destruct (code c =? 160)%N; [eexists; split; [reflexivity | simpl; lia]|].
  discriminate.
Qed.

Lemma length_escapeHtml text : String.length text <= String.length (escapeHtml text).
Proof.
  induction text as [|c text IH]; simpl; [done|]. rewrite length_append.
  destruct (is_html_special c) eqn:E.
  - destruct (escape_char_special c E) as (rest & -> & Hr). simpl. lia.
  - rewrite escape_char_plain by done. simpl. lia.
Qed.

Lemma escapeHtml_plain text : plain text = true -> escapeHtml text = text.
Proof.
  induction text as [|c text IH]; simpl; [done|].
  intros [Hc Ht]%andb_true_iff. apply negb_true_iff in Hc.
  by rewrite escape_char_plain, IH.
Qed.

Lemma escapeHtml_fixed text : escapeHtml text = text -> plain text = true.
Proof.
  induction text as [|c text IH]; simpl; [done|]. intros H.
  destruct (is_html_special c) eqn:E; simpl.
  - exfalso. destruct (escape_char_special c E) as (rest & Hr & Hlen).
    rewrite Hr in H. simpl in H. injection H as Hc Hrest.
    apply (f_equal String.length) in Hrest. rewrite length_append in Hrest.
    pose proof (length_escapeHtml text). lia.
  - rewrite escape_char_plain in H by done. simpl in H. injection H as H. by apply IH.
Qed.

Lemma plain_append a b : plain (a +:+ b) = plain a && plain b.
Proof. induction a as [|x a IH]; simpl; [done|]. by rewrite IH, andb_assoc. Qed.

Lemma plain_escapeHtml text : plain (escapeHtml text) = plain text.
Proof.
  induction text as [|c text IH]; simpl; [done|]. rewrite plain_append, IH.
  destruct (is_html_special c) eqn:E; simpl.
  - destruct (escape_char_special c E) as (rest & -> & _). reflexivity.
  - rewrite escape_char_plain by done. simpl. by rewrite E.
Qed.

(** Escaping twice is escaping once on plain text only. *)
Lemma escapeHtml_twice text :
  escapeHtml (escapeHtml text) = escapeHtml text <-> plain text = true.
Proof.
  split.
  - intros H. apply escapeHtml_fixed in H. by rewrite plain_escapeHtml in H.
  - intros H. rewrite (escapeHtml_plain text H). by apply escapeHtml_plain.
Qed.

(** *** [escapeRegex] and the pattern *)

Lemma not_syntax_char c :
  is_syntax_char c = false ->
  Ascii.eqb c "\" = false /\ Ascii.eqb c ")" = false.
Proof.
  unfold is_syntax_char. intros H.
  repeat (apply orb_false_iff in H as [H ?]). auto.
Qed.

Lemma syntax_char_backslash : is_syntax_char "\" = true.
Proof. reflexivity. Qed.

Lemma parse_group_escapeRegex q :
  parse_group (escapeRegex q +:+ ")") = Some q.
Proof.
  induction q as [|c q IH]; [reflexivity|].
  cbn [escapeRegex]. destruct (is_syntax_char c) eqn:E.
  - cbn [append parse_group]. change (Ascii.eqb "\" "\") with true. cbv iota.
    rewrite E, IH. reflexivity.
  - destruct (not_syntax_char c E) as [H1 H2].
    cbn [append parse_group]. rewrite H1, H2, E, IH. reflexivity.
Qed.

(** The pattern built from an escaped query is accepted, and stands for
    the query itself. *)
Lemma RegExp_escapeRegex q : RegExp ("(" +:+ escapeRegex q +:+ ")") = Some q.
Proof. cbn [append RegExp]. change (Ascii.eqb "(" "(") with true. apply parse_group_escapeRegex. Qed.

(** *** [replace] *)

Lemma matches_at_length lit text :
  matches_at lit text = true -> String.length lit <= String.length text.
Proof.
  revert text. induction lit as [|a lit IH]; intros [|b text]; simpl; try done; try lia.
  intros [_ H]%andb_true_iff. apply IH in H. lia.
Qed.

Lemma string_drop_nil n : string_drop n EmptyString = EmptyString.
Proof. by destruct n. Qed.

Lemma string_drop_add n m s : string_drop (n + m) s = string_drop m (string_drop n s).
Proof.
  revert s. induction n as [|n IH]; intros s; simpl; [done|].
  destruct s; [by rewrite string_drop_nil | apply IH].
Qed.

Lemma length_string_drop n s : String.length (string_drop n s) = String.length s - n.
Proof.
  revert s. induction n as [|n IH]; intros [|c s]; simpl; try lia. apply IH.
Qed.

Lemma replace_from_skip a lit k text :
  replace_from (String a lit) k text = replace (String a lit) (string_drop k text).
Proof.
  revert text. induction k as [|k IH]; intros text; [done|].
  destruct text as [|c text]; [done|]. simpl. apply IH.
Qed.

Lemma replace_nil a lit : replace (String a lit) EmptyString = EmptyString.
Proof. reflexivity. Qed.

Lemma replace_no_match lit c text :
  matches_at lit (String c text) = false ->
  replace lit (String c text) = String c (replace lit text).
Proof. unfold replace. cbn [replace_from]. by intros ->. Qed.

Lemma replace_match a lit text :
  matches_at (String a lit) text = true ->
  replace (String a lit) text
  = mark (substring 0 (String.length (String a lit)) text)
    +:+ replace (String a lit) (string_drop (String.length (String a lit)) text).
Proof.
  intros H. destruct text as [|c text]; [done|].
  unfold replace at 1. cbn [replace_from]. rewrite H.
  by rewrite replace_from_skip.
Qed.

(** With nothing to find the text is left as it is. *)
Lemma replace_none a lit text :
  (forall i, occurs_at (String a lit) text i = false) ->
  replace (String a lit) text = text.
Proof.
  induction text as [|c text IH]; intros H; [done|].
  rewrite replace_no_match by apply (H 0). f_equal. apply IH.
  intros i. apply (H (S i)).
Qed.

Lemma substring_0_S n c s : substring 0 (S n) (String c s) = String c (substring 0 n s).
Proof. reflexivity. Qed.

Lemma substring_S n m c s : substring (S n) m (String c s) = substring n m s.
Proof. reflexivity. Qed.

(** The text up to the first occurrence is kept, the occurrence is
    wrapped, and the replacement goes on after it. *)
Lemma replace_first a lit text i :
  let q := String a lit in
  occurs_at q text i = true ->
  (forall j, j < i -> occurs_at q text j = false) ->
  replace q text
  = substring 0 i text +:+ "<mark>" +:+ substring i (String.length q) text
    +:+ "</mark>" +:+ replace q (string_drop (i + String.length q) text).
Proof.
  intros q. subst q. revert text. induction i as [|i IH]; intros text Hi Hlt.
  - unfold occurs_at in Hi. simpl in Hi. rewrite replace_match by done.
    unfold mark. rewrite !append_assoc.
    destruct text; reflexivity.
  - destruct text as [|c text]; [discriminate Hi|].
    rewrite replace_no_match by (apply (Hlt 0); lia).
    rewrite (IH text).
    + reflexivity.
    + exact Hi.
    + intros j Hj. apply (Hlt (S j)). lia.
Qed.

Lemma first_occurrence q text :
  (forall i, occurs_at q text i = false)
  \/ exists i, occurs_at q text i = true /\ forall j, j < i -> occurs_at q text j = false.
Proof.
  induction text as [|c text IH].
  - destruct (occurs_at q EmptyString 0) eqn:E.
    + right. exists 0. split; [done | lia].
    + left. intros i. unfold occurs_at in *. by rewrite string_drop_nil.
  - destruct (occurs_at q (String c text) 0) eqn:E.
    + right. exists 0. split; [done | lia].
    + destruct IH as [Hnone | (i & Hi & Hlt)].
      * left. intros [|i]; [done | apply Hnone].
      * right. exists (S i). split; [exact Hi|].
        intros [|j] Hj; [done | apply Hlt; lia].
Qed.

Lemma replace_Marked a lit text :
  Marked (String a lit) text (replace (String a lit) text).
Proof.
  remember (String.length text) as n eqn:Hn. revert text Hn.
  induction n as [n IH] using lt_wf_ind. intros text ->.
  destruct (first_occurrence (String a lit) text) as [Hnone | (i & Hi & Hlt)].
  - rewrite replace_none by done. by constructor.
  - rewrite (replace_first a lit text i Hi Hlt).
    apply Marked_next; [done | done |].
    eapply IH; [|reflexivity].
    rewrite length_string_drop.
    unfold occurs_at in Hi. apply matches_at_length in Hi.
    rewrite length_string_drop in Hi. simpl in *. lia.
Qed.

End HighlightFacts.

(** The pattern is always one that [RegExp] reads: [highlight] always
    returns. *)
Lemma highlight_total text query : is_Some (highlight text query).
Proof.
  unfold highlight. destruct (negb (truthy query)); [by eexists|].
  cbv zeta. rewrite RegExp_escapeRegex. by eexists.
Qed.

(** A query of white space only is trimmed to the empty string, which is
    found, and wrapped, at every position: the white space of the text is
    not what is marked. *)
Example highlight_blank_query :
  highlight "a b" " " = Some "<mark></mark>a<mark></mark> <mark></mark>b<mark></mark>".
Proof. reflexivity. Qed.

(** Occurrences are taken from the left and do not overlap. *)
Example highlight_overlap : highlight "aaa" "aa" = Some "<mark>aa</mark>a".
Proof. reflexivity. Qed.

(** The query is matched in the escaped text, entities included. *)
Example highlight_entity : highlight "a&b" "AMP" = Some "a&<mark>amp</mark>;b".
Proof. reflexivity. Qed.

(** C8, the counterexample: escaped text is escaped again, so
    [highlight] of [escapeHtml(text)] and the empty query is not
    [escapeHtml(text)] for the text
    "&". *)
Lemma highlight_escapes_again :
  highlight (escapeHtml "&") EmptyString = Some "&amp;amp;"
  /\ highlight (escapeHtml "&") EmptyString <> Some (escapeHtml "&").
Proof. split; [reflexivity | discriminate]. Qed.

(** C8 (amended): with an empty query [highlight] returns the escaped text,
    no marker inserted; on text that is escaped already it escapes again, so
    [highlight] of [escapeHtml(text)] and the empty query is
    [escapeHtml(text)] exactly when
    [text] has none of the characters [escapeHtml] rewrites; for a query
    whose trimmed form is not empty the pattern is read and the result
    is the escaped text in which the occurrences of the lower-cased trimmed
    query, compared as the [i] flag of the pattern compares, are wrapped in
    [<mark>] markers, from the left to the end and without overlap. *)
Theorem highlight_spec (text query : string) :
  highlight text EmptyString = Some (escapeHtml text)
  /\ highlight (escapeHtml text) EmptyString = Some (escapeHtml (escapeHtml text))
  /\ (highlight (escapeHtml text) EmptyString = Some (escapeHtml text)
      <-> plain text = true)
  /\ (plain text = true -> escapeHtml text = text)
  /\ (trim query <> EmptyString ->
      exists out, highlight text query = Some out
                  /\ Marked (toLowerCase (trim query)) (escapeHtml text) out).
Proof.
  split; [reflexivity|]. split; [reflexivity|]. split; [|split].
  - change (highlight (escapeHtml text) EmptyString)
      with (Some (escapeHtml (escapeHtml text))).
    rewrite <- escapeHtml_twice. split; [by intros [= ->] | by intros ->].
  - apply escapeHtml_plain.
  - intros Hq. unfold highlight.
    assert (Htruthy : truthy query = true).
    { apply truthy_true. intros ->. by apply Hq. }
    rewrite Htruthy. cbn [negb]. cbv zeta. rewrite RegExp_escapeRegex.
    eexists. split; [reflexivity|].
    destruct (toLowerCase (trim query)) as [|a lit] eqn:E.
    + exfalso. apply Hq. by apply toLowerCase_nil.
    + apply replace_Marked.
Qed.

Lemma highlight_spec_witness :
  exists out,
    highlight "Midnight Run" " N " = Some out
    /\ Marked "n" (escapeHtml "Midnight Run") out.
Proof.
  destruct (highlight_spec "Midnight Run" " N ") as (_ & _ & _ & _ & H).
  apply H. vm_compute. discriminate.
Defined.

(** * Further properties *)

(** ** The query evaluator, against the catalog *)

Import SearchSpec.

Section ClosedForm.

Lemma map_slice {A B} (f : A -> B) (a b : Z) (l : list A) :
  map f (slice a b l) = slice a b (map f l).
Proof. unfold slice. by rewrite length_map, fmap_take, fmap_drop. Qed.

Lemma map_List_filter {A B} (f : A -> B) (P : A -> bool) (P' : B -> bool) (l : list A) :
  (forall x, x ∈ l -> P x = P' (f x)) ->
  map f (List.filter P l) = List.filter P' (map f l).
Proof.
  induction l as [|x l IH]; intros H; simpl; [done|].
  rewrite <- (H x) by left. rewrite <- IH by (intros; apply H; by right).
  by destruct (P x).
Qed.

Lemma map_insert_sorted {A B} (f : A -> B) cmp cmp' x (l : list A) :
  (forall y, y ∈ l -> cmp x y = cmp' (f x) (f y)) ->
  map f (insert_sorted cmp x l) = insert_sorted cmp' (f x) (map f l).
Proof.
  induction l as [|y l IH]; intros H; simpl; [done|].
  rewrite <- (H y) by left. destruct (cmp x y <=? 0)%Z; simpl; [done|].
  rewrite IH; [done|]. intros; apply H; by right.
Qed.

Lemma map_sort {A B} (f : A -> B) cmp cmp' (l : list A) :
  (forall x y, x ∈ l -> y ∈ l -> cmp x y = cmp' (f x) (f y)) ->
  map f (sort cmp l) = sort cmp' (map f l).
Proof.
  induction l as [|x l IH]; intros H; [done|].
  simpl map. rewrite !sort_cons, <- IH by (intros; apply H; by right).
  apply map_insert_sorted. intros y Hy. apply H; [left|].
  right. by apply (elem_of_sort cmp l y).
Qed.

Lemma entry_track_facts st index q m :
  index_ok st index -> m ∈ idx_tracks index ->
  track_matches q m = record_matches q (te_original m)
  /\ track_score q m = record_score q (te_original m).
Proof.
  intros Hok Hm. pose proof (ok_tracks _ _ Hok) as Hproj.
  rewrite Forall_forall in Hproj. specialize (Hproj m Hm).
  rewrite track_score_points. unfold track_matches, record_matches, record_score.
  rewrite Hproj. cbn [index_track te_title te_artist te_album te_original]. done.
Qed.

Lemma entry_album_facts st index q m :
  index_ok st index -> m ∈ idx_albums index ->
  album_matches q m = album_record_matches q (ae_original m)
  /\ album_score q m = album_record_score q (ae_original m).
Proof.
  intros Hok Hm. pose proof (ok_albums _ _ Hok) as Hproj.
  rewrite Forall_forall in Hproj. specialize (Hproj m Hm).
  rewrite album_score_points. unfold album_matches, album_record_matches, album_record_score.
  rewrite Hproj. cbn [index_album ae_title ae_artist ae_original]. done.
Qed.

(** The ranked originals, from the originals of the index. *)
Lemma ranked_track_originals st index q h :
  index_ok st index ->
  map te_original (fst (rank_tracks q index h))
  = sort (descending_by (record_score q))
         (List.filter (record_matches q) (map te_original (idx_tracks index))).
Proof.
  intros Hok. rewrite (rank_tracks_sorted st) by done.
  rewrite (map_sort te_original _ (descending_by (record_score q))).
  - f_equal. apply map_List_filter. intros m Hm.
    by destruct (entry_track_facts st index q m Hok Hm).
  - intros x y [Hx _]%elem_of_List_filter [Hy _]%elem_of_List_filter.
    unfold descending_by.
    destruct (entry_track_facts st index q x Hok Hx) as [_ ->].
    by destruct (entry_track_facts st index q y Hok Hy) as [_ ->].
Qed.

Lemma ranked_album_originals st index q h :
  index_ok st index ->
  map ae_original (fst (rank_albums q index h))
  = sort (descending_by (album_record_score q))
         (List.filter (album_record_matches q) (map ae_original (idx_albums index))).
Proof.
  intros Hok. rewrite (rank_albums_sorted st) by done.
  rewrite (map_sort ae_original _ (descending_by (album_record_score q))).
  - f_equal. apply map_List_filter. intros m Hm.
    by destruct (entry_album_facts st index q m Hok Hm).
  - intros x y [Hx _]%elem_of_List_filter [Hy _]%elem_of_List_filter.
    unfold descending_by.
    destruct (entry_album_facts st index q x Hok Hx) as [_ ->].
    by destruct (entry_album_facts st index q y Hok Hy) as [_ ->].
Qed.

Lemma buildIndex_artists catalog st index :
  searchIndex (buildIndex catalog st) = Some index ->
  idx_artists index = artist_names catalog.
Proof.
  rewrite buildIndex_eq. cbn [searchIndex]. intros [= <-]. cbn [idx_artists].
  rewrite set_add_first_encounters. simpl. unfold artist_names.
  induction (first_encounters _) as [|x l IH]; simpl; [done|]. by rewrite IH.
Qed.

(** The results of a search on a state with a well-formed index. *)
Lemma search_results_of_index st index query options :
  searchIndex st = Some index -> index_ok st index ->
  trim (toLowerCase query) <> EmptyString ->
  let q := trim (toLowerCase query) in
  let limit := or_default (opt_limit options) 50 in
  fst (search query options st)
  = mkResults
      (slice 0 limit
         (sort (descending_by (record_score q))
               (List.filter (record_matches q) (map te_original (idx_tracks index)))))
      (slice 0 limit
         (sort (descending_by (album_record_score q))
               (List.filter (album_record_matches q) (map ae_original (idx_albums index)))))
      (match_artists q index).
Proof.
  intros Hidx Hok Hq q limit.
  rewrite (search_unfold st index query options Hidx Hq). cbn [fst].
  fold q limit. rewrite !map_slice.
  by rewrite (ranked_track_originals st), (ranked_album_originals st).
Qed.

End ClosedForm.

Lemma catalog_closed_form (catalog : Catalog) (st0 : State)
    (history : list (string * Options)) (query : string) (options : Options) :
  trim (toLowerCase query) <> EmptyString ->
  fst (search query options (searches history (buildIndex catalog st0)))
  = mkResults (expected_tracks (trim (toLowerCase query))
                               (or_default (opt_limit options) 50) catalog)
              (expected_albums (trim (toLowerCase query))
                               (or_default (opt_limit options) 50) catalog)
              (expected_artists (trim (toLowerCase query)) catalog).
Proof.
  intros Hq.
  destruct (buildIndex_ok catalog st0) as (index & Hidx0 & _).
  set (st := searches history (buildIndex catalog st0)).
  assert (Hidx : searchIndex st = Some index) by (unfold st; by rewrite searches_index).
  assert (Hb : built st) by (apply built_searches, built_buildIndex).
  destruct (built_index_ok st Hb) as (index' & Hidx' & Hok).
  assert (index' = index) as -> by congruence.
  rewrite (search_results_of_index st index query options Hidx Hok Hq).
  destruct (buildIndex_originals _ _ _ Hidx0) as [-> ->].
  unfold match_artists. rewrite (buildIndex_artists _ _ _ Hidx0). reflexivity.
Qed.

(** X1: after [buildIndex(catalog)], and whatever searches came in between
    and whatever index was there before, a search with a non-empty trimmed
    query [q] returns: the catalog's tracks that match [q], sorted by score,
    highest first and equal scores in catalog order, cut at the limit; the
    albums likewise; and the first ten artist names of the catalog that
    contain [q].  The answer is a function of the catalog, the query and the
    limit alone. *)
Theorem search_answers_from_catalog (catalog : Catalog) (st0 : State)
    (history : list (string * Options)) (query : string) (options : Options) :
  trim (toLowerCase query) <> EmptyString ->
  let q := trim (toLowerCase query) in
  let limit := or_default (opt_limit options) 50 in
  fst (search query options (searches history (buildIndex catalog st0)))
  = mkResults (expected_tracks q limit catalog)
              (expected_albums q limit catalog)
              (expected_artists q catalog).
Proof. intros Hq q limit. by apply catalog_closed_form. Qed.

Lemma search_answers_from_catalog_witness :
  fst (search "Moon" no_options (searches [("blue", no_options)] moon_state))
  = mkResults [moonlight; blue_moon] [] [].
Proof.
  refine (search_answers_from_catalog moon_catalog (mkState None ∅ 2)
            [("blue", no_options)] "Moon" no_options _).
  vm_compute. discriminate.
Defined.

Section ResultFacts.

Lemma search_artists_from_index st index query options artist :
  searchIndex st = Some index ->
  artist ∈ res_artists (fst (search query options st)) ->
  artist ∈ idx_artists index
  /\ includes (toLowerCase artist) (trim (toLowerCase query)) = true.
Proof.
  intros Hidx. unfold search. rewrite Hidx.
  destruct (negb _); [by intros ?%elem_of_nil|].
  unfold rank_tracks, rank_albums, match_artists. cbn [fst res_artists].
  intros Hin. eapply elem_of_sublist in Hin; [|apply slice_sublist].
  by apply elem_of_List_filter in Hin.
Qed.

Lemma NoDup_sublist {A} (l1 l2 : list A) : l1 `sublist_of` l2 -> NoDup l2 -> NoDup l1.
Proof. intros Hs Hn. by eapply sublist_NoDup. Qed.

Lemma List_filter_sublist {A} (P : A -> bool) (l : list A) : List.filter P l `sublist_of` l.
Proof.
  induction l as [|x l IH]; simpl; [done|].
  destruct (P x); [by apply sublist_skip | by apply sublist_cons].
Qed.

Lemma descending_lookup_le {A} (key : A -> Z) (l : list A) (i j : nat) x y :
  descending key l -> (i < j)%nat -> l !! i = Some x -> l !! j = Some y ->
  (key y <= key x)%Z.
Proof.
  intros Hl. revert i j. induction Hl as [|z l Hl IH Hz]; intros i j Hij Hi Hj.
  - by rewrite lookup_nil in Hi.
  - destruct j as [|j]; [lia|]. destruct i as [|i]; simpl in *.
    + injection Hi as ->. rewrite Forall_forall in Hz. apply Hz.
      by eapply list_elem_of_lookup_2.
    + apply (IH i j); [lia | done | done].
Qed.

Lemma List_filter_app {A} (P : A -> bool) (l1 l2 : list A) :
  List.filter P (l1 ++ l2) = List.filter P l1 ++ List.filter P l2.
Proof. induction l1 as [|x l1 IH]; simpl; [done|]. destruct (P x); simpl; by rewrite IH. Qed.

Lemma List_filter_take_prefix {A} (P : A -> bool) (k : nat) (l : list A) :
  List.filter P (take k l) `prefix_of` List.filter P l.
Proof.
  rewrite <- (take_drop k l) at 2. rewrite List_filter_app. by apply prefix_app_r.
Qed.

End ResultFacts.

(** X2: a search returns nothing that does not match.  Every track returned
    is a track of the catalog whose lower-cased title, artist or album
    contains the query [q]; every album returned is an album of the catalog
    whose lower-cased title or artist contains [q]; every artist returned is
    an artist name of the catalog that contains [q], and no artist is
    returned twice. *)
Theorem search_returns_matches_only (catalog : Catalog) (st0 : State)
    (history : list (string * Options)) (query : string) (options : Options) :
  let q := trim (toLowerCase query) in
  let res := fst (search query options (searches history (buildIndex catalog st0))) in
  (forall t, t ∈ res_tracks res ->
     t ∈ items (cat_tracks catalog) /\ record_matches q t = true)
  /\ (forall a, a ∈ res_albums res ->
        a ∈ items (cat_albums catalog) /\ album_record_matches q a = true)
  /\ (forall artist, artist ∈ res_artists res ->
        artist ∈ artist_names catalog /\ includes (toLowerCase artist) q = true)
  /\ NoDup (res_artists res).
Proof.
  intros q res.
  destruct (buildIndex_ok catalog st0) as (index & Hidx0 & _).
  set (st := searches history (buildIndex catalog st0)) in *.
  assert (Hidx : searchIndex st = Some index) by (unfold st; by rewrite searches_index).
  assert (Hb : built st) by (apply built_searches, built_buildIndex).
  destruct (built_index_ok st Hb) as (index' & Hidx' & Hok).
  assert (index' = index) as -> by congruence.
  destruct (buildIndex_originals _ _ _ Hidx0) as [Hot Hoa].
  pose proof (buildIndex_artists _ _ _ Hidx0) as Har.
  split; [|split; [|split]].
  - intros t Ht.
    destruct (search_tracks_from_index st index query options t Hidx Ht) as (m & Hm & Hmatch & <-).
    split; [rewrite <- Hot; apply list_elem_of_fmap; eauto|].
    by destruct (entry_track_facts st index q m Hok Hm) as [<- _].
  - intros a Ha.
    destruct (search_albums_from_index st index query options a Hidx Ha) as (m & Hm & Hmatch & <-).
    split; [rewrite <- Hoa; apply list_elem_of_fmap; eauto|].
    by destruct (entry_album_facts st index q m Hok Hm) as [<- _].
  - intros artist Ha. rewrite <- Har.
    by apply (search_artists_from_index st index query options).
  - unfold res, search. rewrite Hidx. destruct (negb _); [constructor|].
    unfold rank_tracks, rank_albums, match_artists. cbn [fst res_artists].
    eapply NoDup_sublist; [apply slice_sublist|].
    eapply NoDup_sublist; [apply List_filter_sublist|].
    rewrite Har. apply NoDup_first_encounters.
Qed.

(** X3: the tracks come back best first, and ties keep the order of the
    catalog: of two returned tracks the later one never has the higher
    score, and the returned tracks of any one score are, in order, the first
    of the catalog's matching tracks of that score. *)
Theorem search_order (catalog : Catalog) (st0 : State)
    (history : list (string * Options)) (query : string) (options : Options) :
  let q := trim (toLowerCase query) in
  let res := fst (search query options (searches history (buildIndex catalog st0))) in
  (forall (i j : nat) t1 t2,
     (i < j)%nat -> res_tracks res !! i = Some t1 -> res_tracks res !! j = Some t2 ->
     (record_score q t2 <= record_score q t1)%Z)
  /\ (forall k : Z,
        List.filter (fun t => (record_score q t =? k)%Z) (res_tracks res)
        `prefix_of`
        List.filter (fun t => (record_score q t =? k)%Z)
                    (List.filter (record_matches q) (items (cat_tracks catalog)))).
Proof.
  intros q res.
  destruct (decide (q = EmptyString)) as [Hq | Hq].
  - assert (Hres : res = mkResults [] [] []).
    { unfold res, search. destruct (searchIndex _); [|done]. fold q. by rewrite Hq. }
    rewrite Hres. cbn [res_tracks].
    split; [intros i j t1 t2 _ Hi; by rewrite lookup_nil in Hi|].
    intros k. apply prefix_nil.
  - assert (Hres : res_tracks res
                   = expected_tracks q (or_default (opt_limit options) 50) catalog).
    { unfold res. by rewrite (catalog_closed_form catalog st0 history query options Hq). }
    rewrite Hres. unfold expected_tracks.
    destruct (slice_0_prefix (or_default (opt_limit options) 50)
                (sort (descending_by (record_score q))
                      (List.filter (record_matches q) (items (cat_tracks catalog)))))
      as (n & -> & _).
    split.
    + intros i j t1 t2 Hij [Hi _]%lookup_take_Some [Hj _]%lookup_take_Some.
      eapply (descending_lookup_le (record_score q)); eauto. apply sort_descending.
    + intros k. etransitivity; [apply List_filter_take_prefix|].
      by rewrite sort_stable.
Qed.

(** ** Escaping and highlighting *)

Import HighlightSpec.

Section EscapeFacts.

Lemma chars_append a b : chars (a +:+ b) = chars a ++ chars b.
Proof. induction a as [|x a IH]; simpl; [done|]. unfold chars in *. simpl. by rewrite IH. Qed.

Lemma escape_char_no_markup c x :
  x ∈ chars (escape_char c) ->
  x <> "<"%char /\ x <> ">"%char /\ code x <> 160%N.
Proof.
  unfold escape_char.
  destruct (Ascii.eqb_spec c "&"); [|destruct (Ascii.eqb_spec c "<");
    [|destruct (Ascii.eqb_spec c ">"); [|destruct (N.eqb_spec (code c) 160)]]];
    cbn [chars list_ascii_of_string]; intros Hx;
    repeat (apply elem_of_cons in Hx as [-> | Hx]); try (by apply elem_of_nil in Hx);
    try (repeat split; discriminate).
  repeat split; congruence.
Qed.

Lemma escapeHtml_chars text x :
  x ∈ chars (escapeHtml text) ->
  x <> "<"%char /\ x <> ">"%char /\ code x <> 160%N.
Proof.
  induction text as [|c text IH]; simpl.
  - by intros ?%elem_of_nil.
  - rewrite chars_append, elem_of_app. intros [H | H]; [by eapply escape_char_no_markup | auto].
Qed.

Lemma no_lt_escapeHtml text : no_lt (escapeHtml text) = true.
Proof.
  unfold no_lt. apply forallb_forall. intros x Hx%list_elem_of_In.
  destruct (escapeHtml_chars text x Hx) as [H _].
  by destruct (Ascii.eqb_spec x "<").
Qed.

Lemma code_inj c1 c2 : code c1 = code c2 -> c1 = c2.
Proof.
  unfold code. intros H. rewrite <- (ascii_N_embedding c1), <- (ascii_N_embedding c2).
  by rewrite H.
Qed.

Lemma escapeHtml_nil text : escapeHtml text = EmptyString -> text = EmptyString.
Proof.
  intros H. pose proof (length_escapeHtml text) as Hl. rewrite H in Hl.
  destruct text; [done | simpl in Hl; lia].
Qed.

(** Two characters whose escaped forms start the same way are the same. *)
Lemma escape_char_inj c1 c2 s1 s2 :
  escape_char c1 +:+ s1 = escape_char c2 +:+ s2 -> c1 = c2 /\ s1 = s2.
Proof.
  unfold escape_char.
  destruct (Ascii.eqb_spec c1 "&") as [-> | H1a];
    [|destruct (Ascii.eqb_spec c1 "<") as [-> | H1l];
      [|destruct (Ascii.eqb_spec c1 ">") as [-> | H1g];
        [|destruct (N.eqb_spec (code c1) 160) as [H1n | H1n]]]];
  (destruct (Ascii.eqb_spec c2 "&") as [-> | H2a];
    [|destruct (Ascii.eqb_spec c2 "<") as [-> | H2l];
      [|destruct (Ascii.eqb_spec c2 ">") as [-> | H2g];
        [|destruct (N.eqb_spec (code c2) 160) as [H2n | H2n]]]]);
  simpl; intros H; try discriminate H; try (injection H as H; auto; fail);
  try (injection H; intros; subst; congruence).
  - injection H as H. split; [|done]. apply code_inj. by rewrite H1n, H2n.
Qed.

End EscapeFacts.

Section UnmarkFacts.

Lemma append_nil_r_string (a : string) : a +:+ EmptyString = a.
Proof. induction a as [|x a IH]; simpl; [done | by rewrite IH]. Qed.

Lemma no_lt_cons c s : no_lt (String c s) = negb (Ascii.eqb c "<") && no_lt s.
Proof. reflexivity. Qed.

Lemma unmark_cons c s :
  Ascii.eqb c "<" = false -> unmark (String c s) = String c (unmark s).
Proof.
  intros H. unfold unmark. cbn [unmark_from startsWith].
  rewrite (Ascii.eqb_sym "<" c), H. reflexivity.
Qed.

Lemma unmark_plain m s : no_lt m = true -> unmark (m +:+ s) = m +:+ unmark s.
Proof.
  induction m as [|c m IH]; [done|]. rewrite no_lt_cons.
  intros [Hc Hm]%andb_true_iff. apply negb_true_iff in Hc.
  simpl. rewrite unmark_cons by done. by rewrite IH.
Qed.

Lemma unmark_open s : unmark ("<mark>" +:+ s) = unmark s.
Proof.
  unfold unmark. cbn [append unmark_from startsWith Ascii.eqb Bool.eqb andb].
  by rewrite startsWith_nil.
Qed.

Lemma unmark_close s : unmark ("</mark>" +:+ s) = unmark s.
Proof.
  unfold unmark. cbn [append unmark_from startsWith Ascii.eqb Bool.eqb andb].
  by rewrite startsWith_nil.
Qed.

Lemma unmark_mark m s : no_lt m = true -> unmark (mark m +:+ s) = m +:+ unmark s.
Proof.
  intros Hm. unfold mark. rewrite !append_assoc, unmark_open, unmark_plain by done.
  by rewrite unmark_close.
Qed.

Lemma substring_string_drop n s : substring 0 n s +:+ string_drop n s = s.
Proof.
  revert s. induction n as [|n IH]; intros [|c s]; simpl; try done. by rewrite IH.
Qed.

Lemma no_lt_append a b : no_lt (a +:+ b) = no_lt a && no_lt b.
Proof. unfold no_lt. by rewrite chars_append, forallb_app. Qed.

Lemma no_lt_split n s :
  no_lt s = true -> no_lt (substring 0 n s) = true /\ no_lt (string_drop n s) = true.
Proof.
  intros H. rewrite <- (substring_string_drop n s), no_lt_append in H.
  by apply andb_true_iff in H.
Qed.

(** Taking the markers out of what [replace] returns gives the text back. *)
Lemma unmark_replace lit text : no_lt text = true -> unmark (replace lit text) = text.
Proof.
  destruct lit as [|a lit].
  - induction text as [|c text IH]; [done|]. rewrite no_lt_cons.
    intros [Hc Ht]%andb_true_iff. apply negb_true_iff in Hc.
    unfold replace. cbn [replace_from matches_at].
    change (mark EmptyString +:+ String c (replace_from EmptyString 0 text))
      with (mark EmptyString +:+ String c (replace EmptyString text)).
    rewrite unmark_mark by done. simpl. rewrite unmark_cons by done. by rewrite IH.
  - remember (String.length text) as n eqn:Hn. revert text Hn.
    induction n as [n IH] using lt_wf_ind. intros text -> Hlt.
    destruct text as [|c text]; [done|].
    destruct (matches_at (String a lit) (String c text)) eqn:Hm.
    + rewrite replace_match by done.
      destruct (no_lt_split (String.length (String a lit)) _ Hlt) as [H1 H2].
      rewrite unmark_mark by done.
      rewrite (IH (String.length (string_drop (String.length (String a lit)) (String c text))));
        [apply substring_string_drop | | reflexivity | done].
      rewrite length_string_drop. simpl. lia.
    + rewrite replace_no_match by done. rewrite no_lt_cons in Hlt.
      apply andb_true_iff in Hlt as [Hc Ht]. apply negb_true_iff in Hc.
      rewrite unmark_cons by done. f_equal.
      apply (IH (String.length text)); [simpl; lia | reflexivity | done].
Qed.

End UnmarkFacts.

(** X4: what [escapeHtml] returns has no [<], no [>] and no non-breaking
    space (U+00A0) in it, whatever the text. *)
Theorem escapeHtml_no_angle_bracket (text : string) :
  Forall (fun c => c <> "<"%char /\ c <> ">"%char /\ code c <> 160%N)
         (chars (escapeHtml text)).
Proof. apply Forall_forall. apply escapeHtml_chars. Qed.

(** X5: [escapeHtml] loses nothing: two texts with the same escaped form are
    the same text. *)
Theorem escapeHtml_injective (a b : string) :
  escapeHtml a = escapeHtml b -> a = b.
Proof.
  revert b. induction a as [|c a IH]; intros b H.
  - symmetry. apply escapeHtml_nil. done.
  - destruct b as [|d b]; [by apply escapeHtml_nil in H|].
    simpl in H. apply escape_char_inj in H as [-> H]. f_equal. by apply IH.
Qed.

Lemma escapeHtml_injective_witness : "a<b & c" = "a<b & c".
Proof. apply (escapeHtml_injective "a<b & c" "a<b & c"). reflexivity. Defined.

(** X6: highlighting changes nothing of what is read: for every text and
    every query [highlight] returns, and once the markers are taken out of
    what it returns, the escaped text is left, character for character. *)
Theorem highlight_keeps_text (text query : string) :
  unmark <$> highlight text query = Some (escapeHtml text).
Proof.
  unfold highlight. destruct (negb (truthy query)).
  - simpl. f_equal. rewrite <- (append_nil_r_string (escapeHtml text)) at 1.
    rewrite unmark_plain by apply no_lt_escapeHtml. apply append_nil_r_string.
  - cbv zeta. rewrite RegExp_escapeRegex. simpl. f_equal.
    apply unmark_replace, no_lt_escapeHtml.
Qed.

Section PatternFacts.





End PatternFacts.



(** ** Debounced dispatch: spaced calls, and counting *)

Import DebounceSpec.

(** X8: calls that come at least their delay apart are all executed, in
    order, each with its own query and the results of its own search; only a
    call still pending at the start is dropped, by the first new call. *)
Theorem debounce_spaced_calls_all_run (w : World) (cs : list (Task * Z)) :
  single_slot w ->
  Forall spaced cs ->
  calls (run (burst cs) w)
  = calls w ++ executed cs (search_state w)
  /\ (cs <> [] -> timers (run (burst cs) w) = ∅).
Proof.
  intros Hs Hcs.
  assert (Hgen : forall cs w, single_slot w -> Forall spaced cs -> cs <> [] ->
            calls (run (burst cs) w) = calls w ++ executed cs (search_state w)
            /\ timers (run (burst cs) w) = ∅).
  { clear. intros cs. induction cs as [|[t dt] cs IH]; intros w Hs Hcs Hne; [done|].
    apply Forall_cons in Hcs as [Hdt Hcs]. unfold spaced in Hdt. cbn [fst snd] in Hdt.
    change (run (burst ((t, dt) :: cs)) w)
      with (run (burst cs) (wait dt (debouncedSearch (task_query t) (task_callback t)
                                                     (task_options t) w))).
    rewrite debouncedSearch_pending by done.
    erewrite wait_fires; [|reflexivity|simpl; unfold delay_of in *; lia].
    cbn [search_state debounceTimer next_timer now calls task].
    destruct cs as [|c cs].
    - simpl. done.
    - match goal with
      | |- context [run (burst (c :: cs)) ?x] =>
          destruct (IH x) as [H1 H2]; [by left | done | done |]
      end.
      rewrite H1, H2. cbn [calls search_state executed fst].
      by rewrite <- app_assoc. }
  destruct cs as [|c cs]; [simpl; by rewrite app_nil_r|].
  destruct (Hgen (c :: cs) w Hs Hcs ltac:(done)) as [H1 H2]. by rewrite H1.
Qed.

Lemma debounce_spaced_calls_all_run_witness :
  calls (run (burst [(mkTask "mid" 7 no_options, 200%Z); (mkTask "doe" 8 no_options, 250%Z)])
             (new_world scenario_state))
  = [mkCall 7 (mkResults [midnight_run] [] []) "mid";
     mkCall 8 (mkResults [midnight_run] [] ["Jane Doe"]) "doe"].
Proof.
  destruct (debounce_spaced_calls_all_run (new_world scenario_state)
              [(mkTask "mid" 7 no_options, 200%Z); (mkTask "doe" 8 no_options, 250%Z)])
    as [H _].
  - left. reflexivity.
  - repeat constructor; discriminate.
  - exact H.
Defined.

Section Counting.

Lemma accounted_step ts w ev :
  single_slot w -> accounted ts w -> accounted (ts ++ requests [ev]) (step w ev).
Proof.
  intros Hs (Hn & Hc & Ht). destruct ev as [t | | dt]; cbn [requests step].
  - rewrite debouncedSearch_pending by done. split; [|split]; cbn [calls timers].
    + rewrite map_size_singleton, length_app. simpl. lia.
    + eapply Forall_impl; [exact Hc|]. simpl. intros c (t' & Hin & Ha).
      exists t'. split; [|done]. apply elem_of_app. by left.
    + intros h tm Hl. apply lookup_singleton_Some in Hl as [_ <-]. cbn [task].
      apply elem_of_app. right. left.
  - rewrite app_nil_r. destruct (cancelSearch_rest w) as [Hcalls _].
    split; [|split].
    + rewrite Hcalls, cancelSearch_timers, map_size_empty by done. lia.
    + by rewrite Hcalls.
    + intros h tm. rewrite cancelSearch_timers by done. by rewrite lookup_empty.
  - rewrite app_nil_r. destruct Hs as [He | (h & tm & Hh & Hm)].
    + rewrite wait_idle by done. split; [|split]; cbn [calls timers].
      * rewrite map_size_empty. lia.
      * done.
      * intros h tm. by rewrite lookup_empty.
    + destruct (Z.le_gt_cases (due tm) (now w + Z.max dt 0)).
      * rewrite (wait_fires dt w h tm) by done. rewrite Hm, map_size_singleton in Hn.
        split; [|split]; cbn [calls timers].
        -- rewrite map_size_empty, length_app. simpl. lia.
        -- apply Forall_app. split; [done|]. constructor; [|constructor].
           exists (task tm). split; [|done]. apply (Ht h). rewrite Hm.
           apply lookup_singleton_eq.
        -- intros h' tm'. by rewrite lookup_empty.
      * rewrite (wait_early dt w h tm) by done. split; [|split]; cbn [calls timers].
        -- by rewrite <- Hm.
        -- done.
        -- intros h' tm' Hl. apply (Ht h'). by rewrite Hm.
Qed.

Lemma requests_app evs1 evs2 : requests (evs1 ++ evs2) = requests evs1 ++ requests evs2.
Proof.
  induction evs1 as [|[t | | dt] evs1 IH]; simpl; [done | by rewrite IH | done | done].
Qed.

Lemma accounted_run evs ts w :
  single_slot w -> accounted ts w -> accounted (ts ++ requests evs) (run evs w).
Proof.
  revert ts w. induction evs as [|ev evs IH]; intros ts w Hs Ha.
  - simpl. by rewrite app_nil_r.
  - change (run (ev :: evs) w) with (run evs (step w ev)).
    change (ev :: evs) with ([ev] ++ evs). rewrite requests_app, app_assoc.
    apply IH; [by apply step_single_slot | by apply accounted_step].
Qed.

End Counting.

(** X9: whatever calls, cancellations and pauses follow one another from
    the start, the callbacks executed and the one that may still be pending
    are together no more than the calls made, and every callback executed
    is the callback of one of these calls, called with that call's query:
    nothing runs that was not asked for. *)
Theorem debounce_runs_only_requests (st : State) (evs : list Event) :
  let w := run evs (new_world st) in
  (length (calls w) + size (timers w) <= length (requests evs))%nat
  /\ Forall (fun c => exists t, t ∈ requests evs /\ answers t c) (calls w).
Proof.
  intros w.
  destruct (accounted_run evs [] (new_world st)) as (H1 & H2 & _).
  - by left.
  - split; [|split]; cbn [calls timers new_world].
    + rewrite map_size_empty. simpl. lia.
    + constructor.
    + intros h tm. by rewrite lookup_empty.
  - done.
Qed.

(** ** Start-up and cache *)

Import Pages.

(** X10: what [setCache] stores, [getCache] gives back for five minutes: with
    a storage that takes writes, the pair cached at time [t] is returned,
    with its time, at every time up to [t + CACHE_DURATION] included, and
    the storage is left as it is; later than that nothing is returned and
    the item is removed.  With a storage that refuses writes [setCache]
    changes nothing. *)
Theorem cache_round_trip (t t' : Z) (c : Catalog) (l : Links) (s : Storage) :
  writable s = true ->
  ((t' - t <= CACHE_DURATION)%Z ->
     getCache t' (setCache t c l s) = (Some (mkCacheEntry c l t), setCache t c l s))
  /\ ((CACHE_DURATION < t' - t)%Z ->
        getCache t' (setCache t c l s) = (None, mkStorage NoItem true)
        /\ forall t'', fst (getCache t'' (snd (getCache t' (setCache t c l s)))) = None)
  /\ (forall s', writable s' = false -> setCache t c l s' = s').
Proof.
  intros Hw. unfold setCache, getCache. rewrite Hw. cbn [item timestamp writable].
  split; [|split].
  - intros H. destruct (Z.ltb_spec CACHE_DURATION (t' - t)); [lia | done].
  - intros H. destruct (Z.ltb_spec CACHE_DURATION (t' - t)); [|lia]. done.
  - intros s' ->. done.
Qed.

Lemma cache_round_trip_witness :
  getCache 300000 (setCache 0 scenario_catalog (mkLinks [] []) (mkStorage NoItem true))
  = (Some (mkCacheEntry scenario_catalog (mkLinks [] []) 0),
     setCache 0 scenario_catalog (mkLinks [] []) (mkStorage NoItem true)).
Proof.
  destruct (cache_round_trip 0 300000 scenario_catalog (mkLinks [] [])
              (mkStorage NoItem true) eq_refl) as [H _].
  apply H. discriminate.
Defined.

Lemma init_initialized env s : isInitialized (snd (init env s)) = true.
Proof.
  unfold init. destruct (isInitialized s) eqn:E; [done|].
  destruct (getCache (time env) (storage s)) as [[data|] st1].
  - reflexivity.
  - destruct (loadJSON (catalog_response env)), (loadJSON (links_response env)); reflexivity.
Qed.

(** X11: [init] does its work once.  A second call, whatever the clock and
    the network then are, returns true and leaves everything as the first
    call left it: nothing is fetched again, also when the first call failed
    to load the catalog and reported so. *)
Theorem init_runs_once (env env' : Env) (s : AppState) :
  init env' (snd (init env s)) = (true, snd (init env s)).
Proof. unfold init at 1. by rewrite init_initialized. Qed.

(** X12: with a cache entry in date [init] does not look at the network: it
    takes the catalog and the links of the entry, builds the index from that
    catalog and reports success, whatever the two requests would have
    answered; the entry is left as it is, its time included. *)
Theorem init_from_cache (env : Env) (s : AppState) (data : CacheEntry) :
  isInitialized s = false ->
  item (storage s) = Entry data ->
  (time env - timestamp data <= CACHE_DURATION)%Z ->
  init env s
  = (true,
     mkAppState (Some (c_catalog data)) (Some (c_links data)) true (storage s)
                (buildIndex (c_catalog data) (search_module s))).
Proof.
  intros Hi Hitem Hdate. unfold init, getCache. rewrite Hi, Hitem.
  destruct (Z.ltb_spec CACHE_DURATION (time env - timestamp data)); [lia|]. reflexivity.
Qed.

Lemma init_from_cache_witness :
  fst (init (mkEnv 1000 NetworkError NetworkError)
            (mkAppState None None false
               (mkStorage (Entry (mkCacheEntry scenario_catalog (mkLinks [] []) 0)) true)
               Search.initial))
  = true.
Proof.
  rewrite (init_from_cache (mkEnv 1000 NetworkError NetworkError)
             (mkAppState None None false
                (mkStorage (Entry (mkCacheEntry scenario_catalog (mkLinks [] []) 0)) true)
                Search.initial)
             (mkCacheEntry scenario_catalog (mkLinks [] []) 0) eq_refl eq_refl).
  - reflexivity.
  - discriminate.
Defined.

(** X13: a first [init] that reports success leaves the search module
    answering from the catalog it assigned: every later search with a
    non-empty trimmed query returns the matching tracks and albums of that
    catalog, ranked and cut at the limit, and its matching artists.  A first
    [init] that reports failure leaves the search module untouched. *)
Theorem init_then_search (env : Env) (s : AppState)
    (history : list (string * Options)) (query : string) (options : Options) :
  isInitialized s = false ->
  trim (toLowerCase query) <> EmptyString ->
  let ok := fst (init env s) in
  let s' := snd (init env s) in
  match catalog s' with
  | Some c =>
      ok = true
      /\ fst (search query options (searches history (search_module s')))
         = mkResults
             (SearchSpec.expected_tracks (trim (toLowerCase query))
                                         (or_default (opt_limit options) 50) c)
             (SearchSpec.expected_albums (trim (toLowerCase query))
                                         (or_default (opt_limit options) 50) c)
             (SearchSpec.expected_artists (trim (toLowerCase query)) c)
  | None => ok = false /\ search_module s' = search_module s
  end.
Proof.
  intros Hi Hq ok s'. unfold ok, s', init. rewrite Hi.
  destruct (getCache (time env) (storage s)) as [[data|] st1]; cbn [fst snd catalog search_module].
  - split; [done|]. by apply catalog_closed_form.
  - destruct (loadJSON (catalog_response env)) as [c|],
             (loadJSON (links_response env)) as [l|]; cbn [fst snd catalog search_module];
      (split; [done|]); try done; by apply catalog_closed_form.
Qed.

Lemma init_then_search_witness :
  fst (search "mid" no_options
         (search_module
            (snd (init (mkEnv 0 (Response true (Some scenario_catalog)) NetworkError)
                       fresh_state))))
  = mkResults [midnight_run] [] [].
Proof.
  pose proof (init_then_search
                (mkEnv 0 (Response true (Some scenario_catalog)) NetworkError)
                fresh_state [] "mid" no_options eq_refl) as H.
  destruct (H ltac:(vm_compute; discriminate)) as [_ H']. exact H'.
Defined.

(** ** Total duration *)

Section TotalDuration.

Variable seconds : Track -> option Z.

Lemma total_seconds_nonneg (ts : list Track) :
  Forall (fun t => forall s, seconds t = Some s -> (0 <= s)%Z) ts ->
  (0 <= total_seconds seconds ts)%Z.
Proof.
  induction 1 as [|t ts Ht _ IH]; [done|]. cbn [total_seconds foldr].
  fold (total_seconds seconds ts).
  destruct (seconds t) as [s|]; simpl; [specialize (Ht s eq_refl)|]; lia.
Qed.

Lemma total_foldl (ts : list Track) (a : Q) (A : Z) :
  (a == inject_Z A)%Q -> (0 <= A)%Z ->
  Forall (fun t => forall s, seconds t = Some s -> (0 <= s)%Z) ts ->
  (A + total_seconds seconds ts < 2 ^ 53)%Z ->
  exists y,
    foldl (fun sum t =>
             number_add sum (if falsy (whole (seconds t)) then Fin 0
                             else to_number (whole (seconds t))))
          (Fin a) ts = Fin y
    /\ (y == inject_Z (A + total_seconds seconds ts))%Q.
Proof.
  revert a A. induction ts as [|t ts IH]; intros a A Ha HA Hts Hlt.
  - exists a. split; [reflexivity|]. cbn [total_seconds foldr]. by rewrite Z.add_0_r.
  - apply Forall_cons in Hts as [Ht Hts]. cbn [total_seconds foldr] in Hlt |- *.
    fold (total_seconds seconds ts) in Hlt |- *.
    pose proof (total_seconds_nonneg ts Hts) as Hrest.
    assert (Hs : (0 <= default 0 (seconds t))%Z).
    { destruct (seconds t) as [s|]; cbn [default]; [by apply Ht | lia]. }
    assert (Hstep : exists y,
              number_add (Fin a) (if falsy (whole (seconds t)) then Fin 0
                                  else to_number (whole (seconds t))) = Fin y
              /\ (y == inject_Z (A + default 0%Z (seconds t)))%Q).
    { destruct (round64_integer (A + default 0 (seconds t))%Z) as (y & Hy & Hyq); [lia|].
      exists y. split; [|done]. rewrite <- Hy.
      destruct (seconds t) as [s|]; cbn [whole falsy default to_number].
      - destruct (Qeq_bool (inject_Z s) 0) eqn:E; cbn [number_add]; apply round64_comp.
        + apply Qeq_bool_iff in E. rewrite inject_Z_plus, Ha, E. reflexivity.
        + by rewrite inject_Z_plus, Ha.
      - cbn [number_add]. apply round64_comp. rewrite inject_Z_plus, Ha. reflexivity. }
    destruct Hstep as (y & Hy & Hyq). cbn [foldl]. rewrite Hy.
    destruct (IH y (A + default 0 (seconds t))%Z Hyq ltac:(lia) Hts ltac:(lia))
      as (y' & Hy' & Hyq').
    exists y'. split; [done|]. rewrite Hyq'. by rewrite Z.add_assoc.
Qed.

(** The floor of a quotient of a whole number below 2^53 is the whole
    quotient. *)
Lemma floor_div_whole (y : Q) (T d : Z) :
  (y == inject_Z T)%Q -> (0 <= T < 2 ^ 53)%Z -> (0 < d)%Z ->
  Math_floor (div (Fin y) (inject_Z d)) = IFin (T / d).
Proof.
  intros Hy HT Hd. cbn [div].
  assert (Hq : (y / inject_Z d == T # Z.to_pos d)%Q).
  { rewrite Hy. unfold Qeq, Qdiv, Qmult, Qinv, inject_Z. cbn [Qnum Qden].
    destruct d as [|d|d]; [lia | | lia]. cbn [Qnum Qden Z.to_pos]. lia. }
  destruct (round64_floor _ T (Z.to_pos d) Hq HT) as (y' & -> & Hfl).
  cbn [Math_floor]. f_equal. rewrite Hfl, Hq. unfold Qfloor. cbn [Qnum Qden].
  by rewrite Z2Pos.id.
Qed.

End TotalDuration.

(** X14: [calculateTotalDuration] on tracks whose durations are missing or
    whole numbers of seconds, none negative, that add up to less than 2^53:
    a missing duration adds nothing, and the whole minutes of the total are
    shown, seconds short of a minute being dropped.  Under an hour it is
    that number of minutes followed by [min]; from an hour on it is the
    whole hours, [hr], and the minutes left, fewer than sixty, [min].  For no
    array and for an empty one it is [0 min]. *)
Theorem calculateTotalDuration_spec (seconds : Track -> option Z) (tracks : list Track) :
  let duration t := whole (seconds t) in
  let T := total_seconds seconds tracks in
  Forall (fun t => forall s, seconds t = Some s -> (0 <= s)%Z) tracks ->
  (T < 2 ^ 53)%Z ->
  calculateTotalDuration duration None = "0 min"
  /\ calculateTotalDuration duration (Some []) = "0 min"
  /\ ((T < 3600)%Z ->
        calculateTotalDuration duration (Some tracks) = decimal (T / 60) +:+ " min")
  /\ ((3600 <= T)%Z ->
        let h := (T / 3600)%Z in
        let m := ((T / 60) mod 60)%Z in
        calculateTotalDuration duration (Some tracks)
        = decimal h +:+ " hr " +:+ decimal m +:+ " min"
        /\ (1 <= h)%Z /\ (0 <= m < 60)%Z
        /\ (3600 * h + 60 * m <= T < 3600 * h + 60 * m + 60)%Z).
Proof.
  intros duration T Hts HT. split; [done|]. split; [done|].
  assert (HT0 : (0 <= T)%Z) by (by apply total_seconds_nonneg).
  assert (Hm0 : (0 <= T / 60)%Z) by (apply Z.div_pos; lia).
  assert (Hm1 : (T / 60 < 2 ^ 53)%Z) by (apply Z.div_lt_upper_bound; lia).
  assert (Hcalc : calculateTotalDuration duration (Some tracks)
                  = if (T / 60 <? 60)%Z then decimal (T / 60) +:+ " min"
                    else decimal (T / 60 / 60) +:+ " hr "
                         +:+ decimal (Z.rem (T / 60) 60) +:+ " min").
  { destruct (total_foldl seconds tracks 0 0 ltac:(reflexivity) ltac:(lia) Hts
                ltac:(fold T; lia)) as (y & Hy & Hyq).
    destruct tracks as [|t ts].
    - reflexivity.
    - unfold calculateTotalDuration. cbv beta iota zeta.
      unfold duration. rewrite Hy. rewrite Z.add_0_l in Hyq. fold T in Hyq.
      change 60%Q with (inject_Z 60).
      rewrite (floor_div_whole y T 60 Hyq) by lia.
      cbn [integer_lt of_integer integer_rem].
      rewrite (floor_div_whole (inject_Z (T / 60)) (T / 60) 60) by (done || lia).
      assert (Hrem : (0 <= Z.rem (T / 60) 60 < 60)%Z).
      { rewrite Z.rem_mod_nonneg by lia. apply Z.mod_pos_bound. lia. }
      assert (Hh : (0 <= T / 60 / 60 < 2 ^ 53)%Z).
      { split; [apply Z.div_pos; lia | apply Z.div_lt_upper_bound; lia]. }
      rewrite !toString_safe by lia. reflexivity. }
  split.
  - intros HT'. rewrite Hcalc.
    destruct (Z.ltb_spec (T / 60) 60) as [|Hge]; [done|].
    assert (T / 60 < 60)%Z by (apply Z.div_lt_upper_bound; lia). lia.
  - intros HT' h m. rewrite Hcalc.
    assert (Hm60 : (60 <= T / 60)%Z) by (apply Z.div_le_lower_bound; lia).
    destruct (Z.ltb_spec (T / 60) 60) as [|_]; [lia|].
    assert (Hh : (T / 60 / 60 = T / 3600)%Z) by (by rewrite Z.div_div by lia).
    rewrite Z.rem_mod_nonneg by lia. rewrite Hh. fold h m.
    split; [done|]. split; [unfold h; apply Z.div_le_lower_bound; lia|].
    split; [unfold m; apply Z.mod_pos_bound; lia|].
    unfold h, m.
    pose proof (Z.div_mod T 60 ltac:(lia)) as H1.
    pose proof (Z.mod_pos_bound T 60 ltac:(lia)) as H2.
    pose proof (Z.div_mod (T / 60) 60 ltac:(lia)) as H3.
    rewrite Hh in H3. lia.
Qed.

Lemma calculateTotalDuration_spec_witness :
  calculateTotalDuration
    (fun t => whole (if String.eqb (t_id t) "3" then None else Some (t_duration t)))
    (Some [mkTrack 0 "1" "a" "b" None 3000; mkTrack 1 "2" "c" "d" None 725;
           mkTrack 2 "3" "e" "f" None 0])
  = "1 hr 2 min".
Proof.
  destruct (calculateTotalDuration_spec
              (fun t => if String.eqb (t_id t) "3" then None else Some (t_duration t))
              [mkTrack 0 "1" "a" "b" None 3000; mkTrack 1 "2" "c" "d" None 725;
               mkTrack 2 "3" "e" "f" None 0])
    as (_ & _ & _ & H).
  - repeat constructor; cbn; intros s [= <-]; lia.
  - reflexivity.
  - destruct (H ltac:(vm_compute; discriminate)) as [H' _]. exact H'.
Defined.

(** ** Home page lists *)

Section Selection.

Lemma List_filter_nil_existsb {A} (P : A -> bool) (l : list A) :
  List.filter P l = [] <-> existsb P l = false.
Proof.
  induction l as [|x l IH]; simpl; [done|].
  destruct (P x); simpl; [split; discriminate | exact IH].
Qed.

Lemma List_filter_Forall {A} (P : A -> bool) (l : list A) :
  Forall (fun x => P x = true) (List.filter P l).
Proof. apply Forall_forall. intros x Hx. apply elem_of_List_filter in Hx. tauto. Qed.

(** The selection the two functions share. *)
Lemma flagged_or_first (flag : Track -> bool) (limit : Z) (tracks : list Track) :
  (0 < limit)%Z ->
  let flagged := slice 0 limit (List.filter flag tracks) in
  let shown := if (0 <? length flagged)%nat then flagged else slice 0 limit tracks in
  flagged_else_first flag limit tracks shown.
Proof.
  intros Hl flagged shown. unfold flagged_else_first, shown, flagged.
  rewrite !slice_0_nonneg by lia.
  destruct (existsb flag tracks) eqn:E.
  - assert (Hne : List.filter flag tracks <> []).
    { intros H. apply List_filter_nil_existsb in H. congruence. }
    assert (Hlen : (0 < length (take (Z.to_nat limit) (List.filter flag tracks)))%nat).
    { rewrite length_take. destruct (List.filter flag tracks); [done | simpl; lia]. }
    apply Nat.ltb_lt in Hlen as Hlen'. rewrite Hlen'.
    split; [rewrite length_take; lia|].
    split; [etransitivity; [apply sublist_take | apply List_filter_sublist]|].
    split; [intros _; split; [done | apply Forall_take, List_filter_Forall]|].
    split; [done|]. intros _ H. rewrite H in Hlen. simpl in Hlen. lia.
  - assert (Hnil : List.filter flag tracks = []) by (by apply List_filter_nil_existsb).
    rewrite Hnil. simpl. rewrite take_nil. simpl.
    split; [rewrite length_take; lia|].
    split; [apply sublist_take|].
    split; [done|]. split; [done|].
    intros Hne H. destruct tracks as [|t ts]; [done|].
    apply (f_equal length) in H. rewrite length_take in H. simpl in H. lia.
Qed.

End Selection.

(** X15: the home page lists prefer the flagged tracks and fall back on the
    catalog.  For a positive limit (8 and 10 when none is given),
    [renderFeaturedTracks] and [renderTrendingTracks] show at most that many
    tracks, in catalog order: the first featured (trending) ones when the
    catalog has any, and then only such; the first tracks of the catalog
    when it has none, so that the list is empty only for an empty catalog.
    Without container or without tracks array they render nothing. *)
Theorem home_lists_fall_back (featured trending : Track -> bool)
    (tracks : list Track) (limit : option Z) :
  (forall n, limit = Some n -> (0 < n)%Z) ->
  (exists shown,
     renderFeaturedTracks featured true (Some tracks) limit = Some shown
     /\ flagged_else_first featured (default 8%Z limit) tracks shown)
  /\ (exists shown,
        renderTrendingTracks trending true (Some tracks) limit = Some shown
        /\ flagged_else_first trending (default 10%Z limit) tracks shown)
  /\ renderFeaturedTracks featured false (Some tracks) limit = None
  /\ renderTrendingTracks trending false (Some tracks) limit = None
  /\ renderFeaturedTracks featured true None limit = None
  /\ renderTrendingTracks trending true None limit = None.
Proof.
  intros Hlim.
  assert (H8 : (0 < default 8 limit)%Z) by (destruct limit; [by apply Hlim | done]).
  assert (H10 : (0 < default 10 limit)%Z) by (destruct limit; [by apply Hlim | done]).
  split; [|split; [|done]].
  - eexists. split; [reflexivity|]. by apply flagged_or_first.
  - eexists. split; [reflexivity|]. by apply flagged_or_first.
Qed.

Lemma home_lists_fall_back_witness :
  renderFeaturedTracks (fun t => String.eqb (t_id t) "2") true
                       (Some [blue_moon; moonlight]) None
  = Some [moonlight].
Proof.
  destruct (home_lists_fall_back (fun t => String.eqb (t_id t) "2") (fun _ => false)
              [blue_moon; moonlight] None) as ((shown & Hr & _ & _ & Hf & _) & _).
  - intros n H. discriminate H.
  - rewrite Hr. destruct (Hf eq_refl) as [-> _]. reflexivity.
Defined.

Section LatestAlbums.

Lemma elem_of_drop_lookup {A} (k : nat) (l : list A) x :
  x ∈ drop k l -> exists j, l !! (k + j)%nat = Some x.
Proof. intros (j & Hj)%list_elem_of_lookup. exists j. by rewrite <- lookup_drop. Qed.

End LatestAlbums.

(** X16: [renderLatestAlbums] shows the newest albums: at most [limit] of
    them (4 when no limit is given, for a limit that is not negative), from
    the newest year down, an album without year counting as year 0; what is
    shown and what is left out are together the albums of the catalog, and
    no album left out is newer than an album shown. *)
Theorem latest_albums_are_newest (year : Album -> option Z) (albums : list Album)
    (limit : option Z) :
  (0 <= default 4%Z limit)%Z ->
  exists shown rest,
    renderLatestAlbums year true (Some albums) limit = Some shown
    /\ (Z.of_nat (length shown) <= default 4%Z limit)%Z
    /\ albums ≡ₚ shown ++ rest
    /\ (forall (i j : nat) a b, (i < j)%nat -> shown !! i = Some a -> shown !! j = Some b ->
          (year_or_0 year b <= year_or_0 year a)%Z)
    /\ (forall a b, a ∈ shown -> b ∈ rest -> (year_or_0 year b <= year_or_0 year a)%Z).
Proof.
  intros Hl. unfold renderLatestAlbums. cbn [negb]. rewrite slice_0_nonneg by done.
  set (sorted := sort (fun a b => (or_default (year b) 0 - or_default (year a) 0)%Z) albums).
  set (k := Z.to_nat (default 4%Z limit)).
  assert (Hdesc : descending (year_or_0 year) sorted) by apply sort_descending.
  exists (take k sorted), (drop k sorted). split; [done|].
  split; [rewrite length_take; lia|].
  split; [rewrite take_drop; symmetry; apply sort_perm|].
  split.
  - intros i j a b Hij [Hi _]%lookup_take_Some [Hj _]%lookup_take_Some.
    by eapply (descending_lookup_le (year_or_0 year)).
  - intros a b (i & Hi & Hik)%elem_of_take (j & Hj)%elem_of_drop_lookup.
    eapply (descending_lookup_le (year_or_0 year)); [exact Hdesc| |exact Hi|exact Hj]. lia.
Qed.

Lemma latest_albums_are_newest_witness :
  exists shown,
    renderLatestAlbums (fun a => if String.eqb (a_id a) "new" then Some 2024%Z else None)
                       true (Some [mkAlbum 0 "old" "A" "x"; mkAlbum 1 "new" "B" "x"])
                       (Some 1%Z)
    = Some shown
    /\ (Z.of_nat (length shown) <= 1)%Z.
Proof.
  destruct (latest_albums_are_newest
              (fun a => if String.eqb (a_id a) "new" then Some 2024%Z else None)
              [mkAlbum 0 "old" "A" "x"; mkAlbum 1 "new" "B" "x"] (Some 1%Z))
    as (shown & rest & Hr & Hlen & _).
  - discriminate.
  - exists shown. split; [exact Hr | exact Hlen].
Defined.

(** ** Discover page *)

Section Paging.

Variable localeCompare : string -> string -> Z.

Lemma getSortedTracks_perm s tracks : getSortedTracks localeCompare s tracks ≡ₚ tracks.
Proof.
  unfold getSortedTracks.
  destruct (String.eqb s "oldest"); [symmetry; apply Permutation_rev|].
  repeat (match goal with |- context [if ?b then _ else _] => destruct b end;
          [apply sort_perm|]).
  done.
Qed.

Lemma tracksPage_clicks (k : nat) d :
  tracksPage (Nat.iter k load_more d) = (tracksPage d + Z.of_nat k)%Z
  /\ currentSort (Nat.iter k load_more d) = currentSort d.
Proof.
  induction k as [|k [IH1 IH2]]; simpl; [split; [lia | done]|].
  rewrite IH1, IH2. split; [lia | done].
Qed.

Lemma take_all_iff {A} (n : nat) (l : list A) : take n l = l <-> (length l <= n)%nat.
Proof.
  split; [|apply take_ge].
  intros H. apply (f_equal length) in H. rewrite length_take in H. lia.
Qed.

End Paging.

(** X17: the discover page pages through the whole catalog, whatever the
    sort order.  After the order is chosen and "load more" is clicked [k]
    times, the first [20 (k + 1)] tracks of the sorted list are shown; the
    sorted list has the tracks of the catalog, each as often as the catalog
    has it; and the "load more" button is hidden exactly when every track is
    shown. *)
Theorem discover_pages_cover_catalog (localeCompare : string -> string -> Z)
    (value : string) (d0 : Discover) (k : nat) (tracks : list Track) :
  let d := Nat.iter k load_more (sort_change value d0) in
  let sorted := getSortedTracks localeCompare value tracks in
  let shown := rendered_tracks localeCompare d tracks in
  sorted ≡ₚ tracks
  /\ shown = take (20 * (k + 1)) sorted
  /\ (load_more_hidden localeCompare d tracks = true <-> shown = sorted)
  /\ (load_more_hidden localeCompare d tracks = true -> shown ≡ₚ tracks).
Proof.
  intros d sorted shown.
  destruct (tracksPage_clicks k (sort_change value d0)) as [Hp Hs].
  cbn [sort_change tracksPage currentSort] in Hp, Hs. fold d in Hp, Hs.
  assert (Hperm : sorted ≡ₚ tracks) by apply getSortedTracks_perm.
  assert (Hshown : shown = take (20 * (k + 1)) sorted).
  { unfold shown, rendered_tracks. rewrite Hp, Hs. fold sorted.
    unfold tracksPerPage. rewrite slice_0_nonneg by lia. f_equal. lia. }
  assert (Hhid : load_more_hidden localeCompare d tracks = true <-> shown = sorted).
  { unfold load_more_hidden. rewrite Hp, Hs. fold sorted. unfold tracksPerPage.
    rewrite Hshown, take_all_iff, Z.leb_le. lia. }
  split; [done|]. split; [done|]. split; [done|].
  intros H. apply Hhid in H. by rewrite H.
Qed.

Lemma discover_pages_cover_catalog_witness :
  rendered_tracks (fun _ _ => 0%Z) (Nat.iter 0 load_more (sort_change "oldest" discover_start))
                  [blue_moon; moonlight]
  ≡ₚ [blue_moon; moonlight].
Proof.
  destruct (discover_pages_cover_catalog (fun _ _ => 0%Z) "oldest" discover_start 0
              [blue_moon; moonlight]) as (_ & _ & _ & H).
  apply H. reflexivity.
Defined.

(** ** The search box of the header *)

Import GlobalSearch.

Lemma on_input_long text p :
  (2 <= String.length (trim text))%nat -> single_slot (world p) ->
  on_input text p
  = mkPage (mkWorld (search_state (world p)) (Some (next_timer (world p)))
                    {[next_timer (world p) :=
                        mkTimer (now (world p) + DEBOUNCE_DELAY)
                                (mkTask (trim text) render dropdown_options)]}
                    (S (next_timer (world p))) (now (world p)) (calls (world p)))
           text (dropdown p).
Proof.
  intros Hlen Hs. unfold on_input. cbv zeta.
  destruct (Nat.ltb_spec (String.length (trim text)) 2); [lia|].
  pose proof (debouncedSearch_pending (world p)
                (mkTask (trim text) render dropdown_options) Hs) as Hp.
  cbn [task_query task_callback task_options] in Hp. by rewrite Hp.
Qed.

Lemma on_input_short text p :
  (String.length (trim text) < 2)%nat ->
  on_input text p = mkPage (world p) text (mkDropdown false None).
Proof.
  intros Hlen. unfold on_input. cbv zeta.
  by destruct (Nat.ltb_spec (String.length (trim text)) 2); [|lia].
Qed.

Lemma pass_early dt p h t :
  timers (world p) = {[h := t]} -> (now (world p) + Z.max dt 0 < due t)%Z ->
  pass dt p
  = mkPage (mkWorld (search_state (world p)) (debounceTimer (world p)) {[h := t]}
                    (next_timer (world p)) (now (world p) + Z.max dt 0) (calls (world p)))
           (value p) (dropdown p).
Proof.
  intros Ht Hlt. unfold pass. cbv zeta. rewrite (wait_early dt (world p) h t Ht Hlt).
  cbn [calls]. by rewrite drop_all.
Qed.

Lemma pass_fires dt p h t :
  timers (world p) = {[h := t]} -> (due t <= now (world p) + Z.max dt 0)%Z ->
  task_callback (task t) = render ->
  let r := search (task_query (task t)) (task_options (task t)) (search_state (world p)) in
  pass dt p
  = mkPage (mkWorld (snd r) (debounceTimer (world p)) ∅ (next_timer (world p))
                    (now (world p) + Z.max dt 0)
                    (calls (world p) ++ [mkCall render (fst r) (task_query (task t))]))
           (value p)
           (renderSearchDropdown (fst r) (task_query (task t)) (dropdown p)).
Proof.
  intros Ht Hle Hcb r. unfold pass. cbv zeta. rewrite (wait_fires dt (world p) h t Ht Hle).
  cbn [calls]. rewrite drop_app_length. rewrite Hcb. reflexivity.
Qed.

(** Keystrokes run no callback and leave the dropdown as it is. *)
Lemma typing_silent cs p :
  single_slot (world p) -> Forall keystroke cs ->
  dropdown (typing cs p) = dropdown p
  /\ calls (world (typing cs p)) = calls (world p)
  /\ search_state (world (typing cs p)) = search_state (world p)
  /\ single_slot (world (typing cs p)).
Proof.
  revert p. induction cs as [|[text dt] cs IH]; intros p Hs Hcs; [by simpl|].
  apply Forall_cons in Hcs as [[Hlen Hdt] Hcs]. cbn [fst snd] in Hlen, Hdt.
  change (typing ((text, dt) :: cs) p) with (typing cs (pass dt (on_input text p))).
  rewrite (on_input_long text p Hlen Hs).
  erewrite pass_early; [|reflexivity|cbn; unfold DEBOUNCE_DELAY in *; lia].
  cbn [world value dropdown search_state debounceTimer next_timer now calls].
  match goal with
  | |- context [typing cs ?x] => destruct (IH x) as (H1 & H2 & H3 & H4); [|done|]
  end.
  - right. cbn. eauto.
  - by rewrite H1, H2, H3.
Qed.

(** X18: the dropdown follows the text once the typing pauses.  Texts of
    two characters or more (trimmed) typed less than 200 ms apart run no
    search; 200 ms after the last of them the dropdown is rendered once,
    active, from the search for the trimmed last text with limit 8 on the
    index as it was, and the one callback run is that one. *)
Theorem dropdown_after_typing (p : Page) (before : list (string * Z)) (text : string)
    (T : Z) :
  single_slot (world p) ->
  Forall keystroke before ->
  (2 <= String.length (trim text))%nat ->
  (DEBOUNCE_DELAY <= T)%Z ->
  let p' := pass T (on_input text (typing before p)) in
  let results := fst (search (trim text) dropdown_options (search_state (world p))) in
  dropdown p' = renderSearchDropdown results (trim text) (dropdown p)
  /\ active (dropdown p') = true
  /\ value p' = text
  /\ calls (world p') = calls (world p) ++ [mkCall render results (trim text)].
Proof.
  intros Hs Hbefore Hlen HT p' results.
  destruct (typing_silent before p Hs Hbefore) as (Hd & Hc & Hst & Hs').
  unfold p'. rewrite (on_input_long text _ Hlen Hs').
  erewrite pass_fires; [|reflexivity|cbn; lia|reflexivity].
  cbn [world value dropdown search_state calls task task_query task_options].
  rewrite Hd, Hc, Hst. fold results. repeat split.
  unfold renderSearchDropdown. by destruct (negb _).
Qed.

Lemma dropdown_after_typing_witness :
  innerHTML (dropdown (pass 200 (on_input " mid " (typing [("mi", 50%Z)]
               (mkPage (new_world scenario_state) EmptyString (mkDropdown false None))))))
  = Some (ItemsFor [midnight_run] [] "mid").
Proof.
  refine (eq_trans (f_equal innerHTML (proj1 (dropdown_after_typing
            (mkPage (new_world scenario_state) EmptyString (mkDropdown false None))
            [("mi", 50%Z)] " mid " 200 _ _ _ _))) _).
  - left. reflexivity.
  - apply Forall_cons. split; [|by apply Forall_nil].
    split; [vm_compute; lia | cbn; unfold DEBOUNCE_DELAY; lia].
  - vm_compute. lia.
  - discriminate.
  - reflexivity.
Defined.

(** X19: a short text does not cancel the search it follows.  When a text
    of two characters or more is followed, before its 200 ms are over, by a
    text of fewer than two characters (trimmed), the dropdown is emptied and
    closed at once, but the pending search still runs at its time: the
    dropdown is then active again and lists the results for the earlier
    text, while the input holds the short one. *)
Theorem short_input_leaves_search_pending (p : Page) (text short : string) (d1 d2 : Z) :
  single_slot (world p) ->
  (2 <= String.length (trim text))%nat ->
  (String.length (trim short) < 2)%nat ->
  (0 <= d1 < DEBOUNCE_DELAY)%Z -> (0 <= d2)%Z -> (DEBOUNCE_DELAY <= d1 + d2)%Z ->
  let p1 := on_input short (pass d1 (on_input text p)) in
  let p2 := pass d2 p1 in
  let results := fst (search (trim text) dropdown_options (search_state (world p))) in
  dropdown p1 = mkDropdown false None
  /\ value p2 = short
  /\ dropdown p2 = renderSearchDropdown results (trim text) (mkDropdown false None)
  /\ active (dropdown p2) = true.
Proof.
  intros Hs Hlen Hshort Hd1 Hd2 Hsum p1 p2 results.
  assert (Hp1 : p1 = mkPage
            (mkWorld (search_state (world p)) (Some (next_timer (world p)))
               {[next_timer (world p) :=
                   mkTimer (now (world p) + DEBOUNCE_DELAY)
                           (mkTask (trim text) render dropdown_options)]}
               (S (next_timer (world p))) (now (world p) + Z.max d1 0) (calls (world p)))
            short (mkDropdown false None)).
  { unfold p1. rewrite (on_input_long text p Hlen Hs).
    erewrite pass_early; [|reflexivity|cbn; unfold DEBOUNCE_DELAY in *; lia].
    by rewrite on_input_short. }
  unfold p2. rewrite Hp1. split; [done|].
  erewrite pass_fires; [|reflexivity|cbn; unfold DEBOUNCE_DELAY in *; lia|reflexivity].
  cbn [world value dropdown search_state calls task task_query task_options].
  fold results. repeat split.
  unfold renderSearchDropdown. by destruct (negb _).
Qed.

Lemma short_input_leaves_search_pending_witness :
  dropdown (pass 150 (on_input "m" (pass 100 (on_input "mid"
              (mkPage (new_world scenario_state) EmptyString (mkDropdown false None))))))
  = mkDropdown true (Some (ItemsFor [midnight_run] [] "mid")).
Proof.
  refine (eq_trans (proj1 (proj2 (proj2 (short_input_leaves_search_pending
            (mkPage (new_world scenario_state) EmptyString (mkDropdown false None))
            "mid" "m" 100 150 _ _ _ _ _ _)))) _).
  - left. reflexivity.
  - vm_compute. lia.
  - vm_compute. lia.
  - unfold DEBOUNCE_DELAY. lia.
  - lia.
  - unfold DEBOUNCE_DELAY. lia.
  - reflexivity.
Defined.

(** ** The router *)

Import Router.

Section ParamsFacts.

Implicit Types ps : Params.

Lemma get_delete_eq k ps : get k (delete k ps) = None.
Proof.
  unfold get, delete. induction ps as [|p ps IH]; simpl; [done|].
  destruct (String.eqb (fst p) k) eqn:E; simpl; [done|]. by rewrite E.
Qed.

Lemma get_delete_ne k k' ps : k' <> k -> get k' (delete k ps) = get k' ps.
Proof.
  intros Hne. unfold get, delete. induction ps as [|p ps IH]; simpl; [done|].
  destruct (String.eqb_spec (fst p) k) as [Hk|Hk]; simpl.
  - destruct (String.eqb_spec (fst p) k'); [congruence | done].
  - destruct (String.eqb (fst p) k'); [done | exact IH].
Qed.

Lemma get_set_eq k v ps : get k (set k v ps) = Some v.
Proof.
  induction ps as [|p ps IH]; simpl.
  - unfold get. simpl. by rewrite String.eqb_refl.
  - destruct (String.eqb (fst p) k) eqn:E.
    + unfold get. simpl. by rewrite String.eqb_refl.
    + unfold get in *. simpl. by rewrite E.
Qed.

Lemma get_set_ne k k' v ps : k' <> k -> get k' (set k v ps) = get k' ps.
Proof.
  intros Hne. induction ps as [|p ps IH]; simpl.
  - unfold get. simpl. by destruct (String.eqb_spec k k').
  - destruct (String.eqb_spec (fst p) k) as [Hk|Hk].
    + unfold get at 1 2. simpl.
      destruct (String.eqb_spec k k'); [congruence|].
      destruct (String.eqb_spec (fst p) k'); [congruence|].
      by apply get_delete_ne.
    + unfold get in *. simpl. destruct (String.eqb (fst p) k'); [done | exact IH].
Qed.

Lemma occurrences_delete_eq k ps : occurrences k (delete k ps) = 0.
Proof.
  unfold occurrences, delete. induction ps as [|p ps IH]; simpl; [done|].
  destruct (String.eqb (fst p) k) eqn:E; simpl; [done|]. by rewrite E.
Qed.

Lemma occurrences_delete_ne k k' ps :
  k' <> k -> occurrences k' (delete k ps) = occurrences k' ps.
Proof.
  intros Hne. unfold occurrences, delete. induction ps as [|p ps IH]; simpl; [done|].
  destruct (String.eqb_spec (fst p) k) as [Hk|Hk]; simpl.
  - destruct (String.eqb_spec (fst p) k'); [congruence | done].
  - destruct (String.eqb (fst p) k'); simpl; by rewrite IH.
Qed.

Lemma occurrences_set_eq k v ps : occurrences k (set k v ps) = 1.
Proof.
  induction ps as [|p ps IH]; simpl.
  - unfold occurrences. simpl. by rewrite String.eqb_refl.
  - destruct (String.eqb (fst p) k) eqn:E.
    + unfold occurrences at 1. simpl. rewrite String.eqb_refl. simpl.
      fold (occurrences k (delete k ps)). by rewrite occurrences_delete_eq.
    + unfold occurrences in *. simpl. by rewrite E.
Qed.

Lemma occurrences_set_ne k k' v ps :
  k' <> k -> occurrences k' (set k v ps) = occurrences k' ps.
Proof.
  intros Hne. induction ps as [|p ps IH]; simpl.
  - unfold occurrences. simpl. by destruct (String.eqb_spec k k').
  - destruct (String.eqb_spec (fst p) k) as [Hk|Hk].
    + unfold occurrences at 1 2. simpl.
      destruct (String.eqb_spec k k'); [congruence|].
      destruct (String.eqb_spec (fst p) k'); [congruence|].
      by apply occurrences_delete_ne.
    + unfold occurrences in *. simpl. destruct (String.eqb (fst p) k'); simpl; by rewrite IH.
Qed.

Lemma update_entry_eq url k v :
  getParam k (update_entry url (k, v)) = wanted v
  /\ occurrences k (search (update_entry url (k, v))) <= 1.
Proof.
  unfold update_entry, getParam, getParams, wanted. cbn [fst snd].
  destruct v as [v|]; [destruct (truthy v)|]; cbn [negb search with_search].
  - by rewrite get_set_eq, occurrences_set_eq.
  - rewrite get_delete_eq, occurrences_delete_eq. split; [done | lia].
  - rewrite get_delete_eq, occurrences_delete_eq. split; [done | lia].
Qed.

Lemma update_entry_ne url k v k' :
  k' <> k ->
  getParam k' (update_entry url (k, v)) = getParam k' url
  /\ occurrences k' (search (update_entry url (k, v))) = occurrences k' (search url).
Proof.
  intros Hne. unfold update_entry, getParam, getParams. cbn [fst snd].
  destruct v as [v|]; [destruct (truthy v)|]; cbn [negb search with_search].
  - by rewrite get_set_ne, occurrences_set_ne.
  - by rewrite get_delete_ne, occurrences_delete_ne.
  - by rewrite get_delete_ne, occurrences_delete_ne.
Qed.

Lemma update_entry_rest url entry :
  pathname (update_entry url entry) = pathname url
  /\ hash (update_entry url entry) = hash url.
Proof.
  unfold update_entry. destruct (snd entry) as [v|]; [destruct (negb (truthy v))|]; done.
Qed.

Lemma updateParams_cons entry params url :
  updateParams (entry :: params) url = updateParams params (update_entry url entry).
Proof. reflexivity. Qed.

Lemma updateParams_other params url k :
  k ∉ map fst params ->
  getParam k (updateParams params url) = getParam k url
  /\ occurrences k (search (updateParams params url)) = occurrences k (search url).
Proof.
  revert url. induction params as [|[k' v] params IH]; intros url Hk; [done|].
  rewrite updateParams_cons. simpl in Hk. apply not_elem_of_cons in Hk as [Hne Hk].
  destruct (IH (update_entry url (k', v)) Hk) as [-> ->].
  by apply update_entry_ne.
Qed.

Lemma updateParams_rest params url :
  pathname (updateParams params url) = pathname url
  /\ hash (updateParams params url) = hash url.
Proof.
  revert url. induction params as [|e params IH]; intros url; [done|].
  rewrite updateParams_cons. destruct (IH (update_entry url e)) as [-> ->].
  apply update_entry_rest.
Qed.

Lemma buildUrl_cons entry params url :
  buildUrl url (entry :: params) = buildUrl (build_entry url entry) params.
Proof. reflexivity. Qed.

Lemma build_entry_ne url k v k' :
  k' <> k -> getParam k' (build_entry url (k, v)) = getParam k' url.
Proof.
  intros Hne. unfold build_entry, getParam, getParams. cbn [fst snd].
  destruct v as [v|]; cbn [search with_search]; [by rewrite get_set_ne | done].
Qed.

Lemma buildUrl_other params url k :
  k ∉ map fst params -> getParam k (buildUrl url params) = getParam k url.
Proof.
  revert url. induction params as [|[k' v] params IH]; intros url Hk; [done|].
  rewrite buildUrl_cons. simpl in Hk. apply not_elem_of_cons in Hk as [Hne Hk].
  rewrite (IH _ Hk). by apply build_entry_ne.
Qed.

End ParamsFacts.

(** X20: [updateParams] then [getParam].  For an object whose keys are
    distinct, every key given a non-empty string reads back as that string,
    every key given null, undefined or the empty string reads back as null,
    and either way the key is left at most once in the query; the other
    parameters, the path and the hash are as they were. *)
Theorem updateParams_getParam (params : list (string * option string))
    (location : Location) :
  NoDup (map fst params) ->
  let location' := updateParams params location in
  (forall key value, (key, value) ∈ params ->
     getParam key location' = wanted value
     /\ occurrences key (search location') <= 1)
  /\ (forall key, key ∉ map fst params ->
        getParam key location' = getParam key location
        /\ occurrences key (search location') = occurrences key (search location))
  /\ pathname location' = pathname location
  /\ hash location' = hash location.
Proof.
  intros Hnd location'. split; [|split; [|apply updateParams_rest]].
  - unfold location'. clear location'. revert location.
    induction params as [|[k v] params IH]; intros location key value Hin.
    + by apply elem_of_nil in Hin.
    + simpl in Hnd. apply NoDup_cons in Hnd as [Hk Hnd].
      rewrite updateParams_cons. apply elem_of_cons in Hin as [[= -> ->] | Hin].
      * destruct (updateParams_other params (update_entry location (k, v)) k Hk) as [-> ->].
        apply update_entry_eq.
      * by apply IH.
  - intros key Hk. by apply updateParams_other.
Qed.

Lemma updateParams_getParam_witness :
  getParam "q" (updateParams [("q", Some "moon"); ("page", None)]
                  (mkLocation "/search.html" [("page", "2"); ("q", "x")] EmptyString))
  = Some "moon".
Proof.
  refine (proj1 (proj1 (updateParams_getParam [("q", Some "moon"); ("page", None)]
              (mkLocation "/search.html" [("page", "2"); ("q", "x")] EmptyString) _)
            "q" (Some "moon") _)).
  - by apply (bool_decide_unpack _); vm_compute.
  - left.
Defined.

(** X21: [buildUrl] then [getParam].  For an object whose keys are distinct,
    every key given a string, the empty string included, reads back as that
    string from the URL built; a key given null or undefined, and a key that
    is not given, read back as they do from the base. *)
Theorem buildUrl_getParam (base : Location) (params : list (string * option string)) :
  NoDup (map fst params) ->
  (forall key value, (key, Some value) ∈ params ->
     getParam key (buildUrl base params) = Some value)
  /\ (forall key, (key, None) ∈ params ->
        getParam key (buildUrl base params) = getParam key base)
  /\ (forall key, key ∉ map fst params ->
        getParam key (buildUrl base params) = getParam key base).
Proof.
  intros Hnd. split; [|split].
  - revert base. induction params as [|[k v] params IH]; intros base key value Hin.
    + by apply elem_of_nil in Hin.
    + simpl in Hnd. apply NoDup_cons in Hnd as [Hk Hnd].
      rewrite buildUrl_cons. apply elem_of_cons in Hin as [Heq | Hin].
      * injection Heq as -> <-. rewrite (buildUrl_other params _ k Hk).
        unfold build_entry, getParam, getParams. cbn [fst snd search with_search].
        apply get_set_eq.
      * by apply IH.
  - revert base. induction params as [|[k v] params IH]; intros base key Hin.
    + by apply elem_of_nil in Hin.
    + simpl in Hnd. apply NoDup_cons in Hnd as [Hk Hnd].
      rewrite buildUrl_cons. apply elem_of_cons in Hin as [Heq | Hin].
      * injection Heq as -> <-. by rewrite (buildUrl_other params _ k Hk).
      * rewrite (IH Hnd _ key Hin). apply build_entry_ne. intros ->.
        apply Hk. apply list_elem_of_fmap. by exists (k, None).
  - intros key Hk. by apply buildUrl_other.
Qed.

Lemma buildUrl_getParam_witness :
  getParam "q" (buildUrl (mkLocation "/search.html" [] EmptyString) [("q", Some "moon")])
  = Some "moon".
Proof.
  refine (proj1 (buildUrl_getParam (mkLocation "/search.html" [] EmptyString)
                   [("q", Some "moon")] _) "q" "moon" _).
  - by apply (bool_decide_unpack _); vm_compute.
  - left.
Defined.

(** *** The page name *)

Lemma split_nonempty sep s : split sep s <> [].
Proof.
  destruct s as [|c s]; simpl; [done|].
  destruct (Ascii.eqb c sep); [done|]. by destruct (split sep s).
Qed.

Lemma split_append sep a b :
  split sep (a +:+ String sep b) = split sep a ++ split sep b.
Proof.
  induction a as [|c a IH]; simpl.
  - by rewrite Ascii.eqb_refl.
  - destruct (Ascii.eqb c sep); [by rewrite IH|].
    rewrite IH. pose proof (split_nonempty sep a). by destruct (split sep a).
Qed.

Lemma split_plain sep s : has_char sep s = false -> split sep s = [s].
Proof.
  induction s as [|c s IH]; simpl; [done|].
  intros [Hc Hs]%orb_false_iff. by rewrite Hc, (IH Hs).
Qed.

Lemma last_split_append sep a b :
  has_char sep b = false -> last (split sep (a +:+ String sep b)) = Some b.
Proof.
  intros Hb. by rewrite split_append, (split_plain _ _ Hb), last_snoc.
Qed.

Lemma split_pieces_plain sep s : Forall (fun piece => has_char sep piece = false) (split sep s).
Proof.
  induction s as [|c s IH]; simpl.
  - by constructor.
  - destruct (Ascii.eqb c sep) eqn:E; [by constructor|].
    pose proof (split_nonempty sep s). destruct (split sep s) as [|piece pieces]; [done|].
    inversion IH; subst. constructor; [|done]. simpl. by rewrite E.
Qed.

Lemma has_char_string_drop c n s :
  has_char c s = false -> has_char c (Highlight.string_drop n s) = false.
Proof.
  revert s. induction n as [|n IH]; intros [|a s]; simpl; try done.
  intros [_ Hs]%orb_false_iff. by apply IH.
Qed.

Lemma has_char_replace_string c pattern s :
  has_char c s = false -> has_char c (replace_string pattern EmptyString s) = false.
Proof.
  induction s as [|a s IH]; intros Hs.
  - simpl. by destruct (startsWith EmptyString pattern), pattern.
  - cbn [replace_string]. destruct (startsWith (String a s) pattern).
    + by apply has_char_string_drop.
    + simpl in *. apply orb_false_iff in Hs as [-> Hs]. by apply IH.
Qed.

Lemma has_char_append c a b :
  has_char c (a +:+ b) = has_char c a || has_char c b.
Proof. induction a as [|x a IH]; simpl; [done|]. by rewrite IH, orb_assoc. Qed.

(** A name that does not contain the suffix does not meet it at the seam. *)
Lemma html_seam name rest :
  name <> EmptyString -> includes name ".html" = false ->
  startsWith (name +:+ (".html" +:+ rest)) ".html" = false.
Proof.
  intros Hne Hinc.
  assert (Hsw : startsWith name ".html" = false).
  { destruct name; [done|]. cbn [includes] in Hinc. by apply orb_false_iff in Hinc as [? _]. }
  clear Hinc.
  destruct name as [|c1 name]; [done|].
  destruct name as [|c2 name]; [simpl; by destruct (Ascii.eqb "." c1)|].
  destruct name as [|c3 name];
    [simpl; destruct (Ascii.eqb "." c1), (Ascii.eqb_spec "h" c2); subst; done|].
  destruct name as [|c4 name];
    [simpl; destruct (Ascii.eqb "." c1), (Ascii.eqb "h" c2), (Ascii.eqb_spec "t" c3);
     subst; done|].
  destruct name as [|c5 name];
    [simpl; destruct (Ascii.eqb "." c1), (Ascii.eqb "h" c2), (Ascii.eqb "t" c3),
       (Ascii.eqb_spec "m" c4); subst; done|].
  simpl in *. by rewrite startsWith_nil in *.
Qed.

Lemma replace_string_html name rest :
  includes name ".html" = false ->
  replace_string ".html" EmptyString (name +:+ (".html" +:+ rest)) = name +:+ rest.
Proof.
  induction name as [|c name IH]; intros Hinc.
  - cbn [append]. cbn. by rewrite startsWith_nil.
  - assert (Hseam := html_seam (String c name) rest ltac:(done) Hinc).
    cbn [includes] in Hinc. apply orb_false_iff in Hinc as [_ Hinc].
    cbn [append] in *. cbn [replace_string]. by rewrite Hseam, (IH Hinc).
Qed.

Lemma replace_string_absent pattern replacement s :
  includes s pattern = false -> replace_string pattern replacement s = s.
Proof.
  induction s as [|c s IH]; intros Hinc.
  - cbn [includes] in Hinc. apply orb_false_iff in Hinc as [Hsw _].
    cbn [replace_string]. by rewrite Hsw.
  - cbn [includes] in Hinc. apply orb_false_iff in Hinc as [Hsw Hinc].
    cbn [replace_string]. by rewrite Hsw, (IH Hinc).
Qed.

Lemma getCurrentPage_file dir file ps h :
  file <> EmptyString -> has_char "/" file = false ->
  getCurrentPage (mkLocation (dir +:+ String "/" file) ps h)
  = replace_string ".html" EmptyString file.
Proof.
  intros Hne Hplain. unfold getCurrentPage. cbn [pathname].
  rewrite (last_split_append _ _ _ Hplain). by destruct file.
Qed.

(** X22: the page name of a file.  When the path ends in a file name (its
    last segment: not empty, no slash), [getCurrentPage] returns that name
    with its first [.html] taken out and nothing else changed: the name
    itself when it has no [.html]; what stands before it when the name ends
    in it; and for [a.html.b.html] the text [a.b.html], a later [.html]
    being kept. *)
Theorem getCurrentPage_file_name (dir name rest : string) (ps : Params) (h : string) :
  has_char "/" name = false -> has_char "/" rest = false ->
  includes name ".html" = false ->
  getCurrentPage (mkLocation (dir +:+ String "/" (name +:+ (".html" +:+ rest))) ps h)
  = name +:+ rest
  /\ (name <> EmptyString ->
      getCurrentPage (mkLocation (dir +:+ String "/" name) ps h) = name).
Proof.
  intros Hname Hrest Hinc. split.
  - rewrite getCurrentPage_file.
    + by apply replace_string_html.
    + by destruct name.
    + rewrite has_char_append, Hname. simpl. exact Hrest.
  - intros Hne. rewrite getCurrentPage_file by done. by apply replace_string_absent.
Qed.

Lemma getCurrentPage_file_name_witness :
  getCurrentPage (mkLocation "/music/track.html" [("id", "7")] EmptyString) = "track".
Proof.
  refine (proj1 (getCurrentPage_file_name "/music" "track" EmptyString
                   [("id", "7")] EmptyString _ _ _)); reflexivity.
Defined.

(** X23: the page name of a directory.  When the path ends in a slash, and
    when it is empty, [getCurrentPage] returns [index], whatever the
    directories before the slash are. *)
Theorem getCurrentPage_directory (dir : string) (ps : Params) (h : string) :
  getCurrentPage (mkLocation (dir +:+ "/") ps h) = "index"
  /\ getCurrentPage (mkLocation EmptyString ps h) = "index".
Proof.
  split; [|reflexivity].
  unfold getCurrentPage. cbn [pathname].
  by rewrite (last_split_append "/" dir EmptyString).
Qed.

(** X24: the page name is one path segment.  For every location, the text
    [getCurrentPage] returns has no slash in it. *)
Theorem getCurrentPage_no_slash (location : Location) :
  has_char "/" (getCurrentPage location) = false.
Proof.
  unfold getCurrentPage. apply has_char_replace_string.
  destruct (last (split "/" (pathname location))) as [piece|] eqn:Hlast; [|done].
  destruct (truthy piece); [|done].
  apply last_Some_elem_of in Hlast.
  pose proof (split_pieces_plain "/" (pathname location)) as Hall.
  rewrite Forall_forall in Hall. by apply Hall.
Qed.
